(** * dashboard_lib: credit-card dashboard pipeline

    A shallow embedding of the rate reconciliation, bucketing and usury
    sensitivity steps of [dashboard_lib/procesamiento_tc.py], of the check
    of the columns in [balance_composition], and of the reference-date
    helper of [dashboard_lib/utils.py].

    Numbers.  The pipeline computes on binary floating point.  The
    reconciliation, the bands, the segments and the conversions of rates
    only add, multiply, compare and round, and are embedded over the
    rationals [Q] with exact operations, so every definition runs; the
    monthly-value conversion needs a twelfth root and is embedded over the
    reals [R].  The usury sensitivity steps compare rates with a threshold
    they compute and round what they return, so they are embedded on
    doubles: a double is the rational it stands for and every operation
    rounds to the nearest double.  No model has NaN, infinities or
    overflow: a missing value (pandas NaN) is [None] where the code tests
    for it.

    Columns are given the type the code casts them to with [astype].  One
    cast can fail on the data and is modelled: the cast of
    [tipo_transaccion] to float in [tasas_originales].  Reading the files
    and writing the tables are not modelled: a step is the function from
    the frames it receives to the frame it builds. *)

From Stdlib Require Import ZArith QArith Qround Qabs Qminmax Qpower.
From Stdlib Require Import Reals Qreals.
From Stdlib Require Import Lia Psatz List Ascii String Bool.
From Stdlib Require Import DecimalString DecimalNat.
Import ListNotations.

Open Scope Q_scope.

(** ** Exceptions and results *)

Inductive exn : Type :=
| MergeError      (* pandas.errors.MergeError: merge(validate='1:1') *)
| ValueError      (* pd.concat of an empty list; astype('float') of a text
                     that is not a number *)
| AssertionError
| AttributeError  (* a data frame attribute that is not a column *)
| IndexError
| KeyError
| TypeError
| InvalidDate.    (* custom_exceptions.InvalidDate *)

Inductive result (A : Type) : Type :=
| Ok (a : A)
| Raise (e : exn).
Arguments Ok {A} a.
Arguments Raise {A} e.

Definition bind {A B : Type} (r : result A) (k : A -> result B) : result B :=
  match r with
  | Ok a => k a
  | Raise e => Raise e
  end.

Notation "x <- r ;; k" := (bind r (fun x => k))
  (at level 61, r at next level, right associativity).

(** ** Rounding

    Python's [round] and pandas' [Series.round] round half to even. *)

Definition round_half_even (x : Q) : Z :=
  let f := Qfloor x in
  match Qcompare (x - inject_Z f) (1 # 2) with
  | Lt => f
  | Gt => (f + 1)%Z
  | Eq => if Z.even f then f else (f + 1)%Z
  end.

(** [round(x, ndigits)] *)
Definition py_round (x : Q) (ndigits : nat) : Q :=
  let p := inject_Z (10 ^ Z.of_nat ndigits) in
  Qred (inject_Z (round_half_even (x * p)) / p).

Definition Qgtb (a b : Q) : bool := negb (Qle_bool a b).
Definition Qgeb (a b : Q) : bool := Qle_bool b a.
Definition Qltb (a b : Q) : bool := negb (Qle_bool b a).

(** Sum of a column. *)
Definition Qsum (l : list Q) : Q := fold_right Qplus 0 l.

(** ** Double precision

    A double is given by the rational it stands for.  An operation on
    doubles is the exact operation followed by [doble], the rounding to the
    nearest double, ties to the even significand: 53 bits of significand,
    exponents down to the subnormal [2 ^ -1074].  Overflow is left out. *)

(** The integer [k] with [2 ^ k <= x < 2 ^ (k + 1)], for [0 < x]. *)
Definition log2_inf (x : Q) : Z :=
  let k := (Z.log2 (Qnum x) - Z.log2 (Zpos (Qden x)))%Z in
  if Qle_bool (2 ^ k) x then k else (k - 1)%Z.

(** The exponent of the last bit of the double nearest to [a]. *)
Definition exponente (a : Q) : Z := Z.max (log2_inf a - 52) (-1074).

Definition doble_abs (a : Q) : Q :=
  let e := exponente a in
  inject_Z (round_half_even (a / 2 ^ e)) * 2 ^ e.

Definition doble (x : Q) : Q :=
  let x := Qred x in
  match Qcompare x 0 with
  | Eq => 0
  | Gt => Qred (doble_abs x)
  | Lt => Qred (- doble_abs (- x))
  end.

Definition fadd (x y : Q) : Q := doble (x + y).
Definition fsub (x y : Q) : Q := doble (x - y).
Definition fmul (x y : Q) : Q := doble (x * y).
Definition fdiv (x y : Q) : Q := doble (x / y).

(** [round(x)] of a numpy double: the nearest integer, ties to even. *)
Definition rint (x : Q) : Z := round_half_even x.

(** [round(x, decimals)] of a numpy double and [Series.round(decimals)]:
    numpy multiplies by [10 ** decimals], takes [rint] and divides, each
    in double precision. *)
Definition np_round (x : Q) (decimals : nat) : Q :=
  let p := inject_Z (10 ^ Z.of_nat decimals) in
  fdiv (inject_Z (rint (fmul x p))) p.


(** ** Effective annual rate

    [round((((((x/100)+1)**12)-1)*100),2)], the lambda of
    [tasas_originales] and the [interes_ea] column of the later steps. *)
Definition tasa_efectiva_anual (x : Q) : Q :=
  py_round ((((x / 100) + 1) ^ 12 - 1) * 100) 2.

(** ** Reconciliation: [tasas_originales] *)

Definition fecha : Type := (Z * Z * Z)%type.   (* year, month, day *)

Definition fecha_eqb (a b : fecha) : bool :=
  let '(y1, m1, d1) := a in
  let '(y2, m2, d2) := b in
  (y1 =? y2)%Z && (m1 =? m2)%Z && (d1 =? d2)%Z.

(** A row of the month's staging table [SieT..[mes_base]]. *)
Record fact_txc : Type := mk_fact_txc {
  llave : string;
  nro_producto : string;
  fecha_transaccion : string;
  tipo_transaccion : string;
  cod_transaccion : string;
  tasa_interes : Q;
  valor_transaccion : Q;
  nro_cargos_diferidos : Q;
  saldo_actual_trasaccion : Q;
  tipo_producto : string;
  periodo : string
}.

(** A row of [Maestro_Saldos..Maestro_Facturacion]. *)
Record maestro_facturacion : Type := mk_maestro {
  FECHA : fecha;
  NEGOCIO : string;
  VALOR_TRANSACCION : Q;
  CUOTAS_DIFERIDAS : Q;
  CODIGO_TRANSACCION : string;
  CODIGO_PRODUCTO : string;
  FECHA_TRANSACCION : string;
  IDENTIFICACION : string;
  TASA_EA_maestro : option Q     (* NULL when the master has no rate *)
}.

(** A row returned by the monthly query [sql_1]. *)
Record fila_to : Type := mk_fila_to {
  p1 : fact_txc;
  to_FECHA : fecha;
  to_NEGOCIO : string;
  to_IDENTIFICACION : string;
  to_TASA_EA : option Q
}.

(** A row of the data frame returned by [tasas_originales]: the columns of
    the staging table and [TASA_EA]. *)
Record fila_cruce : Type := mk_fila_cruce {
  tx : fact_txc;
  TASA_EA : option Q
}.

(** The [ON] clause of the inner join. *)
Definition on_clause (a : fact_txc) (b : maestro_facturacion) : bool :=
  String.eqb (nro_producto a) (NEGOCIO b)
  && Qeq_bool (valor_transaccion a) (VALOR_TRANSACCION b)
  && Qeq_bool (nro_cargos_diferidos a) (CUOTAS_DIFERIDAS b)
  && String.eqb (CODIGO_TRANSACCION b) (cod_transaccion a)
  && String.eqb (CODIGO_PRODUCTO b) (tipo_producto a)
  && String.eqb (fecha_transaccion a) (FECHA_TRANSACCION b).

(** [CASE CAST(p1.nro_cargos_diferidos AS FLOAT) WHEN 1 THEN 0
     ELSE p2.TASA_EA END] *)
Definition case_tasa_ea (a : fact_txc) (b : maestro_facturacion) : option Q :=
  if Qeq_bool (nro_cargos_diferidos a) 1 then Some 0 else TASA_EA_maestro b.

(** The query for one month: inner join, [WHERE p2.FECHA = 'anio-mes-01']. *)
Definition sql_1 (siet : list fact_txc) (maestro : list maestro_facturacion)
    (numero_anio numero_mes : Z) : list fila_to :=
  flat_map (fun a =>
    flat_map (fun b =>
      if on_clause a b && fecha_eqb (FECHA b) (numero_anio, numero_mes, 1%Z)
      then [mk_fila_to a (FECHA b) (NEGOCIO b) (IDENTIFICACION b)
                       (case_tasa_ea a b)]
      else []) maestro) siet.

(** *** The backward scan of months

    The state is [(numero_mes, numero_anio)]. *)
Definition paso_mes (st : Z * Z) : Z * Z :=
  let '(numero_mes, numero_anio) := st in
  let numero_mes := (numero_mes - 1)%Z in
  if (numero_mes =? 0)%Z then (12%Z, (numero_anio - 1)%Z)
  else (numero_mes, numero_anio).

(** [for i in range(0, num_mes)]: each round queries the current month and
    steps one month back. *)
Fixpoint for_range (n : nat) (st : Z * Z) (acc : list (Z * Z))
  : (Z * Z) * list (Z * Z) :=
  match n with
  | O => (st, acc)
  | S k => for_range k (paso_mes st) (acc ++ [st])
  end.

(** [while numero_mes >= 1 and numero_anio >= anio_final]; [None] when the
    fuel is used up. *)
Fixpoint while_meses (fuel : nat) (num_mes anio_final : Z) (st : Z * Z)
    (acc : list (Z * Z)) : option (list (Z * Z)) :=
  if (1 <=? fst st)%Z && (anio_final <=? snd st)%Z then
    match fuel with
    | O => None
    | S fuel' =>
        let '(st', acc') := for_range (Z.to_nat num_mes) st acc in
        while_meses fuel' num_mes anio_final st' acc'
    end
  else Some acc.

(** The months [(numero_mes, numero_anio)] queried, in order. *)
Definition meses_escaneados (num_mes num_anio : Z) : option (list (Z * Z)) :=
  let anio_final := (num_anio - 10)%Z in
  while_meses (Z.to_nat (133 + num_mes)) num_mes anio_final
              (num_mes, num_anio) [].

(** [df_complete = pd.concat(df_complete_1)] *)
Definition df_complete (siet : list fact_txc)
    (maestro : list maestro_facturacion) (meses : list (Z * Z))
  : result (list fila_to) :=
  match meses with
  | [] => Raise ValueError
  | _ => Ok (flat_map (fun st => sql_1 siet maestro (snd st) (fst st)) meses)
  end.

(** [drop_duplicates(subset=['llave'])]: the first row of each key stays. *)
Fixpoint drop_duplicates (l : list fila_to) (seen : list string)
  : list fila_to :=
  match l with
  | [] => []
  | r :: t =>
      if existsb (String.eqb (llave (p1 r))) seen then drop_duplicates t seen
      else r :: drop_duplicates t (llave (p1 r) :: seen)
  end.

Fixpoint unique_keys (l : list string) : bool :=
  match l with
  | [] => true
  | k :: t => negb (existsb (String.eqb k) t) && unique_keys t
  end.

(** A row of [pd.merge(df_mes_ta, df_mes_to_sinDuplicados, how='left',
    on='llave')]: the right-hand columns are missing when no row joins. *)
Definition fila_merge : Type := (fact_txc * option fila_to)%type.

(** [validate='1:1'] raises unless the keys are unique on both sides. *)
Definition merge_left (df_mes_ta : list fact_txc) (derecha : list fila_to)
  : result (list fila_merge) :=
  if unique_keys (map llave df_mes_ta)
     && unique_keys (map (fun r => llave (p1 r)) derecha)
  then Ok (map (fun a =>
             (a, find (fun r => String.eqb (llave (p1 r)) (llave a)) derecha))
             df_mes_ta)
  else Raise MergeError.

(** The merged column [TASA_EA] and the test [FECHA.isna()]. *)
Definition merge_TASA_EA (m : fila_merge) : option Q :=
  match snd m with
  | Some r => to_TASA_EA r
  | None => None
  end.

Definition isna {A : Type} (o : option A) : bool :=
  match o with
  | Some _ => false
  | None => true
  end.

Definition merge_FECHA (m : fila_merge) : option fecha :=
  option_map to_FECHA (snd m).

(** [missing], with [TASA_EA] recomputed from [tasa_interes_x]. *)
Definition missing (cruce : list fila_merge) : list fila_cruce :=
  map (fun m => mk_fila_cruce (fst m)
                  (Some (tasa_efectiva_anual (tasa_interes (fst m)))))
      (filter (fun m => isna (merge_TASA_EA m)) cruce).

(** [complete]: the rows whose [FECHA] is present. *)
Definition complete (cruce : list fila_merge) : list fila_cruce :=
  map (fun m => mk_fila_cruce (fst m) (merge_TASA_EA m))
      (filter (fun m => negb (isna (merge_FECHA m))) cruce).

(** [cruce_mes_left.TASA_EA.round(1)] *)
Definition round_TASA_EA (r : fila_cruce) : fila_cruce :=
  mk_fila_cruce (tx r) (option_map (fun v => py_round v 1) (TASA_EA r)).

(** *** The cast of the kind of transaction

    [df_complete.tipo_transaccion.astype('float')] calls Python's [float]
    on every cell, here on text in ASCII.  [float] strips white space and
    an optional sign and accepts

      digitpart   ::=  digit (["_"] digit)*
      number      ::=  [digitpart] "." digitpart | digitpart ["."]
      floatnumber ::=  number [("e" | "E") ["+" | "-"] digitpart]

    or one of [inf], [infinity], [nan] in any case. *)

Definition es_blanco (c : ascii) : bool :=
  let n := nat_of_ascii c in
  ((9 <=? n) && (n <=? 13) || (28 <=? n) && (n <=? 32))%nat.

Definition es_digito (c : ascii) : bool :=
  let n := nat_of_ascii c in
  ((48 <=? n) && (n <=? 57))%nat.

Definition minuscula (c : ascii) : ascii :=
  let n := nat_of_ascii c in
  if ((65 <=? n) && (n <=? 90))%nat then ascii_of_nat (n + 32) else c.

Fixpoint sin_blancos_izq (l : list ascii) : list ascii :=
  match l with
  | c :: t => if es_blanco c then sin_blancos_izq t else l
  | [] => []
  end.

(** [s.strip()] *)
Definition strip (l : list ascii) : list ascii :=
  rev (sin_blancos_izq (rev (sin_blancos_izq l))).

(** What follows the first digit of a [digitpart]: the text left after
    [(["_"] digit)*]. *)
Fixpoint mas_digitos (l : list ascii) : list ascii :=
  match l with
  | c :: t =>
      if es_digito c then mas_digitos t
      else if Ascii.eqb c "_"%char then
        match t with
        | d :: t' => if es_digito d then mas_digitos t' else l
        | [] => l
        end
      else l
  | [] => []
  end.

(** Each parser returns the text left after what it reads, [None] when it
    cannot read. *)
Definition digitpart (l : list ascii) : option (list ascii) :=
  match l with
  | c :: t => if es_digito c then Some (mas_digitos t) else None
  | [] => None
  end.

Definition sin_signo (l : list ascii) : list ascii :=
  match l with
  | c :: t => if Ascii.eqb c "+"%char || Ascii.eqb c "-"%char then t else l
  | [] => []
  end.

Definition number (l : list ascii) : option (list ascii) :=
  match digitpart l with
  | Some r =>
      match r with
      | c :: t =>
          if Ascii.eqb c "."%char then
            match digitpart t with
            | Some r' => Some r'
            | None => Some t
            end
          else Some r
      | [] => Some []
      end
  | None =>
      match l with
      | c :: t => if Ascii.eqb c "."%char then digitpart t else None
      | [] => None
      end
  end.

Definition floatnumber (l : list ascii) : option (list ascii) :=
  match number l with
  | Some (c :: t) =>
      if Ascii.eqb c "e"%char || Ascii.eqb c "E"%char
      then digitpart (sin_signo t)
      else Some (c :: t)
  | r => r
  end.

Definition es_inf_o_nan (l : list ascii) : bool :=
  let m := string_of_list_ascii (map minuscula l) in
  (String.eqb m "inf" || String.eqb m "infinity" || String.eqb m "nan")%string.

(** [float(s)] returns, instead of raising ValueError. *)
Definition es_float (s : string) : bool :=
  let l := sin_signo (strip (list_ascii_of_string s)) in
  match floatnumber l with
  | Some [] => true
  | _ => es_inf_o_nan l
  end.

(** [df_complete.tipo_transaccion = df_complete.tipo_transaccion
    .astype('float')]: ValueError when the kind of a row returned by the
    queries is not the text of a float.  The column is not used again: the
    frame returned takes the kind from the month's table. *)
Definition astype_float_tipo_transaccion (df_complete : list fila_to)
  : result unit :=
  if forallb (fun r => es_float (tipo_transaccion (p1 r))) df_complete
  then Ok tt
  else Raise ValueError.

(** The data frame returned by [tasas_originales], given the months
    scanned. *)
Definition cruzar (siet : list fact_txc) (maestro : list maestro_facturacion)
    (meses : list (Z * Z)) : result (list fila_cruce) :=
  df_mes_to <- df_complete siet maestro meses ;;
  _ <- astype_float_tipo_transaccion df_mes_to ;;
  let df_mes_to_sinDuplicados := drop_duplicates df_mes_to [] in
  cruce_mes_left <- merge_left siet df_mes_to_sinDuplicados ;;
  Ok (map round_TASA_EA (complete cruce_mes_left ++ missing cruce_mes_left)).

(** [tasas_originales(mes_base, num_mes, num_anio)]: [siet] is the table
    named [mes_base].  [None] only if the scan ran out of fuel, which
    [meses_escaneados_total] rules out. *)
Definition tasas_originales (siet : list fact_txc)
    (maestro : list maestro_facturacion) (num_mes num_anio : Z)
  : option (result (list fila_cruce)) :=
  option_map (cruzar siet maestro) (meses_escaneados num_mes num_anio).

(** *** Notions used to state the properties of the reconciliation *)

(** What is left of the scan: it goes down by one with every month. *)
Definition medida (anio_final : Z) (st : Z * Z) : Z :=
  (12 * (snd st - anio_final) + fst st)%Z.

(** [cruce_mes_left.TASA_EA.round(1)] leaves tenths. *)
Definition un_decimal (v : Q) : Prop :=
  py_round v 1 = v /\ exists k : Z, v == inject_Z k / 10.

(** The rows of the month joined with the scanned reference rows. *)
Definition cruce_mes_left (siet : list fact_txc) (df_mes_to : list fila_to)
  : list fila_merge :=
  map (fun a =>
         (a, find (fun r => String.eqb (llave (p1 r)) (llave a))
                  (drop_duplicates df_mes_to [])))
      siet.

(** The reference rows returned over the months scanned. *)
Definition escaneo (siet : list fact_txc) (maestro : list maestro_facturacion)
    (meses : list (Z * Z)) : list fila_to :=
  flat_map (fun st => sql_1 siet maestro (snd st) (fst st)) meses.

(** Every row of the month that satisfies the [ON] clause with a master row
    has a kind that is the text of a float, so that the cast of the kinds
    of the rows returned by the queries cannot raise. *)
Definition tipos_numericos (siet : list fact_txc)
    (maestro : list maestro_facturacion) : bool :=
  forallb (fun a => es_float (tipo_transaccion a)
                    || negb (existsb (on_clause a) maestro)) siet.

(** A merged row that has a [FECHA] but no [TASA_EA]: a reference row
    joined, and the master holds no rate for it. *)
Definition sin_tasa (m : fila_merge) : bool :=
  negb (isna (merge_FECHA m)) && isna (merge_TASA_EA m).

(** Sample rows: one purchase of the month and the master row it joins. *)
Definition tx_ejemplo (k : string) (tasa dif : Q) : fact_txc :=
  mk_fact_txc k "4000123" "20230105" "1" "AB" tasa 1000 dif 1000 "VISA"
              "2023-05-31".

Definition maestro_ejemplo (dif : Q) (tasa_ea : option Q)
  : maestro_facturacion :=
  mk_maestro (2023, 4, 1)%Z "4000123" 1000 dif "AB" "VISA" "20230105"
             "79000111" tasa_ea.

(** ** Usury sensitivity

    The four sensitivity steps compute on doubles: the usury rate and the
    cells of the frame are the doubles received, and every operation of
    the code is the operation on doubles. *)

(** A row of [df_mes]: balance, original rate and current rate. *)
Record fila_mes : Type := mk_fila_mes {
  saldo : Q;
  tasa_ea_original : option Q;
  interes_ea : Q
}.

(** [df[['saldo_actual_trasaccion','tasa_ea_original','interes_ea']]], with
    [interes_ea] derived from [tasa_interes]; the last operation of
    [.round(2)] is a division by 100 in double precision. *)
Definition df_mes_de (df : list fila_cruce) : list fila_mes :=
  map (fun r => mk_fila_mes (saldo_actual_trasaccion (tx r)) (TASA_EA r)
                  (doble (tasa_efectiva_anual (tasa_interes (tx r))))) df.

(** [periodo = df.periodo.unique()[0]] *)
Definition primer_periodo (df : list fila_cruce) : result string :=
  match df with
  | [] => Raise IndexError
  | r :: _ => Ok (periodo (tx r))
  end.

(** [df_mes[df_mes['tasa_ea_original'] > tasa_usura]]: a missing rate
    compares false.  The rows kept are (balance, original, current). *)
Definition df_exp_subida (tasa_usura : Q) (df_mes : list fila_mes)
  : list (Q * Q * Q) :=
  flat_map (fun r =>
    match tasa_ea_original r with
    | Some v => if Qgtb v tasa_usura then [(saldo r, v, interes_ea r)] else []
    | None => []
    end) df_mes.

(** The loop that fills [tasa_final]; on numbers the [elif] is the
    complement of the [if]. *)
Definition tasa_final (usura_final tasa_original : Q) : Q :=
  if Qle_bool tasa_original usura_final then tasa_original else usura_final.



Definition sobre_umbral (T : Q) (r : fila_mes) : bool :=
  match tasa_ea_original r with
  | Some v => Qgtb v T
  | None => false
  end.

Definition tasa_original_de (r : fila_mes) : Q :=
  match tasa_ea_original r with
  | Some v => v
  | None => 0
  end.

Section Sensibilidad.

(** [Series.sum()] of a column of doubles.  pandas adds the cells in double
    precision in an order of its own, so the steps are given for any
    function from the column to its sum. *)
Variable suma : list Q -> Q.

(** Exposed balance and impact when the usury rate rises to
    [usura_final]. *)
Definition subida_usura (tasa_usura usura_final : Q) (df_mes : list fila_mes)
  : Q * Q :=
  let df_exp := df_exp_subida tasa_usura df_mes in
  let impacto_variacion_Npbs :=
    map (fun '(s, orig, ea) =>
           fmul s (fdiv (fsub (tasa_final usura_final orig) ea) 100))
        df_exp in
  (suma (map (fun '(s, _, _) => s) df_exp), suma impacto_variacion_Npbs).

(** [df_mes[df_mes['interes_ea'] >= minimo].saldo_actual_trasaccion.sum()] *)
Definition saldo_exp_bajada (minimo : Q) (df_mes : list fila_mes) : Q :=
  suma (map saldo (filter (fun r => Qgeb (interes_ea r) minimo) df_mes)).



(** The three [if] blocks of [afectacion_historica_estimada] on
    [variacion_usura_mes]: the pairs (saldo_expuesto, impacto_pyg) they
    append. *)
Definition exposicion_historica (df_mes : list fila_mes)
    (tasa_usura_mes variacion_usura_mes : Q) : list (Q * Q) :=
  (if Qltb variacion_usura_mes 0 then
     let minimo := fsub tasa_usura_mes (Qabs variacion_usura_mes) in
     let saldo_exp_bajada_usura := saldo_exp_bajada minimo df_mes in
     let impacto_pyg_bajadaNpbs :=
       fmul (fmul saldo_exp_bajada_usura
                  (fdiv (Qabs variacion_usura_mes) 100))
            (-1 # 1) in
     [(np_round saldo_exp_bajada_usura 2,
       np_round impacto_pyg_bajadaNpbs 2)]
   else [])
  ++ (if Qgtb variacion_usura_mes 0 then
        let usura_final := fadd tasa_usura_mes (Qabs variacion_usura_mes) in
        let '(saldo_exp_subidaNpbs_usura, impacto_pyg_subidaNpbs_usura) :=
          subida_usura tasa_usura_mes usura_final df_mes in
        [(inject_Z (rint saldo_exp_subidaNpbs_usura),
          inject_Z (rint impacto_pyg_subidaNpbs_usura))]
      else [])
  ++ (if Qeq_bool variacion_usura_mes 0 then [(0, 0)] else []).




End Sensibilidad.


(** A sample reconciled row with balance [sal], original rate [orig] and
    nominal rate [tasa]. *)
Definition cruce_ejemplo (sal : Q) (orig : option Q) (tasa : Q) : fila_cruce :=
  mk_fila_cruce
    (mk_fact_txc "0" "4000123" "20230105" "1" "AB" tasa 1000 3 sal "VISA"
                 "2023-05-31") orig.

(** ** Balance by rate band: [saldo_to_mes] *)

(** An edge of a bin: [np.NINF], a number, or [np.inf]. *)
Inductive borde : Type :=
| NINF
| Fin (q : Q)
| INF.

Definition ranges : list borde :=
  [NINF; Fin 0; Fin 1; Fin 11; Fin 21; Fin 24; Fin 26; Fin (265 # 10);
   Fin 27; Fin (275 # 10); Fin 28; Fin 29; Fin 30; INF].

Definition grupo_tasas : list string :=
  ["a. 0%"; "b. 0.1% - 0.9%"; "c. 1% - 10.9%"; "d. 11% - 20.9%";
   "e. 21% - 23.9%"; "f. 24% - 25.9%"; "g. 26% - 26.4%";
   "h. 26.5% - 26.9%"; "i. 27% - 27.4%"; "j. 27.5% - 27.9%";
   "k. 28% - 28.9%"; "l. 29% - 29.9%"; "m. >30%"]%string.

(** [b < x] and [x <= b] for an edge [b]. *)
Definition borde_ltb (b : borde) (x : Q) : bool :=
  match b with
  | NINF => true
  | Fin q => Qltb q x
  | INF => false
  end.

Definition borde_geb (b : borde) (x : Q) : bool :=
  match b with
  | NINF => false
  | Fin q => Qle_bool x q
  | INF => true
  end.

(** The index of the bin [(lo, hi]] that holds [x]. *)
Fixpoint cut_idx (bins : list borde) (x : Q) (i : nat) : option nat :=
  match bins with
  | lo :: (hi :: _) as rest =>
      if borde_ltb lo x && borde_geb hi x then Some i
      else cut_idx rest x (S i)
  | _ => None
  end.

(** [pd.cut(x, bins=ranges, labels=grupo_tasas)] for one value. *)
Definition pd_cut (x : Q) : option string :=
  match cut_idx ranges x 0 with
  | Some i => nth_error grupo_tasas i
  | None => None
  end.

(** [groupby(by=[key]).agg({'saldo_actual_trasaccion':'sum'})] on rows
    (key, balance): one row per key, keys in increasing order. *)
Fixpoint agregar (k v : Q) (g : list (Q * Q)) : list (Q * Q) :=
  match g with
  | [] => [(k, v)]
  | (k', v') :: t =>
      match Qcompare k k' with
      | Eq => (k', v' + v) :: t
      | Lt => (k, v) :: g
      | Gt => (k', v') :: agregar k v t
      end
  end.

Definition groupby_sum (filas : list (Q * Q)) : list (Q * Q) :=
  fold_left (fun g kv => agregar (fst kv) (snd kv) g) filas [].

(** [sort_values(by='saldo_actual_trasaccion', ascending=False)]; rows of
    equal balance keep their order. *)
Fixpoint insertar_desc (x : Q * Q) (l : list (Q * Q)) : list (Q * Q) :=
  match l with
  | [] => [x]
  | y :: t =>
      if Qle_bool (snd y) (snd x) then x :: l else y :: insertar_desc x t
  end.

Definition sort_desc (l : list (Q * Q)) : list (Q * Q) :=
  fold_right insertar_desc [] l.

(** A row of [saldo_sinRango] and, with [rango_tasa], of
    [saldo_conRango]. *)
Record fila_saldo : Type := mk_fila_saldo {
  interes : Q;
  sr_saldo : Q;
  mes : string;
  tipo_tasa : string;
  rango_tasa : option string
}.

(** The un-banded frame of one rate type. *)
Definition saldo_sr (tipo per : string) (filas : list (Q * Q))
  : list fila_saldo :=
  map (fun kv => mk_fila_saldo (py_round (fst kv) 2) (snd kv) per tipo None)
      (sort_desc (groupby_sum filas)).

Definition con_rango (f : fila_saldo) : fila_saldo :=
  mk_fila_saldo (interes f) (sr_saldo f) (mes f) (tipo_tasa f)
                (pd_cut (interes f)).

Definition rango_eqb (o : option string) (b : string) : bool :=
  match o with
  | Some l => String.eqb l b
  | None => false
  end.

(** The balance of the rows labelled with band [b]. *)
Definition saldo_banda (b : string) (filas : list fila_saldo) : Q :=
  Qsum (map sr_saldo (filter (fun f => rango_eqb (rango_tasa f) b) filas)).

(** [groupby(by=['rango_tasa_original']).agg(sum)], one row per band, in
    the order of the bands. *)
Definition saldo_cr (filas : list fila_saldo) : list (string * Q) :=
  map (fun b => (b, saldo_banda b filas)) grupo_tasas.

(** The rows (original rate, balance) and (current rate, balance); a row
    without original rate falls out of the grouping. *)
Definition filas_to (df : list fila_cruce) : list (Q * Q) :=
  flat_map (fun r =>
    match TASA_EA r with
    | Some v => [(v, saldo_actual_trasaccion (tx r))]
    | None => []
    end) df.

Definition filas_ta (df : list fila_cruce) : list (Q * Q) :=
  map (fun r => (tasa_efectiva_anual (tasa_interes (tx r)),
                 saldo_actual_trasaccion (tx r))) df.

(** [saldo_to_mes(df_mes_input)]: the frame returned ([saldo_sinRango]),
    the band totals of the original rate ([saldo_cr]) and the frame written
    to [df_saldo_anual_cr] ([saldo_conRango]). *)
Definition saldo_to_mes (df_mes_input : list fila_cruce)
  : result (list fila_saldo * list (string * Q) * list fila_saldo) :=
  per <- primer_periodo df_mes_input ;;
  let saldo_sr_to := saldo_sr "Tasa original" per (filas_to df_mes_input) in
  let saldo_sr_ta := saldo_sr "Tasa actual" per (filas_ta df_mes_input) in
  let saldo_sinRango := saldo_sr_ta ++ saldo_sr_to in
  let saldo_conRango :=
    map con_rango saldo_sr_ta ++ map con_rango saldo_sr_to in
  Ok (saldo_sinRango, saldo_cr (map con_rango saldo_sr_to), saldo_conRango).

Definition de_tipo (tipo : string) (filas : list fila_saldo)
  : list fila_saldo :=
  filter (fun f => String.eqb (tipo_tasa f) tipo) filas.

(** A row of the table written by [afectacion_historica_estimada]; the
    text of [tipo_variacion] is left out. *)
Record fila_historica : Type := mk_fila_historica {
  h_periodo : string;
  saldo_capital : Q;
  tasa_usura : Q;
  variacion_usura : Q;
  h_saldo_expuesto : Q;
  h_impacto_pyg : Q
}.

(** [afectacion_historica_estimada(df_to_input, df_saldo_anual_sr_input,
    usura_mes_actualizacion, usura_mes_siguiente_actualizacion)], with
    [suma] the sum of a column. *)
Definition afectacion_historica_estimada (suma : list Q -> Q)
    (df_to_input : list fila_cruce)
    (df_saldo_anual_sr_input : list fila_saldo)
    (usura_mes_actualizacion usura_mes_siguiente_actualizacion : Q)
  : result (list fila_historica) :=
  let df_mes := de_tipo "Tasa actual" df_saldo_anual_sr_input in
  let saldo_k := suma (map sr_saldo df_mes) in
  mes_0 <- match df_mes with
           | [] => Raise IndexError
           | f :: _ => Ok (mes f)
           end ;;
  _ <- primer_periodo df_to_input ;;
  let variacion :=
    fsub usura_mes_siguiente_actualizacion usura_mes_actualizacion in
  Ok (map (fun ei =>
             mk_fila_historica mes_0 saldo_k usura_mes_actualizacion
               (np_round variacion 2) (fst ei) (snd ei))
          (exposicion_historica suma (df_mes_de df_to_input)
             usura_mes_actualizacion variacion)).

(** The balance of a frame summed band by band. *)
Definition saldo_por_bandas (filas : list fila_saldo) : Q :=
  Qsum (map (fun b => saldo_banda b filas) grupo_tasas).

(** ** Balance composition: the check of the columns *)

(** The columns of [df_composicion_saldo] as it is built. *)
Definition columnas_composicion : list string :=
  ["periodo"; "saldo_total"; "saldo_capital"; "saldo_intereses";
   "saldo_mora"; "saldo_otros"]%string.

(** [df.name]: the column of that name. *)
Definition getattr_columna (columns : list string) (name : string)
  : result unit :=
  if existsb (String.eqb name) columns then Ok tt else Raise AttributeError.

(** [df.set_index(key)]: the columns left. *)
Definition set_index (columns : list string) (key : string)
  : result (list string) :=
  if existsb (String.eqb key) columns
  then Ok (filter (fun c => negb (String.eqb c key)) columns)
  else Raise KeyError.

(** [[a[i]==b[i] for i in range(len(a))]] *)
Fixpoint columnas_iguales (a b : list string) (i : nat)
  : result (list bool) :=
  match a with
  | [] => Ok []
  | x :: a' =>
      match nth_error b i with
      | Some y =>
          rest <- columnas_iguales a' b (S i) ;;
          Ok (String.eqb x y :: rest)
      | None => Raise IndexError
      end
  end.

(** [assert not all([...]), "Column names don't correspond with historical
    data"] *)
Definition validar_columnas (a b : list string) : result unit :=
  iguales <- columnas_iguales a b 0 ;;
  if negb (forallb (fun x => x) iguales) then Ok tt
  else Raise AssertionError.

(** [balance_composition] from the point where [df_composicion_saldo] is
    built; [historico] holds the columns returned by
    [query_comp_balance]. *)
Definition balance_composition (historico : list string) : result unit :=
  _ <- getattr_columna columnas_composicion "Periodo" ;;
  df_composicion_saldo <- set_index columnas_composicion "periodo" ;;
  df <- set_index historico "periodo" ;;
  validar_columnas df_composicion_saldo df.

(** ** Reference dates: [utils.ReferenceDate] *)

Definition es_bisiesto (y : Z) : bool :=
  ((y mod 4 =? 0) && (negb (y mod 100 =? 0) || (y mod 400 =? 0)))%Z.

(** [calendar.monthrange(y, m)[1]] *)
Definition dias_del_mes (y m : Z) : Z :=
  if (m =? 2)%Z then (if es_bisiesto y then 29 else 28)%Z
  else if ((m =? 4) || (m =? 6) || (m =? 9) || (m =? 11))%Z then 30%Z
  else 31%Z.

Definition fecha_valida (f : fecha) : Prop :=
  let '(y, m, d) := f in
  (1 <= m <= 12 /\ 1 <= d <= dias_del_mes y m)%Z.

Definition dia_anterior (f : fecha) : fecha :=
  let '(y, m, d) := f in
  if (1 <? d)%Z then (y, m, d - 1)%Z
  else if (1 <? m)%Z then (y, m - 1, dias_del_mes y (m - 1))%Z
  else (y - 1, 12, 31)%Z.

Definition dia_siguiente (f : fecha) : fecha :=
  let '(y, m, d) := f in
  if (d <? dias_del_mes y m)%Z then (y, m, d + 1)%Z
  else if (m <? 12)%Z then (y, m + 1, 1)%Z
  else (y + 1, 1, 1)%Z.

(** [dt + timedelta(days=n)] *)
Definition sumar_dias (f : fecha) (n : Z) : fecha :=
  if (0 <=? n)%Z then Nat.iter (Z.to_nat n) dia_siguiente f
  else Nat.iter (Z.to_nat (- n)) dia_anterior f.

(** [dt + relativedelta(months=months, days=days)], for [months] between
    -12 and 12: the month moves first, the day is cut to the length of the
    new month, then the days are added. *)
Definition sumar_relativedelta (f : fecha) (months days : Z) : fecha :=
  let '(y, m, d) := f in
  let month := (m + months)%Z in
  let '(year, month) :=
    if (12 <? month)%Z then (y + 1, month - 12)%Z
    else if (month <? 1)%Z then (y - 1, month + 12)%Z
    else (y, month) in
  let day := Z.min (dias_del_mes year month) d in
  sumar_dias (year, month, day) days.

Definition dia_de (f : fecha) : Z := snd f.

(** [ReferenceDate.__init__]: the first day of the month given as
    ['%Y-%m'], or today's date. *)
Definition ReferenceDate (ref_date : option (Z * Z)) (today : fecha) : fecha :=
  match ref_date with
  | None => today
  | Some (y, m) => (y, m, 1%Z)
  end.

Definition last_date (ref_date : fecha) : fecha :=
  sumar_relativedelta (sumar_relativedelta ref_date 1 0) 0
                      (- dia_de ref_date).

Definition first_date (ref_date : fecha) : fecha :=
  sumar_relativedelta ref_date 0 (- (dia_de ref_date - 1)).

Definition prev_last_date (ref_date : fecha) : fecha :=
  sumar_relativedelta ref_date 0 (- dia_de ref_date).

Definition prev_first_date (ref_date : fecha) : fecha :=
  sumar_relativedelta
    (sumar_relativedelta ref_date 0 (- (dia_de ref_date - 1))) (-1) 0.

Section GetFormatDate.

(** [datetime.strftime] *)
Variable strftime : fecha -> string -> string.

Definition get_format_date (ref_date : fecha) (int_date format : string)
  : result string :=
  if String.eqb int_date "first_date" then
    Ok (strftime (first_date ref_date) format)
  else if String.eqb int_date "last_date" then
    Ok (strftime (last_date ref_date) format)
  else if String.eqb int_date "prev_first_date" then
    Ok (strftime (prev_first_date ref_date) format)
  else if String.eqb int_date "prev_last_date" then
    Ok (strftime (prev_last_date ref_date) format)
  else Raise InvalidDate.

End GetFormatDate.

(** The last day of the month of [f] and the first and last day of the
    month before. *)
Definition ultimo_dia (f : fecha) : fecha :=
  let '(y, m, _) := f in (y, m, dias_del_mes y m).

Definition primer_dia (f : fecha) : fecha :=
  let '(y, m, _) := f in (y, m, 1%Z).

Definition mes_anterior (f : fecha) : fecha :=
  let '(y, m, d) := f in
  if (1 <? m)%Z then (y, m - 1, d)%Z else (y - 1, 12, d)%Z.

Definition mes_siguiente (f : fecha) : fecha :=
  let '(y, m, d) := f in
  if (m <? 12)%Z then (y, m + 1, d)%Z else (y + 1, 1, d)%Z.

(** ** The rate conversions over the reals *)

(** [round] on a real: half to even. *)
Definition Rround_half_even (x : R) : Z :=
  let f := Zfloor x in
  if Rlt_dec (x - IZR f) (1 / 2) then f
  else if Rlt_dec (1 / 2) (x - IZR f) then (f + 1)%Z
  else if Z.even f then f else (f + 1)%Z.

Definition Rpy_round (x : R) (ndigits : nat) : R :=
  (IZR (Rround_half_even (x * 10 ^ ndigits)) / 10 ^ ndigits)%R.

(** [x ** y] on floats for an exponent [y > 0] that is not a whole number:
    a negative base gives a complex number, which [round] refuses with
    [TypeError]. *)
Definition py_pow (x y : R) : result R :=
  if Rlt_dec x 0 then Raise TypeError
  else if Req_dec_T x 0 then Ok 0%R
  else Ok (Rpower x y).

(** [lambda x: round((((((x/100)+1)**12)-1)*100),2)] *)
Definition tasa_ea (x : R) : R :=
  Rpy_round ((((x / 100) + 1) ^ 12 - 1) * 100) 2.

(** [lambda x: round((((1+x)**(30/360))-1)*100,2)] *)
Definition tasa_mv (x : R) : result R :=
  p <- py_pow (1 + x) (30 / 360) ;;
  Ok (Rpy_round ((p - 1) * 100) 2).

(** [afectacion_ingresos_conTasaMv]: the column [tasa_ea_original] is
    divided by 100 and then mapped with [tasa_mv]. *)
Definition tasa_original_mv (tasa_ea_original : R) : result R :=
  tasa_mv (tasa_ea_original / 100).

(** The contract of the specification. *)
Definition to_effective_annual (r : R) : R :=
  Rpy_round ((((1 + r / 100) ^ 12) - 1) * 100) 2.

Definition to_monthly_value_rate (r : R) : R :=
  Rpy_round (((Rpower (1 + r / 100) (30 / 360)) - 1) * 100) 2.

(** The derivations of the current rate in the pipeline, over [Q]. *)

(** [segmentacion_saldo], [saldo_to_mes], [afectacion_100pbs],
    [afectacion_historica_estimada], [estimacion_sensibilidad] and
    [saldo_usura]: [(((((df['tasa_interes']/100)+1)**12)-1)*100).round(2)] *)
Definition interes_ea_columna (tasa_interes_col : list Q) : list Q :=
  map (fun x => py_round (((((x / 100) + 1) ^ 12) - 1) * 100) 2)
      tasa_interes_col.

(** [tasas_usura_implicita_facial]: the same column, rounded once more. *)
Definition interes_ea_facial (tasa_interes_col : list Q) : list Q :=
  map (fun v => py_round v 2) (interes_ea_columna tasa_interes_col).

(** The contract of the specification over [Q]. *)
Definition to_effective_annual_Q (r : Q) : Q :=
  py_round ((((1 + r / 100) ^ 12) - 1) * 100) 2.

(** ** Utilities: [utils.find_pattern] and [utils.reduce_memory_usage] *)

(** [pattern in s] on strings. *)
Fixpoint contiene (pattern s : string) {struct s} : bool :=
  if prefix pattern s then true
  else match s with
       | EmptyString => false
       | String _ s' => contiene pattern s'
       end.

(** [find_pattern(pattern, input_list)]; [None] is Python's [None]. *)
Definition find_pattern (pattern : string) (input_list : list string)
  : option string :=
  find (contiene pattern) input_list.

(** The dtypes [reduce_memory_usage] tells apart; [object] stands for every
    dtype that is not in [numerics]. *)
Inductive dtype : Type :=
| int8 | int16 | int32 | int64
| float16 | float32 | float64
| object.

Definition numerics : list dtype :=
  [int8; int16; int32; int64; float16; float32; float64].

Definition dtype_eqb (a b : dtype) : bool :=
  match a, b with
  | int8, int8 | int16, int16 | int32, int32 | int64, int64
  | float16, float16 | float32, float32 | float64, float64
  | object, object => true
  | _, _ => false
  end.

(** [str(col_type)[:3] == "int"] *)
Definition es_int (t : dtype) : bool :=
  match t with
  | int8 | int16 | int32 | int64 => true
  | _ => false
  end.

(** [np.iinfo(t).min, np.iinfo(t).max] and [np.finfo(t).min,
    np.finfo(t).max]. *)
Definition info (t : dtype) : option (Q * Q) :=
  match t with
  | int8 => Some (inject_Z (- 2 ^ 7), inject_Z (2 ^ 7 - 1))
  | int16 => Some (inject_Z (- 2 ^ 15), inject_Z (2 ^ 15 - 1))
  | int32 => Some (inject_Z (- 2 ^ 31), inject_Z (2 ^ 31 - 1))
  | int64 => Some (inject_Z (- 2 ^ 63), inject_Z (2 ^ 63 - 1))
  | float16 => Some (inject_Z (- 65504), inject_Z 65504)
  | float32 => Some (inject_Z (- ((2 ^ 24 - 1) * 2 ^ 104)),
                     inject_Z ((2 ^ 24 - 1) * 2 ^ 104))
  | float64 => Some (inject_Z (- ((2 ^ 53 - 1) * 2 ^ 971)),
                     inject_Z ((2 ^ 53 - 1) * 2 ^ 971))
  | object => None
  end.

(** A column: its dtype and its values that are not NaN. *)
Record columna : Type := mk_columna {
  col_dtype : dtype;
  col_valores : list Q
}.

(** [df[col].min()] and [df[col].max()]: NaN, here [None], for a column
    with no value. *)
Fixpoint col_min (l : list Q) : option Q :=
  match l with
  | [] => None
  | v :: t =>
      match col_min t with
      | Some m => Some (if Qle_bool v m then v else m)
      | None => Some v
      end
  end.

Fixpoint col_max (l : list Q) : option Q :=
  match l with
  | [] => None
  | v :: t =>
      match col_max t with
      | Some m => Some (if Qle_bool m v then v else m)
      | None => Some v
      end
  end.

(** [c_min > np.iinfo(t).min and c_max < np.iinfo(t).max]; a comparison
    with NaN is false. *)
Definition dentro_estricto (c_min c_max : option Q) (t : dtype) : bool :=
  match info t, c_min, c_max with
  | Some (lo, hi), Some a, Some b => Qltb lo a && Qltb b hi
  | _, _, _ => false
  end.

(** The dtype [reduce_memory_usage] gives to a column. *)
Definition astype_reducido (c : columna) : dtype :=
  let col_type := col_dtype c in
  if existsb (dtype_eqb col_type) numerics then
    let c_min := col_min (col_valores c) in
    let c_max := col_max (col_valores c) in
    if es_int col_type then
      if dentro_estricto c_min c_max int8 then int8
      else if dentro_estricto c_min c_max int16 then int16
      else if dentro_estricto c_min c_max int32 then int32
      else if dentro_estricto c_min c_max int64 then int64
      else col_type
    else
      if dentro_estricto c_min c_max float16 then float16
      else if dentro_estricto c_min c_max float32 then float32
      else float64
  else col_type.

(** [reduce_memory_usage(df)]: the dtypes of the columns of the frame it
    returns.  [astype] rounds the values of a float column to the precision
    of its new dtype; the rounded values are not computed here. *)
Definition reduce_memory_usage (df : list columna) : list dtype :=
  map astype_reducido df.




(** *** Notions used to state the properties of the scan of months *)

(** A month [(numero_mes, numero_anio)] moved by [k] years. *)
Definition desplazar (k : Z) (st : Z * Z) : Z * Z :=
  (fst st, (snd st + k)%Z).

Definition mes_eqb (a b : Z * Z) : bool :=
  ((fst a =? fst b) && (snd a =? snd b))%Z.

Fixpoint sin_repetidos (l : list (Z * Z)) : bool :=
  match l with
  | [] => true
  | a :: t => negb (existsb (mes_eqb a) t) && sin_repetidos t
  end.

(** The months of the years -10 to 0. *)
Definition meses_de_diez_anios : list (Z * Z) :=
  list_prod (map Z.of_nat (seq 1 12))
            (map (fun i => (Z.of_nat i - 10)%Z) (seq 0 11)).

(** What the months scanned from month [n] of year 0 must satisfy: no month
    twice, month [n] of year 0 first, only months of the years -11 to 0,
    every month from January of year -10 to month [n] of year 0, and the
    number of months. *)
Definition ventana_correcta (n : Z) (l : list (Z * Z)) : bool :=
  sin_repetidos l
  && match l with
     | a :: _ => mes_eqb a (n, 0%Z)
     | [] => false
     end
  && forallb (fun a => (1 <=? fst a) && (fst a <=? 12)
                       && (-11 <=? snd a) && (snd a <=? 0))%Z l
  && forallb (fun a => if ((snd a <? 0) || (fst a <=? n))%Z
                       then existsb (mes_eqb a) l else true)
             meses_de_diez_anios
  && (Z.of_nat (List.length l) =? n * (1 + (120 + n - 1) / n))%Z.

(** *** Notions used to state further properties of the bands and the
    sensitivity *)

(** A column in decreasing order. *)
Fixpoint descendente (l : list Q) : Prop :=
  match l with
  | [] => True
  | x :: t => Forall (fun y => y <= x) t /\ descendente t
  end.

(** ** Pre-processing of the month's file: [procesar]

    The step is taken from the frame [df] read from the file.  The cells of
    [tipo_transaccion] are modelled by their text, for a column with no
    missing cell.  The six tests on the last row slice columns 10 to 19 of a
    frame that has ten columns: the slices are empty, an empty array is
    false under the NumPy 1 the module needs for [np.NINF], and the tests
    change nothing. *)

(** A row of [df]: the ten columns of [usecols]. *)
Record fila_archivo : Type := mk_fila_archivo {
  a_nro_producto : string;
  a_fecha_transaccion : string;
  a_tipo_transaccion : string;
  a_cod_transaccion : string;
  a_tasa_interes_1 : Q;
  a_valor_transaccion : Q;
  a_nro_cargos_diferidos : Q;
  a_saldo_actual_trasaccion : Q;
  a_tipo_producto : string;
  a_periodo : string
}.

(** [s.isin(values)] for one cell. *)
Definition isin (v : string) (values : list string) : bool :=
  existsb (String.eqb v) values.

(** [str(i)] for an index [i]. *)
Definition str_int (i : nat) : string :=
  NilEmpty.string_of_uint (Nat.to_uint i).

(** [df_2[df_2['tipo_transaccion'].isin([1,2,'1','2','C','V'])]], each row
    with its index in [df]. *)
Definition df_3 (df : list fila_archivo) : list (nat * fila_archivo) :=
  filter (fun ir => isin (a_tipo_transaccion (snd ir)) ["1"; "2"; "C"; "V"]%string)
         (combine (seq 0 (List.length df)) df).

Section Procesar.

(** [pd.to_datetime(_, format='%Y%m%d')] on one cell, [None] when the cell
    is not a date, and [Timestamp.strftime]. *)
Variable to_datetime : string -> option fecha.
Variable strftime : fecha -> string -> string.

(** [pd.to_datetime(df_3.periodo, format='%Y%m%d')]: ValueError when a
    cell is not a date. *)
Fixpoint to_datetime_columna (l : list string) : result (list fecha) :=
  match l with
  | [] => Ok []
  | c :: t =>
      match to_datetime c with
      | Some f => fechas <- to_datetime_columna t ;; Ok (f :: fechas)
      | None => Raise ValueError
      end
  end.

(** [procesar(archivo, nombre_mes)]: the table written as [nombre_mes].
    The key is the index of the row in [df]; every row gets the period of
    the first row kept. *)
Definition procesar (df : list fila_archivo) : result (list fact_txc) :=
  let filas := df_3 df in
  fechas <- to_datetime_columna (map (fun ir => a_periodo (snd ir)) filas) ;;
  match fechas with
  | [] => Raise IndexError
  | f :: _ =>
      let periodo_1 := strftime f "%Y-%m-%d"%string in
      Ok (map (fun ir =>
                 let a := snd ir in
                 mk_fact_txc (str_int (fst ir)) (a_nro_producto a)
                   (a_fecha_transaccion a) (a_tipo_transaccion a)
                   (a_cod_transaccion a) (a_tasa_interes_1 a)
                   (a_valor_transaccion a) (a_nro_cargos_diferidos a)
                   (a_saldo_actual_trasaccion a) (a_tipo_producto a)
                   periodo_1)
              filas)
  end.

End Procesar.

(** ** Balance by kind of transaction: [segmentacion_saldo] *)

Definition codigos_compra_cartera : list string :=
  ["0I"; "1C"; "1D"; "4I"; "6H"; "6I"; "6K"; "6L"; "6V"; "7A"; "7B"; "9Q";
   "9S"; "A0"; "AW"; "BW"; "D0"; "DU"; "E8"; "EB"; "F7"; "F8"; "H7"; "H8";
   "HK"; "HL"; "I7"; "I8"; "SE"]%string.

(** [df.saldo_actual_trasaccion.sum()] *)
Definition saldo_de (df : list fila_cruce) : Q :=
  Qsum (map (fun r => saldo_actual_trasaccion (tx r)) df).

(** The row of [df_saldo_anual]; the cast of the balances to text is left
    out. *)
Record fila_segmentado : Type := mk_fila_segmentado {
  seg_Periodo : string;
  Saldo_Compra_de_Cartera : Q;
  Saldo_Totaleros : Q;
  Saldo_Compras : Q;
  Saldo_Avances : Q
}.

Definition es_compra_cartera (r : fila_cruce) : bool :=
  isin (cod_transaccion (tx r)) codigos_compra_cartera.

(** [nro_cargos_diferidos.isin([1])] *)
Definition es_totalero (r : fila_cruce) : bool :=
  Qeq_bool (nro_cargos_diferidos (tx r)) 1.

(** [tipo_transaccion.isin([1,'1','C'])] and [.isin([2,'2','V'])] on a
    column of text. *)
Definition es_compra (r : fila_cruce) : bool :=
  isin (tipo_transaccion (tx r)) ["1"; "C"]%string.

Definition es_avance (r : fila_cruce) : bool :=
  isin (tipo_transaccion (tx r)) ["2"; "V"]%string.

(** [segmentacion_saldo(df)] *)
Definition segmentacion_saldo (df : list fila_cruce)
  : result fila_segmentado :=
  let df_mes_input := df in
  let compraCartera := filter es_compra_cartera df_mes_input in
  let saldo_compraCartera := saldo_de compraCartera in
  let df_mes_1 := filter (fun r => negb (es_compra_cartera r)) df_mes_input in
  let totaleros := filter es_totalero df_mes_1 in
  let saldo_totaleros := saldo_de totaleros in
  let df_mes_2 := filter (fun r => negb (es_totalero r)) df_mes_1 in
  let compras_mes := filter es_compra df_mes_2 in
  let saldo_compras := saldo_de compras_mes in
  let avances_mes := filter es_avance df_mes_2 in
  let saldo_avances := saldo_de avances_mes in
  nombre_periodo <- primer_periodo df_mes_input ;;
  Ok (mk_fila_segmentado nombre_periodo saldo_compraCartera saldo_totaleros
        saldo_compras saldo_avances).

(** The rows that fall in none of the four kinds. *)
Definition sin_segmento (r : fila_cruce) : bool :=
  negb (es_compra_cartera r) && negb (es_totalero r)
  && negb (es_compra r) && negb (es_avance r).


(** ** The face rate and the variation of the rates:
    [tasas_usura_implicita_facial] *)

(** A row of [SieT..tasas_usura_implicita_facial].  The usury and implicit
    rates are numbers; the face rate is [None] when the step computed NaN
    or an infinite value for it. *)
Record fila_tasas : Type := mk_fila_tasas {
  t_periodo : string;
  t_tasa_usura : Q;
  t_tasa_implicita : Q;
  t_tasa_facial : option Q
}.

(** [tasa_facial_mes]: the rates of the month weighted by balance.  With a
    total balance of 0 the factors are NaN or infinite, and so is the
    rate. *)
Definition tasa_facial_mes (df_mes : list fila_cruce) : option Q :=
  let df_mes_tasas :=
    interes_ea_facial (map (fun r => tasa_interes (tx r)) df_mes) in
  let df_mes_saldoTotal := saldo_de df_mes in
  if Qeq_bool df_mes_saldoTotal 0 then None
  else
    let factor_pond :=
      map (fun r => saldo_actual_trasaccion (tx r) / df_mes_saldoTotal)
          df_mes in
    let prom_pond :=
      map (fun fp => fst fp * snd fp) (combine factor_pond df_mes_tasas) in
    Some (py_round (Qsum prom_pond) 2).

(** The outcome of a step that can divide Python floats by zero. *)
Inductive salida (A : Type) : Type :=
| Devuelve (a : A)
| Lanza (e : exn)
| ZeroDivisionError.
Arguments Devuelve {A} a.
Arguments Lanza {A} e.
Arguments ZeroDivisionError {A}.

Definition salida_bind {A B : Type} (r : salida A) (k : A -> salida B)
  : salida B :=
  match r with
  | Devuelve a => k a
  | Lanza e => Lanza e
  | ZeroDivisionError => ZeroDivisionError
  end.

(** [round(((actual - anterior) / anterior), 5)] on Python floats: a zero
    [anterior] raises, a NaN gives NaN. *)
Definition variacion (anterior actual : option Q) : salida (option Q) :=
  match anterior with
  | Some a =>
      if Qeq_bool a 0 then ZeroDivisionError
      else Devuelve (option_map (fun b => py_round ((b - a) / a) 5) actual)
  | None => Devuelve None
  end.

(** [df_tasas.iloc[-1:]] *)
Fixpoint ultima {A : Type} (l : list A) : option A :=
  match l with
  | [] => None
  | [x] => Some x
  | _ :: t => ultima t
  end.

(** The row written to [tasas_usura_implicita_facial]. *)
Record fila_tasas_var : Type := mk_fila_tasas_var {
  v_tasas : fila_tasas;
  Var_tasa_usura : option Q;
  Var_tasa_implicita : option Q;
  Var_tasa_facial : option Q;
  Objetivos_tasa_usura : option Q;
  Objetivos_tasa_implicita : option Q;
  Objetivos_tasa_facial : option Q
}.

(** [tasas_usura_implicita_facial(df_mes_input_facial, usura, implicita)];
    [tabla] holds the rows of [SieT..tasas_usura_implicita_facial] the step
    reads. *)
Definition tasas_usura_implicita_facial
    (df_mes_input_facial : list fila_cruce) (usura implicita : Q)
    (tabla : list fila_tasas) : salida fila_tasas_var :=
  match primer_periodo df_mes_input_facial with
  | Raise e => Lanza e
  | Ok periodo_mes =>
      let tasa_facial :=
        mk_fila_tasas periodo_mes usura implicita
                      (tasa_facial_mes df_mes_input_facial) in
      match ultima tabla with
      | None =>
          Devuelve (mk_fila_tasas_var tasa_facial (Some 0) (Some 0) (Some 0)
                      (Some 0) (Some 0) (Some 0))
      | Some df_tasas =>
          salida_bind (variacion (Some (t_tasa_usura df_tasas)) (Some usura))
            (fun var_usura =>
          salida_bind (variacion (Some (t_tasa_implicita df_tasas))
                                 (Some implicita))
            (fun var_implicita =>
          salida_bind (variacion (t_tasa_facial df_tasas)
                                 (t_tasa_facial tasa_facial))
            (fun var_facial =>
          Devuelve (mk_fila_tasas_var tasa_facial var_usura var_implicita
                      var_facial (Some (t_tasa_usura df_tasas))
                      (Some (t_tasa_implicita df_tasas))
                      (t_tasa_facial df_tasas)))))
      end
  end.

(** A rate stored as 0. *)
Definition es_cero (o : option Q) : bool :=
  match o with
  | Some a => Qeq_bool a 0
  | None => false
  end.

(** ** Income at the monthly rate: [afectacion_ingresos_conTasaMv]

    The step takes a twelfth root and is embedded over the reals, as the
    conversion it uses. *)

(** The columns of [df_input] the step reads. *)
Record fila_ingresos : Type := mk_fila_ingresos {
  i_saldo_actual_trasaccion : R;
  i_tasa_interes : R;
  i_TASA_EA : option R;
  i_periodo : string
}.

Definition Rsum (l : list R) : R := fold_right Rplus 0%R l.

(** [df_mes_cnst['tasa_ea_original'].apply(lambda x: ...)] after the
    division by 100: a missing rate stays missing. *)
Fixpoint tasa_original_mv_columna (df : list fila_ingresos)
  : result (list (option R)) :=
  match df with
  | [] => Ok []
  | r :: t =>
      m <- match i_TASA_EA r with
           | Some ea => m <- tasa_original_mv ea ;; Ok (Some m)
           | None => Ok None
           end ;;
      resto <- tasa_original_mv_columna t ;;
      Ok (m :: resto)
  end.

(** [(tasa_original_mv / 100 * saldo_actual_trasaccion).sum()]: the sum
    skips the rows without rate. *)
Definition impacto_cnst (df : list fila_ingresos) (mv : list (option R)) : R :=
  Rsum (map (fun rm =>
               match snd rm with
               | Some m => (m / 100 * i_saldo_actual_trasaccion (fst rm))%R
               | None => 0%R
               end) (combine df mv)).

(** [(tasa_interes / 100 * saldo_actual_trasaccion).sum()] *)
Definition impacto_var (df : list fila_ingresos) : R :=
  Rsum (map (fun r => (i_tasa_interes r / 100
                       * i_saldo_actual_trasaccion r)%R) df).

(** [afectacion_ingresos_conTasaMv(df_input, usura_input_corte,
    usura_input_mes_nuevo)]: the rows of [ingresos_estimados_porTasa]
    (periodo, impacto_pyg, Impacto) and the row of [diferencia_impacto]
    (Impacto en Ingresos, periodo, tasa_usura_mv). *)
Definition afectacion_ingresos_conTasaMv (df_input : list fila_ingresos)
    (usura_input_corte usura_input_mes_nuevo : R)
  : result (list (string * R * string) * (R * string * R)) :=
  anterior <- tasa_mv (usura_input_corte / 100) ;;
  _ <- tasa_mv (usura_input_mes_nuevo / 100) ;;
  let impacto_var := impacto_var df_input in
  mes_periodo <- match df_input with
                 | [] => Raise IndexError
                 | r :: _ => Ok (i_periodo r)
                 end ;;
  mv <- tasa_original_mv_columna df_input ;;
  let impacto_cnst := impacto_cnst df_input mv in
  Ok ([(mes_periodo, impacto_var, "Ingresos Tasa actual"%string);
       (mes_periodo, impacto_cnst, "Ingresos Tasa original"%string)],
      ((impacto_cnst - impacto_var)%R, mes_periodo, anterior)).

(** A row whose original rate is the rate [tasas_originales] computes from
    the row's own nominal rate. *)
Definition tasa_propia (r : fila_ingresos) : Prop :=
  (0 <= i_tasa_interes r)%R
  /\ i_TASA_EA r = Some (Rpy_round (tasa_ea (i_tasa_interes r)) 1).

(** * Properties *)

(** ** The scan of months ends *)

Lemma paso_mes_medida anio_final st :
  (1 <= fst st)%Z ->
  (1 <= fst (paso_mes st))%Z
  /\ medida anio_final (paso_mes st) = (medida anio_final st - 1)%Z.
Proof.
  destruct st as [m a]; unfold paso_mes, medida; cbn [fst snd]; intros Hm.
  destruct (Z.eqb_spec (m - 1) 0); cbn [fst snd]; lia.
Qed.

Lemma for_range_medida anio_final n : forall st acc,
  (1 <= fst st)%Z ->
  (1 <= fst (fst (for_range n st acc)))%Z
  /\ medida anio_final (fst (for_range n st acc))
     = (medida anio_final st - Z.of_nat n)%Z
  /\ List.length (snd (for_range n st acc)) = (List.length acc + n)%nat.
Proof.
  induction n as [|n IH]; intros st acc Hm; simpl.
  - repeat split; lia.
  - destruct (paso_mes_medida anio_final st Hm) as [H1 H2].
    destruct (IH (paso_mes st) (acc ++ [st]) H1) as (I1 & I2 & I3).
    repeat split; try assumption.
    + rewrite I2, H2. lia.
    + rewrite I3, length_app. simpl. lia.
Qed.

Lemma while_meses_total num_mes anio_final : forall fuel st acc,
  (1 <= num_mes)%Z ->
  (1 <= fst st)%Z ->
  (medida anio_final st < Z.of_nat fuel)%Z ->
  exists l, while_meses fuel num_mes anio_final st acc = Some l
            /\ (List.length acc <= List.length l)%nat
            /\ ((anio_final <= snd st)%Z ->
                (List.length acc < List.length l)%nat).
Proof.
  induction fuel as [|fuel IH]; intros st acc Hn Hm Hf.
  - simpl.
    destruct (Z.leb_spec 1 (fst st)); destruct (Z.leb_spec anio_final (snd st));
      simpl; try (unfold medida in Hf; lia).
    exists acc. repeat split; try lia.
  - simpl.
    destruct (Z.leb_spec 1 (fst st)); destruct (Z.leb_spec anio_final (snd st));
      simpl; try lia; try (exists acc; repeat split; lia).
    destruct (for_range_medida anio_final (Z.to_nat num_mes) st acc Hm)
      as (I1 & I2 & I3).
    destruct (for_range (Z.to_nat num_mes) st acc) as [st' acc'] eqn:E.
    simpl in I1, I2, I3.
    destruct (IH st' acc' Hn I1) as (l & Hl & Hlen & _).
    { rewrite I2. lia. }
    exists l. repeat split; try assumption; lia.
Qed.

(** The fuel of [meses_escaneados] is enough: the scan always ends, and it
    queries at least one month when [num_mes] is a month number. *)
Lemma meses_escaneados_total num_mes num_anio :
  exists meses, meses_escaneados num_mes num_anio = Some meses
                /\ ((1 <= num_mes)%Z -> meses <> []).
Proof.
  unfold meses_escaneados.
  destruct (Z.leb_spec 1 num_mes) as [Hn|Hn].
  - destruct (while_meses_total num_mes (num_anio - 10)
                (Z.to_nat (133 + num_mes)) (num_mes, num_anio) [] Hn)
      as (l & Hl & _ & Hlt).
    + cbn [fst]; lia.
    + unfold medida; cbn [fst snd]; lia.
    + exists l. split; [assumption|]. intros _ ->.
      cbn [fst snd List.length] in Hlt. lia.
  - exists []. split; [|lia].
    destruct (Z.to_nat (133 + num_mes)); cbn [while_meses fst snd];
      destruct (Z.leb_spec 1 num_mes); cbn [andb]; try lia; reflexivity.
Qed.

(** ** Rounding on rationals *)

Lemma round_half_even_comp x y : x == y -> round_half_even x = round_half_even y.
Proof.
  intros E. unfold round_half_even.
  rewrite (Qfloor_comp _ _ E).
  assert (C : Qcompare (x - inject_Z (Qfloor y)) (1 # 2)
              = Qcompare (y - inject_Z (Qfloor y)) (1 # 2)).
  { apply Qcompare_comp; [rewrite E|]; reflexivity. }
  rewrite C. reflexivity.
Qed.

Lemma round_half_even_Z k : round_half_even (inject_Z k) = k.
Proof.
  unfold round_half_even. rewrite Qfloor_Z.
  assert (C : Qcompare (inject_Z k - inject_Z k) (1 # 2) = Lt).
  { rewrite <- Qlt_alt. lra. }
  rewrite C. reflexivity.
Qed.

(** The distance to the rounded value is at most one half. *)
Lemma round_half_even_near x :
  Qabs (inject_Z (round_half_even x) - x) <= 1 # 2.
Proof.
  unfold round_half_even.
  pose proof (Qfloor_le x) as Hlo.
  pose proof (Qlt_floor x) as Hhi.
  rewrite inject_Z_plus in Hhi.
  change (inject_Z 1) with 1 in Hhi.
  destruct (Qcompare (x - inject_Z (Qfloor x)) (1 # 2)) eqn:C.
  - apply Qeq_alt in C.
    destruct (Z.even (Qfloor x));
      [|rewrite inject_Z_plus; change (inject_Z 1) with 1];
      apply Qabs_Qle_condition; split; lra.
  - apply Qlt_alt in C. apply Qabs_Qle_condition; split; lra.
  - apply Qgt_alt in C. rewrite inject_Z_plus; change (inject_Z 1) with 1.
    apply Qabs_Qle_condition; split; lra.
Qed.

Lemma pow10_pos n : 0 < inject_Z (10 ^ Z.of_nat n).
Proof.
  change 0 with (inject_Z 0). rewrite <- Zlt_Qlt.
  apply Z.pow_pos_nonneg; lia.
Qed.

(** [round(x, n)] is a whole number of units of the [n]-th decimal. *)
Lemma round_half_even_monotona x y :
  x <= y -> (round_half_even x <= round_half_even y)%Z.
Proof.
  intros Hxy.
  pose proof (round_half_even_near x) as Hx.
  pose proof (round_half_even_near y) as Hy.
  apply Qabs_Qle_condition in Hx. apply Qabs_Qle_condition in Hy.
  destruct (Z_le_gt_dec (round_half_even x) (round_half_even y)) as [H|H];
    [assumption|exfalso].
  assert (Hz : (round_half_even y + 1 <= round_half_even x)%Z) by lia.
  rewrite Zle_Qle, inject_Z_plus in Hz. change (inject_Z 1) with 1 in Hz.
  assert (E : x == y) by lra.
  apply round_half_even_comp in E. lia.
Qed.

(** ** Rounding to the nearest double *)

Lemma dos_pos (k : Z) : 0 < 2 ^ k.
Proof. apply Qpower_0_lt. reflexivity. Qed.

Lemma dos_Z (k : Z) : (0 <= k)%Z -> 2 ^ k == inject_Z (2 ^ k).
Proof. intros H. rewrite Zpower_Qpower by assumption. reflexivity. Qed.

Lemma log2_inf_spec (x : Q) :
  0 < x -> 2 ^ log2_inf x <= x /\ x < 2 ^ (log2_inf x + 1).
Proof.
  intros Hx. destruct x as [n d].
  assert (Hn : (0 < n)%Z).
  { unfold Qlt in Hx. simpl in Hx. lia. }
  pose proof (Z.log2_spec n Hn) as [Ha1 Ha2].
  pose proof (Z.log2_spec (Z.pos d) (Pos2Z.is_pos d)) as [Hb1 Hb2].
  pose proof (Z.log2_nonneg n) as Ha0.
  pose proof (Z.log2_nonneg (Z.pos d)) as Hb0.
  set (a := Z.log2 n) in *. set (b := Z.log2 (Z.pos d)) in *.
  assert (U : (n # d) < 2 ^ (a - b + 1)).
  { replace (a - b + 1)%Z with (Z.succ a - b)%Z by lia.
    rewrite Qpower_minus by discriminate.
    apply Qlt_shift_div_l; [apply dos_pos|].
    rewrite (dos_Z b), (dos_Z (Z.succ a)) by lia.
    unfold Qlt, Qmult, inject_Z. simpl.
    assert (0 < 2 ^ b)%Z by (apply Z.pow_pos_nonneg; lia).
    nia. }
  assert (L : 2 ^ (a - b - 1) <= (n # d)).
  { replace (a - b - 1)%Z with (a - Z.succ b)%Z by lia.
    rewrite Qpower_minus by discriminate.
    apply Qle_shift_div_r; [apply dos_pos|].
    rewrite (dos_Z a), (dos_Z (Z.succ b)) by lia.
    unfold Qle, Qmult, inject_Z. simpl.
    assert (0 < 2 ^ a)%Z by (apply Z.pow_pos_nonneg; lia).
    nia. }
  unfold log2_inf. cbn [Qnum Qden]. fold a b.
  destruct (Qle_bool (2 ^ (a - b)) (n # d)) eqn:E.
  - split; [apply Qle_bool_iff; exact E | exact U].
  - split; [exact L|].
    replace (a - b - 1 + 1)%Z with (a - b)%Z by lia.
    apply Qnot_le_lt. intros H. apply Qle_bool_iff in H. congruence.
Qed.

Lemma log2_inf_monotona x y :
  0 < x -> x <= y -> (log2_inf x <= log2_inf y)%Z.
Proof.
  intros Hx Hxy.
  assert (Hy : 0 < y) by (eapply Qlt_le_trans; eassumption).
  destruct (log2_inf_spec x Hx) as [H1 _].
  destruct (log2_inf_spec y Hy) as [_ H2].
  assert (H : 2 ^ log2_inf x < 2 ^ (log2_inf y + 1)).
  { eapply Qle_lt_trans; [exact H1|]. eapply Qle_lt_trans; eassumption. }
  apply Qpower_lt_compat_l_inv in H; [lia | reflexivity].
Qed.

Lemma exponente_monotona x y :
  0 < x -> x <= y -> (exponente x <= exponente y)%Z.
Proof.
  intros Hx Hxy. unfold exponente.
  pose proof (log2_inf_monotona x y Hx Hxy). lia.
Qed.

Lemma doble_abs_nonneg a : 0 <= a -> 0 <= doble_abs a.
Proof.
  intros Ha. unfold doble_abs.
  apply Qmult_le_0_compat; [|apply Qlt_le_weak, dos_pos].
  change 0 with (inject_Z 0). rewrite <- Zle_Qle.
  rewrite <- (round_half_even_Z 0). apply round_half_even_monotona.
  apply Qle_shift_div_l; [apply dos_pos|].
  setoid_replace (inject_Z 0 * 2 ^ exponente a) with 0 by ring. exact Ha.
Qed.

Lemma doble_abs_sup a :
  0 < a -> doble_abs a <= 2 ^ (53 + exponente a).
Proof.
  intros Ha. unfold doble_abs.
  set (e := exponente a).
  rewrite Qpower_plus by discriminate.
  apply Qmult_le_compat_r; [|apply Qlt_le_weak, dos_pos].
  rewrite (dos_Z 53) by lia. rewrite <- Zle_Qle.
  apply Z.le_trans with (round_half_even (inject_Z (2 ^ 53)));
    [|rewrite round_half_even_Z; apply Z.le_refl].
  apply round_half_even_monotona.
  apply Qle_shift_div_r; [apply dos_pos|].
  rewrite <- (dos_Z 53) by lia. rewrite <- Qpower_plus by discriminate.
  destruct (log2_inf_spec a Ha) as [_ H].
  apply Qlt_le_weak. eapply Qlt_le_trans; [exact H|].
  apply Qpower_le_compat_l; [|discriminate].
  unfold e, exponente. lia.
Qed.

Lemma doble_abs_inf a :
  0 < a -> (-1074 < exponente a)%Z -> 2 ^ (52 + exponente a) <= doble_abs a.
Proof.
  intros Ha He. unfold doble_abs.
  set (e := exponente a) in *.
  rewrite Qpower_plus by discriminate.
  apply Qmult_le_compat_r; [|apply Qlt_le_weak, dos_pos].
  rewrite (dos_Z 52) by lia. rewrite <- Zle_Qle.
  apply Z.le_trans with (round_half_even (inject_Z (2 ^ 52)));
    [rewrite round_half_even_Z; apply Z.le_refl|].
  apply round_half_even_monotona.
  apply Qle_shift_div_l; [apply dos_pos|].
  rewrite <- (dos_Z 52) by lia. rewrite <- Qpower_plus by discriminate.
  destruct (log2_inf_spec a Ha) as [H _].
  eapply Qle_trans; [|exact H].
  apply Qpower_le_compat_l; [|discriminate].
  unfold e, exponente in *. lia.
Qed.

Lemma doble_abs_monotona a b :
  0 < a -> a <= b -> doble_abs a <= doble_abs b.
Proof.
  intros Ha Hab.
  assert (Hb : 0 < b) by (eapply Qlt_le_trans; eassumption).
  pose proof (exponente_monotona a b Ha Hab) as He.
  destruct (Z.eq_dec (exponente a) (exponente b)) as [E|N].
  - unfold doble_abs. rewrite E.
    apply Qmult_le_compat_r; [|apply Qlt_le_weak, dos_pos].
    rewrite <- Zle_Qle. apply round_half_even_monotona.
    unfold Qdiv. apply Qmult_le_compat_r; [exact Hab|].
    apply Qlt_le_weak, Qinv_lt_0_compat, dos_pos.
  - eapply Qle_trans; [apply doble_abs_sup; exact Ha|].
    eapply Qle_trans; [|apply doble_abs_inf; [exact Hb|]].
    + apply Qpower_le_compat_l; [lia | discriminate].
    + unfold exponente in *. lia.
Qed.


Lemma doble_monotona x y : x <= y -> doble x <= doble y.
Proof.
  intros H. unfold doble.
  assert (H' : Qred x <= Qred y) by (rewrite !Qred_correct; exact H).
  set (p := Qred x) in *. set (q := Qred y) in *.
  destruct (Qcompare_spec p 0) as [Ep|Lp|Gp];
    destruct (Qcompare_spec q 0) as [Eq|Lq|Gq]; rewrite ?Qred_correct.
  - apply Qle_refl.
  - exfalso. rewrite Ep in H'. apply (Qlt_not_le _ _ Lq H').
  - apply doble_abs_nonneg, Qlt_le_weak, Gq.
  - assert (0 <= doble_abs (- p)) by (apply doble_abs_nonneg; lra). lra.
  - assert (doble_abs (- q) <= doble_abs (- p))
      by (apply doble_abs_monotona; lra).
    lra.
  - assert (0 <= doble_abs (- p)) by (apply doble_abs_nonneg; lra).
    assert (0 <= doble_abs q) by (apply doble_abs_nonneg; lra). lra.
  - exfalso. rewrite Eq in H'. apply (Qlt_not_le _ _ Gp H').
  - exfalso. apply (Qlt_not_le _ _ Gp). lra.
  - apply doble_abs_monotona; assumption.
Qed.

Lemma doble_nonneg x : 0 <= x -> 0 <= doble x.
Proof. intros H. apply (doble_monotona 0 x H). Qed.

Lemma doble_nonpos x : x <= 0 -> doble x <= 0.
Proof. intros H. apply (doble_monotona x 0 H). Qed.

Lemma py_round_decimal x n :
  py_round x n
  == inject_Z (round_half_even (x * inject_Z (10 ^ Z.of_nat n)))
     / inject_Z (10 ^ Z.of_nat n).
Proof. unfold py_round. apply Qred_correct. Qed.

Lemma py_round_times x n :
  py_round x n * inject_Z (10 ^ Z.of_nat n)
  == inject_Z (round_half_even (x * inject_Z (10 ^ Z.of_nat n))).
Proof.
  rewrite py_round_decimal. field.
  pose proof (pow10_pos n). lra.
Qed.

(** Rounding twice to the same decimal changes nothing. *)
Lemma py_round_idem x n : py_round (py_round x n) n = py_round x n.
Proof.
  unfold py_round at 1 3. f_equal. f_equal. f_equal.
  rewrite (round_half_even_comp _ _ (py_round_times x n)).
  apply round_half_even_Z.
Qed.

Lemma py_round_un_decimal x : un_decimal (py_round x 1).
Proof.
  split; [apply py_round_idem|].
  exists (round_half_even (x * inject_Z (10 ^ Z.of_nat 1))).
  apply py_round_decimal.
Qed.

(** ** Reconciliation *)

Lemma existsb_eqb_In k l : existsb (String.eqb k) l = true <-> In k l.
Proof.
  rewrite existsb_exists. split.
  - intros (x & Hx & E). apply String.eqb_eq in E. subst. assumption.
  - intros H. exists k. split; [assumption|apply String.eqb_refl].
Qed.

Lemma unique_keys_NoDup l : unique_keys l = true <-> NoDup l.
Proof.
  induction l as [|k t IH]; simpl.
  - split; [constructor|reflexivity].
  - rewrite andb_true_iff, negb_true_iff, IH. split.
    + intros [H1 H2]. constructor; [|assumption].
      intros Hin. apply existsb_eqb_In in Hin. congruence.
    + intros H. inversion H; subst. split; [|assumption].
      destruct (existsb (String.eqb k) t) eqn:E; [|reflexivity].
      apply existsb_eqb_In in E. contradiction.
Qed.

Lemma drop_duplicates_In l : forall seen r,
  In r (drop_duplicates l seen) ->
  In r l /\ ~ In (llave (p1 r)) seen.
Proof.
  induction l as [|x t IH]; intros seen r; simpl; [tauto|].
  destruct (existsb (String.eqb (llave (p1 x))) seen) eqn:E.
  - intros H. destruct (IH _ _ H). tauto.
  - intros [->|H].
    + split; [tauto|]. intros Hin. apply existsb_eqb_In in Hin. congruence.
    + destruct (IH _ _ H) as [H1 H2]. split; [tauto|].
      intros Hin. apply H2. right. assumption.
Qed.

Lemma drop_duplicates_unique l : forall seen,
  unique_keys (map (fun r => llave (p1 r)) (drop_duplicates l seen)) = true.
Proof.
  induction l as [|x t IH]; intros seen; simpl; [reflexivity|].
  destruct (existsb (String.eqb (llave (p1 x))) seen) eqn:E; [apply IH|].
  simpl. rewrite IH, andb_true_r, negb_true_iff.
  destruct (existsb (String.eqb (llave (p1 x)))
              (map (fun r => llave (p1 r))
                   (drop_duplicates t (llave (p1 x) :: seen)))) eqn:E';
    [|reflexivity].
  apply existsb_eqb_In, in_map_iff in E'. destruct E' as (r & Hk & Hr).
  apply drop_duplicates_In in Hr. destruct Hr as [_ Hr].
  exfalso. apply Hr. left. symmetry. assumption.
Qed.

Lemma sql_1_cruza siet maestro anio mes r :
  In r (sql_1 siet maestro anio mes) ->
  In (p1 r) siet /\ existsb (on_clause (p1 r)) maestro = true.
Proof.
  unfold sql_1. intros H.
  apply in_flat_map in H. destruct H as (a & Ha & H).
  apply in_flat_map in H. destruct H as (b & Hb & H).
  destruct (on_clause a b && fecha_eqb (FECHA b) (anio, mes, 1%Z)) eqn:E;
    [|contradiction].
  apply andb_true_iff in E. destruct H as [<-|[]]. cbn [p1].
  split; [assumption|]. apply existsb_exists. exists b. tauto.
Qed.

(** When the rows of the month that join have numeric kinds, the cast of
    the kinds of the rows returned by the queries passes. *)
Lemma escaneo_tipos siet maestro meses :
  tipos_numericos siet maestro = true ->
  forallb (fun r => es_float (tipo_transaccion (p1 r)))
          (escaneo siet maestro meses) = true.
Proof.
  unfold tipos_numericos. rewrite !forallb_forall. intros H r Hr.
  unfold escaneo in Hr. apply in_flat_map in Hr. destruct Hr as (st & _ & Hr).
  apply sql_1_cruza in Hr. destruct Hr as [Hp Hon].
  specialize (H _ Hp). rewrite Hon in H. cbn [negb] in H.
  rewrite orb_false_r in H. exact H.
Qed.

(** With unique keys in the month's table, at least one month scanned and
    numeric kinds in the rows returned, the step returns. *)
Lemma cruzar_Ok siet maestro meses :
  meses <> [] ->
  forallb (fun r => es_float (tipo_transaccion (p1 r)))
          (escaneo siet maestro meses) = true ->
  unique_keys (map llave siet) = true ->
  cruzar siet maestro meses
  = Ok (map round_TASA_EA
          (complete (cruce_mes_left siet (escaneo siet maestro meses))
           ++ missing (cruce_mes_left siet (escaneo siet maestro meses)))).
Proof.
  intros Hm Hf Hu. unfold cruzar, df_complete.
  destruct meses as [|st meses]; [contradiction|].
  cbn [bind]. unfold astype_float_tipo_transaccion.
  fold (escaneo siet maestro (st :: meses)). rewrite Hf. cbn [bind].
  unfold merge_left.
  rewrite Hu, drop_duplicates_unique. reflexivity.
Qed.



Lemma tasas_originales_Ok siet maestro num_mes num_anio :
  (1 <= num_mes)%Z ->
  unique_keys (map llave siet) = true ->
  tipos_numericos siet maestro = true ->
  exists meses,
    meses_escaneados num_mes num_anio = Some meses
    /\ tasas_originales siet maestro num_mes num_anio
       = Some (Ok (map round_TASA_EA
            (complete (cruce_mes_left siet (escaneo siet maestro meses))
             ++ missing (cruce_mes_left siet (escaneo siet maestro meses))))).
Proof.
  intros Hn Hu Ht.
  destruct (meses_escaneados_total num_mes num_anio) as (meses & E & Hne).
  exists meses. split; [assumption|].
  unfold tasas_originales. rewrite E. cbn [option_map].
  rewrite cruzar_Ok; auto. apply escaneo_tipos. assumption.
Qed.

(** Rows are never lost; a row is repeated when it joins a reference row
    without rate. *)
Lemma complete_missing_length c :
  List.length (complete c ++ missing c)
  = (List.length c + List.length (filter sin_tasa c))%nat.
Proof.
  rewrite length_app. unfold complete, missing. rewrite !length_map.
  induction c as [|m c IH]; [reflexivity|].
  assert (H : isna (merge_FECHA m) = true -> isna (merge_TASA_EA m) = true).
  { unfold merge_FECHA, merge_TASA_EA.
    destruct (snd m); [discriminate|reflexivity]. }
  cbn [filter]. unfold sin_tasa at 1.
  destruct (isna (merge_FECHA m)), (isna (merge_TASA_EA m));
    cbn [negb andb List.length]; lia.
Qed.

Lemma cruce_mes_left_length siet df :
  List.length (cruce_mes_left siet df) = List.length siet.
Proof. unfold cruce_mes_left. apply length_map. Qed.

(** Every row of the month's table is in the output. *)
Lemma complete_missing_all c a :
  In a (map fst c) ->
  In a (map tx (map round_TASA_EA (complete c ++ missing c))).
Proof.
  intros Hin. apply in_map_iff in Hin. destruct Hin as (m & <- & Hm).
  rewrite map_map. apply in_map_iff.
  destruct (isna (merge_FECHA m)) eqn:E.
  - exists (mk_fila_cruce (fst m)
              (Some (tasa_efectiva_anual (tasa_interes (fst m))))).
    split; [reflexivity|]. apply in_or_app. right.
    unfold missing. apply in_map_iff. exists m. split; [reflexivity|].
    apply filter_In. split; [assumption|].
    unfold merge_FECHA, merge_TASA_EA in *.
    destruct (snd m); [discriminate|reflexivity].
  - exists (mk_fila_cruce (fst m) (merge_TASA_EA m)).
    split; [reflexivity|]. apply in_or_app. left.
    unfold complete. apply in_map_iff. exists m. split; [reflexivity|].
    apply filter_In. split; [assumption|]. rewrite E. reflexivity.
Qed.

Lemma llave_inj siet a b :
  unique_keys (map llave siet) = true ->
  In a siet -> In b siet -> llave a = llave b -> a = b.
Proof.
  rewrite unique_keys_NoDup.
  induction siet as [|x t IH]; simpl; [tauto|].
  intros Hnd Ha Hb E. inversion Hnd as [|? ? Hx Ht]; subst.
  destruct Ha as [->|Ha], Hb as [->|Hb]; auto.
  - exfalso. apply Hx. rewrite E. apply in_map. assumption.
  - exfalso. apply Hx. rewrite <- E. apply in_map. assumption.
Qed.

Lemma complete_missing_de c f :
  In f (map round_TASA_EA (complete c ++ missing c)) -> In (tx f) (map fst c).
Proof.
  intros Hf. apply in_map_iff in Hf. destruct Hf as (f0 & <- & Hf0).
  cbn [round_TASA_EA tx].
  apply in_app_or in Hf0. destruct Hf0 as [H|H];
    [unfold complete in H|unfold missing in H];
    apply in_map_iff in H; destruct H as (m & <- & Hm);
    apply filter_In in Hm; cbn [tx]; apply in_map; tauto.
Qed.

Lemma cruce_mes_left_fst siet df : map fst (cruce_mes_left siet df) = siet.
Proof.
  unfold cruce_mes_left. rewrite map_map. cbn [fst]. apply map_id.
Qed.

Lemma fecha_eqb_eq a b : fecha_eqb a b = true -> a = b.
Proof.
  destruct a as [[y1 m1] d1], b as [[y2 m2] d2]. unfold fecha_eqb.
  rewrite !andb_true_iff, !Z.eqb_eq. intros [[-> ->] ->]. reflexivity.
Qed.

(** When the step returns, its frame has the rows of the month plus one
    more for every row that joined a master row without rate. *)
Lemma tasas_originales_length siet maestro num_mes num_anio :
  (1 <= num_mes)%Z ->
  unique_keys (map llave siet) = true ->
  tipos_numericos siet maestro = true ->
  exists meses out,
    meses_escaneados num_mes num_anio = Some meses
    /\ tasas_originales siet maestro num_mes num_anio = Some (Ok out)
    /\ List.length out
       = (List.length siet
          + List.length
              (filter sin_tasa
                 (cruce_mes_left siet (escaneo siet maestro meses))))%nat
    /\ incl siet (map tx out).
Proof.
  intros Hn Hu Ht.
  destruct (tasas_originales_Ok siet maestro num_mes num_anio Hn Hu Ht)
    as (meses & Em & E).
  exists meses. eexists. split; [exact Em|]. split; [exact E|]. split.
  - rewrite length_map, complete_missing_length, cruce_mes_left_length.
    reflexivity.
  - intros a Ha. apply complete_missing_all. rewrite cruce_mes_left_fst.
    assumption.
Qed.

Lemma sql_1_procedencia siet maestro anio mes r :
  In r (sql_1 siet maestro anio mes) ->
  In (p1 r) siet
  /\ exists b, In b maestro /\ on_clause (p1 r) b = true
               /\ FECHA b = (anio, mes, 1%Z)
               /\ to_TASA_EA r = case_tasa_ea (p1 r) b.
Proof.
  unfold sql_1. intros H.
  apply in_flat_map in H. destruct H as (a & Ha & H).
  apply in_flat_map in H. destruct H as (b & Hb & H).
  destruct (on_clause a b && fecha_eqb (FECHA b) (anio, mes, 1%Z)) eqn:E;
    [|contradiction].
  apply andb_true_iff in E. destruct E as [E1 E2].
  apply fecha_eqb_eq in E2.
  destruct H as [<-|[]]. cbn [p1 to_TASA_EA]. eauto 10.
Qed.

(** C10.  When [tasas_originales] returns, every row of the month is in
    the frame returned, and the original rate of every row returned is the
    rate the row had before the last step, rounded to one decimal: for a
    row that took the fallback, the rate computed from its own nominal rate
    with two decimals; for a row that joined, the rate the [CASE] of the
    query gives for a master row that satisfies the [ON] clause with it and
    is dated on the first day of a month scanned.  So a rate that is
    present is a whole number of tenths. *)
Theorem tasas_originales_un_decimal siet maestro num_mes num_anio :
  (1 <= num_mes)%Z ->
  unique_keys (map llave siet) = true ->
  tipos_numericos siet maestro = true ->
  exists meses out,
    meses_escaneados num_mes num_anio = Some meses
    /\ tasas_originales siet maestro num_mes num_anio = Some (Ok out)
    /\ incl siet (map tx out)
    /\ Forall (fun f =>
         In (tx f) siet
         /\ (exists sin_redondear,
               TASA_EA f = option_map (fun v => py_round v 1) sin_redondear
               /\ (sin_redondear
                   = Some (py_round
                             (((tasa_interes (tx f) / 100 + 1) ^ 12 - 1)
                              * 100) 2)
                   \/ exists b m y,
                        In b maestro /\ In (m, y) meses
                        /\ on_clause (tx f) b = true
                        /\ FECHA b = (y, m, 1%Z)
                        /\ sin_redondear = case_tasa_ea (tx f) b))
         /\ (forall v, TASA_EA f = Some v -> un_decimal v)) out.
Proof.
  intros Hn Hu Ht.
  destruct (tasas_originales_Ok siet maestro num_mes num_anio Hn Hu Ht)
    as (meses & Em & E).
  exists meses. eexists. split; [exact Em|]. split; [exact E|]. split.
  { intros a Ha. apply complete_missing_all. rewrite cruce_mes_left_fst.
    assumption. }
  apply Forall_forall. intros f Hf. split; [|split].
  - apply complete_missing_de in Hf. rewrite cruce_mes_left_fst in Hf.
    assumption.
  - apply in_map_iff in Hf. destruct Hf as (f0 & <- & Hf0).
    cbn [round_TASA_EA tx TASA_EA].
    apply in_app_or in Hf0. destruct Hf0 as [Hc|Hmiss].
    + unfold complete in Hc. apply in_map_iff in Hc.
      destruct Hc as (m & <- & Hc). apply filter_In in Hc.
      destruct Hc as [Hin Hna]. cbn [tx TASA_EA].
      exists (merge_TASA_EA m). split; [reflexivity|]. right.
      unfold cruce_mes_left in Hin. apply in_map_iff in Hin.
      destruct Hin as (a & <- & Ha). cbn [fst].
      unfold merge_FECHA, merge_TASA_EA in *. cbn [snd] in *.
      destruct (find _ _) as [r|] eqn:Ef; [|discriminate].
      apply find_some in Ef. destruct Ef as [Hr Ek].
      apply String.eqb_eq in Ek.
      apply drop_duplicates_In in Hr. destruct Hr as [Hr _].
      unfold escaneo in Hr. apply in_flat_map in Hr.
      destruct Hr as ([m y] & Hst & Hr). cbn [fst snd] in Hr.
      apply sql_1_procedencia in Hr.
      destruct Hr as (Hp & b & Hb & Hon & Hfe & Hta).
      assert (p1 r = a) by (eapply llave_inj; eassumption). subst a.
      exists b, m, y. rewrite Hta. auto.
    + unfold missing in Hmiss. apply in_map_iff in Hmiss.
      destruct Hmiss as (m & <- & _). cbn [tx TASA_EA].
      eexists. split; [reflexivity|]. left. reflexivity.
  - apply in_map_iff in Hf. destruct Hf as (f0 & <- & _).
    intros v. unfold round_TASA_EA; cbn [TASA_EA].
    destruct (TASA_EA f0) as [w|]; cbn [option_map]; [|discriminate].
    intros [= <-]. apply py_round_un_decimal.
Qed.

Lemma tasas_originales_un_decimal_witness :
  exists meses out,
    meses_escaneados 5 2023 = Some meses
    /\ tasas_originales [tx_ejemplo "0" 2 3; tx_ejemplo "1" (3 # 2) 1]
                        [maestro_ejemplo 3 (Some (2599 # 100))] 5 2023
       = Some (Ok out)
    /\ incl [tx_ejemplo "0" 2 3; tx_ejemplo "1" (3 # 2) 1] (map tx out)
    /\ Forall (fun f =>
         In (tx f) [tx_ejemplo "0" 2 3; tx_ejemplo "1" (3 # 2) 1]
         /\ (exists sin_redondear,
               TASA_EA f = option_map (fun v => py_round v 1) sin_redondear
               /\ (sin_redondear
                   = Some (py_round
                             (((tasa_interes (tx f) / 100 + 1) ^ 12 - 1)
                              * 100) 2)
                   \/ exists b m y,
                        In b [maestro_ejemplo 3 (Some (2599 # 100))]
                        /\ In (m, y) meses
                        /\ on_clause (tx f) b = true
                        /\ FECHA b = (y, m, 1%Z)
                        /\ sin_redondear = case_tasa_ea (tx f) b))
         /\ (forall v, TASA_EA f = Some v -> un_decimal v)) out.
Proof.
  apply (tasas_originales_un_decimal
           [tx_ejemplo "0" 2 3; tx_ejemplo "1" (3 # 2) 1]
           [maestro_ejemplo 3 (Some (2599 # 100))] 5 2023);
    [lia | reflexivity | reflexivity].
Defined.


(** C3.  One row of the month that joins a master row whose rate is NULL
    comes out twice: once from [complete], with no original rate, and once
    from [missing], with the fallback rate. *)
Theorem tasas_originales_repite_fila :
  tasas_originales [tx_ejemplo "0" 2 3] [maestro_ejemplo 3 None] 5 2023
  = Some (Ok [mk_fila_cruce (tx_ejemplo "0" 2 3) None;
              mk_fila_cruce (tx_ejemplo "0" 2 3) (Some (134 # 5))]).
Proof. vm_compute. reflexivity. Qed.








(** *** Deferred count 1 *)

Lemma drop_duplicates_keeps l : forall seen r,
  In r l -> ~ In (llave (p1 r)) seen ->
  exists r', In r' (drop_duplicates l seen) /\ llave (p1 r') = llave (p1 r).
Proof.
  induction l as [|x t IH]; intros seen r; simpl; [tauto|].
  intros Hin Hseen.
  destruct (existsb (String.eqb (llave (p1 x))) seen) eqn:E.
  - destruct Hin as [->|Hin].
    + apply existsb_eqb_In in E. contradiction.
    + apply IH; assumption.
  - destruct (String.eqb_spec (llave (p1 x)) (llave (p1 r))) as [Ek|Ek].
    + exists x. split; [left; reflexivity|assumption].
    + destruct Hin as [->|Hin]; [congruence|].
      destruct (IH (llave (p1 x) :: seen) r Hin) as (r' & H1 & H2).
      * intros [H|H]; [congruence|contradiction].
      * exists r'. split; [right; assumption|assumption].
Qed.

Lemma sql_1_In siet maestro anio mes r :
  In r (sql_1 siet maestro anio mes) ->
  In (p1 r) siet
  /\ exists b, In b maestro /\ to_TASA_EA r = case_tasa_ea (p1 r) b.
Proof.
  unfold sql_1. intros H.
  apply in_flat_map in H. destruct H as (a & Ha & H).
  apply in_flat_map in H. destruct H as (b & Hb & H).
  destruct (on_clause a b && fecha_eqb (FECHA b) (anio, mes, 1%Z));
    [|contradiction].
  destruct H as [<-|[]]. cbn [p1 to_TASA_EA]. eauto.
Qed.

Lemma escaneo_In siet maestro meses r :
  In r (escaneo siet maestro meses) ->
  In (p1 r) siet
  /\ exists b, In b maestro /\ to_TASA_EA r = case_tasa_ea (p1 r) b.
Proof.
  unfold escaneo. intros H.
  apply in_flat_map in H. destruct H as (st & _ & H).
  eapply sql_1_In; eassumption.
Qed.


(** On the joined path the [CASE] of the query gives rate 0 to a row with
    deferred count 1, whatever rate the master holds. *)
Lemma tasas_originales_diferido_1_cruzado siet maestro num_mes num_anio a :
  (1 <= num_mes)%Z ->
  unique_keys (map llave siet) = true ->
  tipos_numericos siet maestro = true ->
  In a siet ->
  nro_cargos_diferidos a == 1 ->
  (forall meses, meses_escaneados num_mes num_anio = Some meses ->
     exists r, In r (escaneo siet maestro meses) /\ llave (p1 r) = llave a) ->
  exists out,
    tasas_originales siet maestro num_mes num_anio = Some (Ok out)
    /\ In a (map tx out)
    /\ forall f, In f out -> tx f = a -> TASA_EA f = Some 0.
Proof.
  intros Hn Hu Ht Ha Hd Hr.
  destruct (tasas_originales_Ok siet maestro num_mes num_anio Hn Hu Ht)
    as (meses & Em & E).
  destruct (Hr _ Em) as (r & Hr1 & Hr2). clear Hr.
  eexists. split; [exact E|]. split.
  { apply complete_missing_all. unfold cruce_mes_left.
    rewrite map_map. cbn [fst]. rewrite map_id. assumption. }
  (* the merged row of [a] *)
  assert (Hm : forall m, In m (cruce_mes_left siet (escaneo siet maestro meses)) ->
                 fst m = a -> merge_TASA_EA m = Some 0).
  { intros m Hm Efst. unfold cruce_mes_left in Hm.
    apply in_map_iff in Hm. destruct Hm as (a' & <- & Ha').
    cbn [fst] in Efst. subst a'. unfold merge_TASA_EA. cbn [snd].
    destruct (find _ _) as [r'|] eqn:Ef.
    - apply find_some in Ef. destruct Ef as [Hin Ek].
      apply String.eqb_eq in Ek.
      apply drop_duplicates_In in Hin. destruct Hin as [Hin _].
      apply escaneo_In in Hin. destruct Hin as (Hp & b & _ & Et).
      assert (p1 r' = a) by (eapply llave_inj; eassumption). subst a.
      rewrite Et. unfold case_tasa_ea.
      apply Qeq_bool_iff in Hd. rewrite Hd. reflexivity.
    - exfalso.
      destruct (drop_duplicates_keeps (escaneo siet maestro meses) [] r Hr1)
        as (r' & Hin & Ek); [tauto|].
      pose proof (find_none _ _ Ef r' Hin) as Hf. cbn beta in Hf.
      rewrite Ek, Hr2, String.eqb_refl in Hf. discriminate. }
  intros f Hf Etx.
  apply in_map_iff in Hf. destruct Hf as (f0 & <- & Hf0).
  unfold round_TASA_EA in *. cbn [tx TASA_EA] in *.
  apply in_app_or in Hf0. destruct Hf0 as [Hc|Hmiss].
  - unfold complete in Hc. apply in_map_iff in Hc.
    destruct Hc as (m & <- & Hc). apply filter_In in Hc.
    cbn [tx TASA_EA] in *. rewrite (Hm m (proj1 Hc) Etx). reflexivity.
  - unfold missing in Hmiss. apply in_map_iff in Hmiss.
    destruct Hmiss as (m & <- & Hmiss). apply filter_In in Hmiss.
    cbn [tx TASA_EA] in *. destruct Hmiss as [Hin Hna].
    rewrite (Hm m Hin Etx) in Hna. discriminate.
Qed.

(** C2.  A row of the month with deferred count 1 and nominal rate 2 that
    joins no master row comes out with the fallback rate 26.8, not 0. *)
Theorem tasas_originales_diferido_1_sin_cruce :
  nro_cargos_diferidos (tx_ejemplo "0" 2 1) = 1
  /\ tasas_originales [tx_ejemplo "0" 2 1] [] 5 2023
     = Some (Ok [mk_fila_cruce (tx_ejemplo "0" 2 1) (Some (134 # 5))]).
Proof. split; vm_compute; reflexivity. Qed.

(** ** Usury sensitivity *)

Lemma py_round_comp x y n : x == y -> py_round x n = py_round y n.
Proof.
  intros E. unfold py_round.
  rewrite (round_half_even_comp (x * inject_Z (10 ^ Z.of_nat n))
                                (y * inject_Z (10 ^ Z.of_nat n)));
    [reflexivity|].
  rewrite E. reflexivity.
Qed.

Lemma Qsum_cons x l : Qsum (x :: l) = x + Qsum l.
Proof. reflexivity. Qed.

Lemma Qsum_app l1 l2 : Qsum (l1 ++ l2) == Qsum l1 + Qsum l2.
Proof.
  induction l1 as [|x l1 IH]; simpl.
  - ring.
  - rewrite IH. ring.
Qed.

Lemma Qltb_true a b : Qltb a b = true <-> a < b.
Proof.
  unfold Qltb. rewrite negb_true_iff.
  destruct (Qle_bool b a) eqn:E.
  - apply Qle_bool_iff in E. split; [discriminate|]. intros H. lra.
  - split; [|reflexivity]. intros _.
    destruct (Qlt_le_dec a b) as [H|H]; [assumption|].
    apply Qle_bool_iff in H. congruence.
Qed.

Lemma Qgtb_true a b : Qgtb a b = true <-> b < a.
Proof. apply Qltb_true. Qed.

Lemma signo_neg s :
  s < 0 -> Qltb s 0 = true /\ Qgtb s 0 = false /\ Qeq_bool s 0 = false
           /\ Qcompare s 0 = Lt.
Proof.
  intros H. repeat split.
  - apply Qltb_true. assumption.
  - destruct (Qgtb s 0) eqn:E; [|reflexivity]. apply Qgtb_true in E. lra.
  - destruct (Qeq_bool s 0) eqn:E; [|reflexivity]. apply Qeq_bool_iff in E. lra.
  - apply Qlt_alt. assumption.
Qed.

Lemma signo_pos s :
  0 < s -> Qltb s 0 = false /\ Qgtb s 0 = true /\ Qeq_bool s 0 = false
           /\ Qcompare s 0 = Gt.
Proof.
  intros H. repeat split.
  - destruct (Qltb s 0) eqn:E; [|reflexivity]. apply Qltb_true in E. lra.
  - apply Qgtb_true. assumption.
  - destruct (Qeq_bool s 0) eqn:E; [|reflexivity]. apply Qeq_bool_iff in E. lra.
  - apply Qgt_alt. assumption.
Qed.

Lemma signo_cero s :
  s == 0 -> Qltb s 0 = false /\ Qgtb s 0 = false /\ Qeq_bool s 0 = true
            /\ Qcompare s 0 = Eq.
Proof.
  intros H. repeat split.
  - destruct (Qltb s 0) eqn:E; [|reflexivity]. apply Qltb_true in E. lra.
  - destruct (Qgtb s 0) eqn:E; [|reflexivity]. apply Qgtb_true in E. lra.
  - apply Qeq_bool_iff. assumption.
  - apply Qeq_alt. assumption.
Qed.


Lemma df_exp_subida_cons T r df :
  df_exp_subida T (r :: df)
  = match tasa_ea_original r with
    | Some v => if Qgtb v T then [(saldo r, v, interes_ea r)] else []
    | None => []
    end ++ df_exp_subida T df.
Proof. reflexivity. Qed.






Lemma primer_periodo_Ok df :
  df <> [] -> exists per, primer_periodo df = Ok per.
Proof. destruct df as [|r df]; [contradiction|]. intros _. eexists. reflexivity. Qed.





(** ** Balance by rate band *)

Lemma cut_idx_total x : forall bins lo i,
  borde_ltb lo x = true ->
  last (lo :: bins) NINF = INF ->
  exists j, cut_idx (lo :: bins) x i = Some j
            /\ (i <= j < i + List.length bins)%nat.
Proof.
  induction bins as [|hi rest IH]; intros lo i Hlo Hlast.
  - cbn [last] in Hlast. subst lo. discriminate.
  - cbn [cut_idx]. rewrite Hlo. cbn [andb].
    destruct (borde_geb hi x) eqn:Ehi.
    + exists i. split; [reflexivity|]. cbn [List.length]. lia.
    + assert (Hhi : borde_ltb hi x = true).
      { destruct hi; cbn [borde_geb borde_ltb] in *;
          [reflexivity| |discriminate].
        unfold Qltb. rewrite Ehi. reflexivity. }
      destruct (IH hi (S i) Hhi) as (j & Ej & Hj).
      { destruct rest; [|exact Hlast].
        cbn [last] in Hlast. subst hi. discriminate. }
      exists j. split; [exact Ej|]. cbn [List.length]. lia.
Qed.

(** Every rate falls in one of the thirteen bands. *)
Lemma pd_cut_total x : exists b, pd_cut x = Some b /\ In b grupo_tasas.
Proof.
  unfold pd_cut.
  destruct (cut_idx_total x (tl ranges) NINF 0%nat eq_refl eq_refl)
    as (j & Ej & Hj).
  change (NINF :: tl ranges) with ranges in Ej. rewrite Ej.
  cbn [tl ranges List.length] in Hj.
  destruct (nth_error grupo_tasas j) as [b|] eqn:Eb.
  - exists b. split; [reflexivity|]. eapply nth_error_In. exact Eb.
  - apply nth_error_None in Eb. cbn [grupo_tasas List.length] in Eb. lia.
Qed.

Lemma Qsum_map_ext {A : Type} (f g : A -> Q) l :
  (forall a, In a l -> f a == g a) -> Qsum (map f l) == Qsum (map g l).
Proof.
  induction l as [|a l IH]; intros H; [reflexivity|].
  cbn [map]. rewrite !Qsum_cons, IH, (H a).
  - reflexivity.
  - left. reflexivity.
  - intros b Hb. apply H. right. assumption.
Qed.

Lemma Qsum_map_plus {A : Type} (f g : A -> Q) l :
  Qsum (map (fun a => f a + g a) l) == Qsum (map f l) + Qsum (map g l).
Proof.
  induction l as [|a l IH]; cbn [map]; [reflexivity|].
  rewrite !Qsum_cons, IH. ring.
Qed.

Lemma Qsum_map_cero {A : Type} (l : list A) : Qsum (map (fun _ => 0) l) == 0.
Proof.
  induction l as [|a l IH]; cbn [map]; [reflexivity|].
  rewrite Qsum_cons, IH. ring.
Qed.

(** A balance counted in its own band only adds up to itself over the
    bands. *)
Lemma Qsum_indicador (b : string) (s : Q) (labels : list string) :
  NoDup labels -> In b labels ->
  Qsum (map (fun l => if String.eqb b l then s else 0) labels) == s.
Proof.
  induction labels as [|l labels IH]; intros Hnd Hin; [contradiction|].
  inversion Hnd as [|? ? Hl Hnd']; subst. cbn [map]. rewrite Qsum_cons.
  destruct (String.eqb_spec b l) as [->|Hne].
  - rewrite (Qsum_map_ext _ (fun _ => 0)).
    + rewrite Qsum_map_cero. ring.
    + intros a Ha. destruct (String.eqb_spec l a) as [->|_];
        [contradiction|reflexivity].
  - destruct Hin as [->|Hin]; [contradiction|].
    rewrite IH by assumption. ring.
Qed.

Lemma grupo_tasas_NoDup : NoDup grupo_tasas.
Proof. apply unique_keys_NoDup. reflexivity. Qed.

Lemma saldo_banda_cons b f filas :
  saldo_banda b (f :: filas)
  == (if rango_eqb (rango_tasa f) b then sr_saldo f else 0)
     + saldo_banda b filas.
Proof.
  unfold saldo_banda. cbn [filter].
  destruct (rango_eqb (rango_tasa f) b); cbn [map]; [rewrite Qsum_cons|];
    ring.
Qed.

(** When every row carries a band, the band totals add up to the total of
    the rows. *)
Lemma saldo_por_bandas_total filas :
  Forall (fun f => exists b, rango_tasa f = Some b /\ In b grupo_tasas)
         filas ->
  saldo_por_bandas filas == Qsum (map sr_saldo filas).
Proof.
  unfold saldo_por_bandas.
  induction 1 as [|f filas (b & Eb & Hb) _ IH].
  - cbn [map Qsum fold_right]. apply Qsum_map_cero.
  - rewrite (Qsum_map_ext _ _ _ (fun l _ => saldo_banda_cons l f filas)).
    rewrite Qsum_map_plus, IH. cbn [map]. rewrite Qsum_cons.
    rewrite Eb. cbn [rango_eqb].
    rewrite (Qsum_indicador b (sr_saldo f) grupo_tasas grupo_tasas_NoDup Hb).
    reflexivity.
Qed.

Lemma con_rango_bandas filas :
  Forall (fun f => exists b, rango_tasa f = Some b /\ In b grupo_tasas)
         (map con_rango filas).
Proof.
  apply Forall_map, Forall_forall. intros f _.
  unfold con_rango; cbn [rango_tasa]. apply pd_cut_total.
Qed.

Lemma map_sr_saldo_con_rango filas :
  map sr_saldo (map con_rango filas) = map sr_saldo filas.
Proof. rewrite map_map. reflexivity. Qed.

Lemma de_tipo_saldo_sr tipo tipo' per filas :
  de_tipo tipo (saldo_sr tipo' per filas)
  = if String.eqb tipo' tipo then saldo_sr tipo' per filas else [].
Proof.
  unfold de_tipo, saldo_sr.
  induction (sort_desc (groupby_sum filas)) as [|kv l IH].
  - destruct (String.eqb tipo' tipo); reflexivity.
  - cbn [map filter tipo_tasa]. rewrite IH.
    destruct (String.eqb tipo' tipo); reflexivity.
Qed.

Lemma de_tipo_con_rango tipo filas :
  de_tipo tipo (map con_rango filas) = map con_rango (de_tipo tipo filas).
Proof.
  unfold de_tipo. induction filas as [|f filas IH]; [reflexivity|].
  cbn [map filter]. unfold con_rango at 1; cbn [tipo_tasa].
  destruct (String.eqb (tipo_tasa f) tipo); cbn [map]; rewrite IH; reflexivity.
Qed.

Lemma de_tipo_app tipo l1 l2 :
  de_tipo tipo (l1 ++ l2) = de_tipo tipo l1 ++ de_tipo tipo l2.
Proof. apply filter_app. Qed.

(** Grouping and sorting keep the total balance. *)
Lemma agregar_total k v g :
  Qsum (map snd (agregar k v g)) == v + Qsum (map snd g).
Proof.
  induction g as [|[k' v'] g IH]; cbn [agregar map snd].
  - reflexivity.
  - destruct (Qcompare k k'); cbn [map snd]; rewrite ?Qsum_cons, ?IH;
      cbn [snd]; ring.
Qed.

Lemma groupby_sum_total filas :
  Qsum (map snd (groupby_sum filas)) == Qsum (map snd filas).
Proof.
  unfold groupby_sum.
  assert (G : forall g, Qsum (map snd
                (fold_left (fun g kv => agregar (fst kv) (snd kv) g) filas g))
              == Qsum (map snd filas) + Qsum (map snd g)).
  { induction filas as [|kv filas IH]; intros g; cbn [fold_left map].
    - cbn [Qsum fold_right]. ring.
    - rewrite IH, agregar_total, Qsum_cons. ring. }
  rewrite G. cbn [map Qsum fold_right]. ring.
Qed.

Lemma insertar_desc_total x l :
  Qsum (map snd (insertar_desc x l)) == snd x + Qsum (map snd l).
Proof.
  induction l as [|y l IH]; cbn [insertar_desc map].
  - reflexivity.
  - destruct (Qle_bool (snd y) (snd x)); cbn [map]; rewrite ?Qsum_cons, ?IH;
      ring.
Qed.

Lemma sort_desc_total l : Qsum (map snd (sort_desc l)) == Qsum (map snd l).
Proof.
  unfold sort_desc. induction l as [|x l IH]; [reflexivity|].
  cbn [fold_right map]. rewrite insertar_desc_total, Qsum_cons, IH.
  reflexivity.
Qed.

Lemma saldo_sr_total tipo per filas :
  Qsum (map sr_saldo (saldo_sr tipo per filas)) == Qsum (map snd filas).
Proof.
  unfold saldo_sr. rewrite map_map. cbn [sr_saldo].
  rewrite sort_desc_total. apply groupby_sum_total.
Qed.

(** C7.  For each rate type, the thirteen band totals of the frame written
    by [saldo_to_mes] add up to the total of the per-rate rows it returns;
    so do the band totals the step computes for the original rate.  A rate
    on an edge belongs to the band below it. *)
Theorem saldo_to_mes_bandas df :
  df <> [] ->
  exists saldo_sinRango saldo_cr_to saldo_conRango,
    saldo_to_mes df = Ok (saldo_sinRango, saldo_cr_to, saldo_conRango)
    /\ (forall tipo,
          In tipo ["Tasa actual"; "Tasa original"]%string ->
          saldo_por_bandas (de_tipo tipo saldo_conRango)
          == Qsum (map sr_saldo (de_tipo tipo saldo_sinRango)))
    /\ Qsum (map snd saldo_cr_to)
       == Qsum (map sr_saldo (de_tipo "Tasa original" saldo_sinRango))
    /\ map fst saldo_cr_to = grupo_tasas
    /\ List.length grupo_tasas = 13%nat
    /\ map pd_cut [0; 1; 11; 21; 24; 26; 265 # 10; 27; 275 # 10; 28; 29; 30]
       = map Some (removelast grupo_tasas).
Proof.
  intros Hne. destruct (primer_periodo_Ok df Hne) as (per & Eper).
  unfold saldo_to_mes. rewrite Eper. cbn [bind].
  do 3 eexists. split; [reflexivity|].
  assert (B : forall filas,
             saldo_por_bandas (map con_rango filas)
             == Qsum (map sr_saldo filas)).
  { intros filas. rewrite saldo_por_bandas_total by apply con_rango_bandas.
    rewrite map_sr_saldo_con_rango. reflexivity. }
  split; [|split; [|split; [|split]]].
  - intros tipo Htipo.
    rewrite !de_tipo_app, !de_tipo_con_rango, !de_tipo_saldo_sr.
    rewrite <- map_app. apply B.
  - rewrite de_tipo_app, !de_tipo_saldo_sr. cbn [String.eqb Ascii.eqb Bool.eqb app].
    unfold saldo_cr. rewrite map_map. cbn [snd]. apply B.
  - unfold saldo_cr. rewrite map_map. cbn [fst]. apply map_id.
  - reflexivity.
  - vm_compute. reflexivity.
Qed.

Lemma saldo_to_mes_bandas_witness :
  exists saldo_sinRango saldo_cr_to saldo_conRango,
    saldo_to_mes [cruce_ejemplo (10004 # 10) (Some 30) 2;
                  cruce_ejemplo 500 (Some 30) (3 # 2);
                  cruce_ejemplo 200 None 2;
                  cruce_ejemplo 700 (Some (268 # 10)) 2]
    = Ok (saldo_sinRango, saldo_cr_to, saldo_conRango)
    /\ (forall tipo,
          In tipo ["Tasa actual"; "Tasa original"]%string ->
          saldo_por_bandas (de_tipo tipo saldo_conRango)
          == Qsum (map sr_saldo (de_tipo tipo saldo_sinRango)))
    /\ Qsum (map snd saldo_cr_to)
       == Qsum (map sr_saldo (de_tipo "Tasa original" saldo_sinRango))
    /\ map fst saldo_cr_to = grupo_tasas
    /\ List.length grupo_tasas = 13%nat
    /\ map pd_cut [0; 1; 11; 21; 24; 26; 265 # 10; 27; 275 # 10; 28; 29; 30]
       = map Some (removelast grupo_tasas).
Proof.
  apply (saldo_to_mes_bandas
           [cruce_ejemplo (10004 # 10) (Some 30) 2;
            cruce_ejemplo 500 (Some 30) (3 # 2);
            cruce_ejemplo 200 None 2;
            cruce_ejemplo 700 (Some (268 # 10)) 2]).
  discriminate.
Defined.

(** ** Balance composition *)

Lemma columnas_iguales_skipn a : forall b i,
  columnas_iguales a b i = columnas_iguales a (skipn i b) 0.
Proof.
  induction a as [|x a IH]; intros b i; [reflexivity|].
  cbn [columnas_iguales].
  rewrite nth_error_skipn, Nat.add_0_r.
  destruct (nth_error b i); [|reflexivity].
  rewrite (IH b (S i)), (IH (skipn i b) 1%nat), skipn_skipn.
  reflexivity.
Qed.

Lemma columnas_iguales_Ok a : forall b,
  List.length a = List.length b ->
  columnas_iguales a b 0
  = Ok (map (fun xy => String.eqb (fst xy) (snd xy)) (combine a b)).
Proof.
  induction a as [|x a IH]; intros [|y b] Hlen; try discriminate;
    [reflexivity|].
  cbn [columnas_iguales nth_error].
  rewrite columnas_iguales_skipn. cbn [skipn].
  rewrite IH by (cbn in Hlen; lia). reflexivity.
Qed.

Lemma todas_iguales a : forall b,
  List.length a = List.length b ->
  forallb (fun x => x)
          (map (fun xy => String.eqb (fst xy) (snd xy)) (combine a b)) = true
  <-> a = b.
Proof.
  induction a as [|x a IH]; intros [|y b] Hlen; try discriminate.
  - split; reflexivity.
  - cbn [combine map forallb fst snd]. rewrite andb_true_iff, String.eqb_eq.
    rewrite IH by (cbn in Hlen; lia).
    split; [intros [-> ->]; reflexivity|intros [= -> ->]; auto].
Qed.

(** The check raises exactly when the two frames have the same columns in
    the same order, and passes when they differ. *)
Lemma validar_columnas_invertido a b :
  List.length a = List.length b ->
  (validar_columnas a b = Raise AssertionError <-> a = b)
  /\ (validar_columnas a b = Ok tt <-> a <> b).
Proof.
  intros Hlen. unfold validar_columnas.
  rewrite (columnas_iguales_Ok a b Hlen). cbn [bind].
  pose proof (todas_iguales a b Hlen) as H.
  destruct (forallb _ _); cbn [negb]; split; split; intros H';
    try discriminate; try reflexivity.
  - apply H. reflexivity.
  - exfalso. apply H'. apply H. reflexivity.
  - apply H in H'. discriminate.
  - intros E. apply H in E. discriminate.
Qed.

(** The step stops before the check: the frame has a column [periodo] and
    no column [Periodo]. *)
Lemma balance_composition_AttributeError historico :
  balance_composition historico = Raise AttributeError.
Proof. reflexivity. Qed.

(** C4.  With the historical frame the query returns, whose columns are the
    columns of the computed frame, the check raises; with a historical
    frame whose columns differ, it passes. *)
Theorem validar_columnas_mismas_columnas :
  (a <- set_index columnas_composicion "periodo" ;;
   b <- set_index columnas_composicion "periodo" ;;
   validar_columnas a b) = Raise AssertionError
  /\ (a <- set_index columnas_composicion "periodo" ;;
      b <- set_index ["periodo"; "saldo_total"; "saldo_capital";
                      "saldo_mora"; "saldo_intereses"; "saldo_otros"]%string
                     "periodo" ;;
      validar_columnas a b) = Ok tt.
Proof. split; reflexivity. Qed.

(** ** Reference dates *)

Lemma iter_dia_anterior y m : forall (n : nat) d,
  (Z.of_nat n < d)%Z ->
  Nat.iter n dia_anterior (y, m, d) = (y, m, (d - Z.of_nat n)%Z).
Proof.
  induction n as [|n IH]; intros d Hd.
  - unfold Nat.iter; cbn [nat_rect]. f_equal. lia.
  - rewrite Nat.iter_succ, IH by lia. unfold dia_anterior.
    destruct (Z.ltb_spec 1 (d - Z.of_nat n)); [|lia]. f_equal. lia.
Qed.

Lemma restar_dias y m d k :
  (0 <= k < d)%Z -> sumar_dias (y, m, d) (- k) = (y, m, (d - k)%Z).
Proof.
  intros Hk. unfold sumar_dias.
  destruct (Z.leb_spec 0 (- k)).
  - assert (k = 0%Z) by lia. subst k.
    unfold Nat.iter; cbn [Z.opp Z.to_nat nat_rect]. f_equal. lia.
  - rewrite Z.opp_involutive, iter_dia_anterior by lia. f_equal. lia.
Qed.

(** Taking away as many days as the day of the month gives the last day of
    the month before. *)
Lemma restar_dia_del_mes y m d :
  (1 <= d)%Z -> sumar_dias (y, m, d) (- d) = dia_anterior (y, m, 1%Z).
Proof.
  intros Hd. unfold sumar_dias.
  destruct (Z.leb_spec 0 (- d)); [lia|].
  rewrite Z.opp_involutive.
  replace (Z.to_nat d) with (S (Z.to_nat (d - 1))) by lia.
  rewrite Nat.iter_succ, iter_dia_anterior by lia. do 2 f_equal. lia.
Qed.

Lemma sumar_dias_0 f : sumar_dias f 0 = f.
Proof. reflexivity. Qed.

Lemma sumar_relativedelta_dias y m d k :
  (1 <= m <= 12)%Z ->
  sumar_relativedelta (y, m, d) 0 k
  = sumar_dias (y, m, Z.min (dias_del_mes y m) d) k.
Proof.
  intros Hm. unfold sumar_relativedelta. rewrite Z.add_0_r.
  destruct (Z.ltb_spec 12 m); [lia|]. destruct (Z.ltb_spec m 1); [lia|].
  reflexivity.
Qed.

Lemma sumar_relativedelta_mas_1 y m d :
  (1 <= m <= 12)%Z ->
  sumar_relativedelta (y, m, d) 1 0
  = if (m <? 12)%Z
    then (y, m + 1, Z.min (dias_del_mes y (m + 1)) d)%Z
    else (y + 1, 1, Z.min (dias_del_mes (y + 1) 1) d)%Z.
Proof.
  intros Hm. unfold sumar_relativedelta.
  destruct (Z.ltb_spec 12 (m + 1)); destruct (Z.ltb_spec m 12); try lia.
  - replace (m + 1 - 12)%Z with 1%Z by lia. apply sumar_dias_0.
  - destruct (Z.ltb_spec (m + 1) 1); [lia|]. apply sumar_dias_0.
Qed.

Lemma sumar_relativedelta_menos_1 y m d :
  (1 <= m <= 12)%Z ->
  sumar_relativedelta (y, m, d) (-1) 0
  = if (1 <? m)%Z
    then (y, m - 1, Z.min (dias_del_mes y (m - 1)) d)%Z
    else (y - 1, 12, Z.min (dias_del_mes (y - 1) 12) d)%Z.
Proof.
  intros Hm. unfold sumar_relativedelta.
  destruct (Z.ltb_spec 12 (m + -1)); [lia|].
  destruct (Z.ltb_spec (m + -1) 1); destruct (Z.ltb_spec 1 m); try lia.
  - replace (m + -1 + 12)%Z with 12%Z by lia. apply sumar_dias_0.
  - replace (m + -1)%Z with (m - 1)%Z by lia. apply sumar_dias_0.
Qed.

Lemma dias_del_mes_pos y m : (28 <= dias_del_mes y m <= 31)%Z.
Proof.
  unfold dias_del_mes.
  destruct (m =? 2)%Z; [destruct (es_bisiesto y); lia|].
  destruct ((m =? 4) || (m =? 6) || (m =? 9) || (m =? 11))%Z; lia.
Qed.

Lemma first_date_primer_dia f :
  fecha_valida f -> first_date f = primer_dia f.
Proof.
  destruct f as [[y m] d]. intros [Hm Hd].
  unfold first_date, dia_de. cbn [snd].
  rewrite sumar_relativedelta_dias by assumption.
  rewrite Z.min_r by lia. rewrite restar_dias by lia.
  cbn [primer_dia]. f_equal. lia.
Qed.

Lemma prev_last_date_ultimo_dia f :
  fecha_valida f -> prev_last_date f = ultimo_dia (mes_anterior f).
Proof.
  destruct f as [[y m] d]. intros [Hm Hd].
  unfold prev_last_date, dia_de. cbn [snd].
  rewrite sumar_relativedelta_dias by assumption.
  rewrite Z.min_r by lia. rewrite restar_dia_del_mes by lia.
  unfold dia_anterior, mes_anterior, ultimo_dia.
  destruct (Z.ltb_spec 1 1); [lia|].
  destruct (Z.ltb_spec 1 m); reflexivity.
Qed.

Lemma prev_first_date_primer_dia f :
  fecha_valida f -> prev_first_date f = primer_dia (mes_anterior f).
Proof.
  intros Hf. unfold prev_first_date.
  change (sumar_relativedelta f 0 (- (dia_de f - 1))) with (first_date f).
  rewrite (first_date_primer_dia f Hf).
  destruct f as [[y m] d]. destruct Hf as [Hm Hd].
  unfold primer_dia, mes_anterior.
  rewrite sumar_relativedelta_menos_1 by assumption.
  destruct (1 <? m)%Z;
    match goal with |- context [dias_del_mes ?a ?b] =>
      pose proof (dias_del_mes_pos a b) end;
    rewrite Z.min_r by lia; reflexivity.
Qed.

(** [last_date] is the last day of the month when the day of the reference
    date exists in the next month; a reference date built from a
    ['%Y-%m'] string has day 1. *)
Lemma last_date_ultimo_dia f :
  fecha_valida f ->
  (dia_de f <= dia_de (ultimo_dia (mes_siguiente f)))%Z ->
  last_date f = ultimo_dia f.
Proof.
  destruct f as [[y m] d]. intros [Hm Hd].
  unfold last_date, dia_de, ultimo_dia, mes_siguiente. cbn [snd].
  rewrite sumar_relativedelta_mas_1 by assumption.
  destruct (Z.ltb_spec m 12); cbn [snd]; intros Hnext.
  - rewrite sumar_relativedelta_dias by lia.
    rewrite !Z.min_r by lia. rewrite restar_dia_del_mes by lia.
    unfold dia_anterior. destruct (Z.ltb_spec 1 1); [lia|].
    destruct (Z.ltb_spec 1 (m + 1)); [|lia].
    replace (m + 1 - 1)%Z with m by lia. reflexivity.
  - assert (m = 12%Z) by lia. subst m.
    rewrite sumar_relativedelta_dias by lia.
    rewrite !Z.min_r by lia. rewrite restar_dia_del_mes by lia.
    unfold dia_anterior. destruct (Z.ltb_spec 1 1); [lia|].
    replace (y + 1 - 1)%Z with y by lia. reflexivity.
Qed.

Lemma last_date_desde_cadena y m today :
  (1 <= m <= 12)%Z ->
  last_date (ReferenceDate (Some (y, m)) today) = (y, m, dias_del_mes y m).
Proof.
  intros Hm. cbn [ReferenceDate].
  rewrite last_date_ultimo_dia; [reflexivity| |].
  - split; [assumption|]. pose proof (dias_del_mes_pos y m). lia.
  - unfold dia_de, mes_siguiente, ultimo_dia.
    destruct (m <? 12)%Z; cbn [snd];
      match goal with |- (_ <= dias_del_mes ?a ?b)%Z =>
        pose proof (dias_del_mes_pos a b) end; lia.
Qed.

(** Any other mode raises [InvalidDate]. *)
Lemma get_format_date_InvalidDate strftime ref_date int_date format :
  ~ In int_date ["first_date"; "last_date"; "prev_first_date";
                 "prev_last_date"]%string ->
  get_format_date strftime ref_date int_date format = Raise InvalidDate.
Proof.
  intros H. unfold get_format_date.
  repeat match goal with
  | |- context [String.eqb int_date ?s] =>
      destruct (String.eqb_spec int_date s) as [->|_];
      [exfalso; apply H; cbn; tauto|]
  end.
  reflexivity.
Qed.

(** C9.  For the reference date 2023-01-31, which [ReferenceDate()] takes
    from the clock on that day, the mode ['last_date'] returns 2023-01-28,
    not the last day of January. *)
Theorem last_date_31_de_enero strftime format :
  get_format_date strftime (ReferenceDate None (2023, 1, 31)%Z)
                  "last_date" format
  = Ok (strftime (2023, 1, 28)%Z format)
  /\ ultimo_dia (2023, 1, 31)%Z = (2023, 1, 31)%Z.
Proof. split; reflexivity. Qed.

(** ** Rate conversions *)

Section ConverterProps.

Local Open Scope R_scope.

Lemma Rabs_le_inv a b : Rabs a <= b -> - b <= a <= b.
Proof. unfold Rabs. destruct (Rcase_abs a); lra. Qed.

Lemma Rround_half_even_near x :
  Rabs (IZR (Rround_half_even x) - x) <= 1 / 2.
Proof.
  unfold Rround_half_even.
  pose proof (Zfloor_bound x) as [Hlo Hhi].
  destruct (Rlt_dec (x - IZR (Zfloor x)) (1 / 2)) as [H|H].
  - apply Rabs_le. lra.
  - destruct (Rlt_dec (1 / 2) (x - IZR (Zfloor x))) as [H'|H'].
    + rewrite plus_IZR. apply Rabs_le. lra.
    + destruct (Z.even (Zfloor x)); [|rewrite plus_IZR];
        apply Rabs_le; lra.
Qed.

Lemma Rround_half_even_eq (n : Z) x :
  IZR n - 1 / 2 < x < IZR n + 1 / 2 -> Rround_half_even x = n.
Proof.
  intros [Hlo Hhi].
  pose proof (Rround_half_even_near x) as Hn.
  apply Rabs_le_inv in Hn.
  assert (H : (n - 1 < Rround_half_even x < n + 1)%Z); [|lia].
  split; apply lt_IZR; [rewrite minus_IZR|rewrite plus_IZR]; lra.
Qed.

Lemma Rround_half_even_nonneg x :
  0 <= x -> (0 <= Rround_half_even x)%Z.
Proof.
  intros Hx.
  assert (Hf : (0 <= Zfloor x)%Z) by (apply Zfloor_lub; simpl; lra).
  unfold Rround_half_even.
  repeat match goal with
  | |- context [if ?c then _ else _] => destruct c
  end; lia.
Qed.

Lemma Rpy_round_near x : Rabs (Rpy_round x 2 - x) <= 1 / 200.
Proof.
  unfold Rpy_round.
  pose proof (Rround_half_even_near (x * 10 ^ 2)) as H.
  apply Rabs_le_inv in H. apply Rabs_le.
  replace (10 ^ 2) with 100 in * by (simpl; lra).
  lra.
Qed.

Lemma Rpy_round_nonneg x : 0 <= x -> 0 <= Rpy_round x 2.
Proof.
  intros Hx. unfold Rpy_round.
  replace (10 ^ 2) with 100 by (simpl; lra).
  assert (H : (0 <= Rround_half_even (x * 100))%Z)
    by (apply Rround_half_even_nonneg; lra).
  apply IZR_le in H. lra.
Qed.

(** The exponent [30/360] is a twelfth: the power is the twelfth root. *)
Lemma raiz_doce x :
  0 < x -> 0 < Rpower x (30 / 360) /\ Rpower x (30 / 360) ^ 12 = x.
Proof.
  intros Hx. split; [apply exp_pos|].
  rewrite <- Rpower_pow by apply exp_pos.
  rewrite Rpower_mult.
  replace (30 / 360 * INR 12) with 1 by (simpl; lra).
  apply Rpower_1. assumption.
Qed.

Lemma pow_ge_1 x (n : nat) : 1 <= x -> 1 <= x ^ n.
Proof. intros Hx. apply pow_R1_Rle. assumption. Qed.

(** Above 1 a power grows at least as fast as its exponent times the
    base. *)
Lemma pow_diferencia x y (n : nat) :
  1 <= y <= x -> INR n * (x - y) <= x ^ n - y ^ n.
Proof.
  intros [Hy Hxy]. induction n as [|n IH].
  - simpl. lra.
  - rewrite S_INR. cbn [pow].
    pose proof (pow_ge_1 y n Hy) as Hyn.
    assert (H1 : x ^ n - y ^ n <= x * (x ^ n - y ^ n)).
    { assert (0 <= x ^ n - y ^ n).
      { apply Rle_trans with (INR n * (x - y)); [|assumption].
        apply Rmult_le_pos; [apply pos_INR|lra]. }
      nra. }
    assert (H2 : x - y <= (x - y) * y ^ n) by nra.
    lra.
Qed.

(** Two numbers above 1 whose twelfth powers are close are twelve times
    closer. *)
Lemma raiz_cercana a rho delta :
  1 <= a -> 1 <= rho -> Rabs (rho ^ 12 - a ^ 12) <= delta ->
  Rabs (rho - a) <= delta / 12.
Proof.
  intros Ha Hrho Hd. apply Rabs_le_inv in Hd. apply Rabs_le.
  destruct (Rle_lt_dec a rho) as [H|H].
  - pose proof (pow_diferencia rho a 12 (conj Ha H)) as P.
    replace (INR 12) with 12 in P by (simpl; lra). lra.
  - pose proof (pow_diferencia a rho 12 (conj Hrho (Rlt_le _ _ H))) as P.
    replace (INR 12) with 12 in P by (simpl; lra). lra.
Qed.

Lemma pow_doce_ge_1 rho : 0 < rho -> 1 <= rho ^ 12 -> 1 <= rho.
Proof.
  intros Hpos H. destruct (Rle_lt_dec 1 rho) as [|Hlt]; [assumption|].
  exfalso.
  assert (rho ^ 12 < 1); [|lra].
  apply pow_lt_1_compat; [lra|lia].
Qed.

Lemma Rpy_round_entero (k : Z) x :
  IZR k - 1 / 2 < x * 100 < IZR k + 1 / 2 -> Rpy_round x 2 = IZR k / 100.
Proof.
  intros H. unfold Rpy_round.
  replace (10 ^ 2) with 100 by (simpl; lra).
  rewrite (Rround_half_even_eq k); [reflexivity|assumption].
Qed.

(** C6.  The nominal rate -99 goes to the effective annual rate -100 and
    comes back as the monthly rate -100: one whole point away. *)
Lemma ida_y_vuelta_menos_99 :
  tasa_ea (-99) = -100
  /\ tasa_original_mv (tasa_ea (-99)) = Ok (-100)
  /\ ~ Rabs (-100 - -99) <= 1 / 100.
Proof.
  assert (E : tasa_ea (-99) = -100).
  { unfold tasa_ea. rewrite (Rpy_round_entero (-10000)); [lra|].
    simpl pow. lra. }
  split; [exact E|]. split.
  - rewrite E. unfold tasa_original_mv, tasa_mv, py_pow.
    destruct (Rlt_dec (1 + -100 / 100) 0) as [H|_]; [lra|].
    destruct (Req_dec_T (1 + -100 / 100) 0) as [_|H]; [|lra].
    cbn [bind]. rewrite (Rpy_round_entero (-10000)); [f_equal; lra|lra].
  - intros H. apply Rabs_le_inv in H. lra.
Qed.

Lemma Rpy_round_near_1 x : Rabs (Rpy_round x 1 - x) <= 1 / 20.
Proof.
  unfold Rpy_round.
  pose proof (Rround_half_even_near (x * 10 ^ 1)) as H.
  apply Rabs_le_inv in H. apply Rabs_le.
  replace (10 ^ 1) with 10 in * by (simpl; lra).
  lra.
Qed.

Lemma Rpy_round_nonneg_1 x : 0 <= x -> 0 <= Rpy_round x 1.
Proof.
  intros Hx. unfold Rpy_round.
  replace (10 ^ 1) with 10 by (simpl; lra).
  assert (H : (0 <= Rround_half_even (x * 10))%Z)
    by (apply Rround_half_even_nonneg; lra).
  apply IZR_le in H. lra.
Qed.

(** An effective annual rate [e] within [tol] of the exact one comes back
    as a monthly rate within [1/200 + tol/12] of the nominal one. *)
Lemma tasa_original_mv_cerca a e tol :
  1 <= a -> 0 <= e ->
  Rabs (e - (a ^ 12 - 1) * 100) <= tol ->
  exists m, tasa_original_mv e = Ok m
            /\ Rabs (m - (a - 1) * 100) <= 1 / 200 + tol / 12.
Proof.
  intros Ha He Htol. apply Rabs_le_inv in Htol.
  unfold tasa_original_mv, tasa_mv, py_pow.
  destruct (Rlt_dec (1 + e / 100) 0) as [H|_]; [lra|].
  destruct (Req_dec_T (1 + e / 100) 0) as [H|_]; [lra|].
  cbn [bind]. eexists. split; [reflexivity|].
  destruct (raiz_doce (1 + e / 100) ltac:(lra)) as [Hrho Hrho12].
  set (rho := Rpower (1 + e / 100) (30 / 360)) in *.
  assert (Hrho1 : 1 <= rho) by (apply pow_doce_ge_1; [assumption|lra]).
  assert (Hd : Rabs (rho ^ 12 - a ^ 12) <= tol / 100)
    by (apply Rabs_le; lra).
  pose proof (raiz_cercana a rho _ Ha Hrho1 Hd) as Hc.
  apply Rabs_le_inv in Hc.
  pose proof (Rpy_round_near ((rho - 1) * 100)) as Hm.
  apply Rabs_le_inv in Hm. apply Rabs_le. lra.
Qed.

(** C6, as the code has it.  For a nominal rate that is not negative, the
    monthly rate recovered from the effective annual rate is within one
    hundredth of the nominal rate; so it is when the effective annual rate
    is first rounded to one decimal, as the fallback rows of the pipeline
    have it. *)
Theorem ida_y_vuelta r :
  0 <= r ->
  (exists m, tasa_original_mv (tasa_ea r) = Ok m
             /\ Rabs (m - r) <= 1 / 100)
  /\ (exists m, tasa_original_mv (Rpy_round (tasa_ea r) 1) = Ok m
                /\ Rabs (m - r) <= 1 / 100).
Proof.
  intros Hr.
  set (a := r / 100 + 1).
  assert (Ha : 1 <= a) by (unfold a; lra).
  pose proof (pow_ge_1 a 12 Ha) as Ha12.
  pose proof (Rpy_round_near ((a ^ 12 - 1) * 100)) as Hnear.
  pose proof (Rpy_round_nonneg ((a ^ 12 - 1) * 100) ltac:(lra)) as Hpos.
  unfold tasa_ea. fold a.
  set (e := Rpy_round ((a ^ 12 - 1) * 100) 2) in *.
  assert (Er : r = (a - 1) * 100) by (unfold a; lra).
  split.
  - destruct (tasa_original_mv_cerca a e (1 / 200) Ha Hpos Hnear)
      as (m & Em & Hm).
    exists m. split; [exact Em|].
    apply Rabs_le_inv in Hm. apply Rabs_le. lra.
  - pose proof (Rpy_round_near_1 e) as Hnear1.
    pose proof (Rpy_round_nonneg_1 e Hpos) as Hpos1.
    apply Rabs_le_inv in Hnear, Hnear1.
    destruct (tasa_original_mv_cerca a (Rpy_round e 1) (11 / 200) Ha Hpos1)
      as (m & Em & Hm).
    { apply Rabs_le. lra. }
    exists m. split; [exact Em|].
    apply Rabs_le_inv in Hm. apply Rabs_le. lra.
Qed.

Lemma ida_y_vuelta_witness :
  (exists m, tasa_original_mv (tasa_ea 2) = Ok m
             /\ Rabs (m - 2) <= 1 / 100)
  /\ (exists m, tasa_original_mv (Rpy_round (tasa_ea 2) 1) = Ok m
                /\ Rabs (m - 2) <= 1 / 100).
Proof. apply (ida_y_vuelta 2). lra. Defined.

End ConverterProps.

(** *** The rational model agrees with the real one *)

Lemma Q2R_inject_Z z : Q2R (inject_Z z) = IZR z.
Proof.
  unfold Q2R, inject_Z. cbn [Qnum Qden]. rewrite Rinv_1. apply Rmult_1_r.
Qed.

Lemma Zfloor_Q2R x : Zfloor (Q2R x) = Qfloor x.
Proof.
  apply Zfloor_eq. split.
  - rewrite <- Q2R_inject_Z. apply Qle_Rle. apply Qfloor_le.
  - rewrite <- (plus_IZR _ 1), <- Q2R_inject_Z. apply Qlt_Rlt.
    apply Qlt_floor.
Qed.

Lemma Rround_half_even_Q2R x :
  Rround_half_even (Q2R x) = round_half_even x.
Proof.
  unfold Rround_half_even, round_half_even.
  rewrite Zfloor_Q2R.
  assert (Eh : Q2R (1 # 2) = (1 / 2)%R).
  { unfold Q2R. cbn [Qnum Qden]. lra. }
  assert (Ed : Q2R (x - inject_Z (Qfloor x))
               = (Q2R x - IZR (Qfloor x))%R).
  { rewrite Q2R_minus, Q2R_inject_Z. reflexivity. }
  destruct (Qcompare (x - inject_Z (Qfloor x)) (1 # 2)) eqn:C.
  - apply Qeq_alt, Qeq_eqR in C. rewrite Ed, Eh in C.
    destruct (Rlt_dec _ _) as [H|_]; [lra|].
    destruct (Rlt_dec _ _) as [H|_]; [lra|]. reflexivity.
  - apply Qlt_alt, Qlt_Rlt in C. rewrite Ed, Eh in C.
    destruct (Rlt_dec _ _) as [_|H]; [reflexivity|contradiction].
  - apply Qgt_alt, Qlt_Rlt in C. rewrite Ed, Eh in C.
    destruct (Rlt_dec _ _) as [H|_]; [lra|].
    destruct (Rlt_dec _ _) as [_|H]; [reflexivity|contradiction].
Qed.

Lemma Q2R_pow10 n : Q2R (inject_Z (10 ^ Z.of_nat n)) = (10 ^ n)%R.
Proof. rewrite Q2R_inject_Z. symmetry. apply pow_IZR. Qed.

Lemma Q2R_py_round x n : Q2R (py_round x n) = Rpy_round (Q2R x) n.
Proof.
  unfold py_round, Rpy_round.
  rewrite (Qeq_eqR _ _ (Qred_correct _)).
  pose proof (pow10_pos n) as Hp.
  rewrite Q2R_div by lra.
  rewrite Q2R_inject_Z, Q2R_pow10.
  rewrite <- Rround_half_even_Q2R, Q2R_mult, Q2R_pow10. reflexivity.
Qed.

Lemma Q2R_pow x (n : nat) : Q2R (x ^ Z.of_nat n) = (Q2R x ^ n)%R.
Proof.
  induction n as [|n IH].
  - cbn. unfold Q2R. cbn [Qnum Qden]. lra.
  - rewrite Nat2Z.inj_succ, <- Z.add_1_r.
    destruct (Qeq_dec x 0) as [E|E].
    + rewrite (Qeq_eqR _ 0).
      * rewrite (Qeq_eqR x 0 E). unfold Q2R at 1 2; cbn [Qnum Qden pow].
        lra.
      * rewrite E. apply Qpower_0. lia.
    + rewrite (Qeq_eqR _ _ (Qpower_plus _ _ _ E)).
      rewrite Q2R_mult, IH. change (x ^ 1) with x. cbn [pow]. lra.
Qed.

(** The effective annual rate of the pipeline, computed on rationals, is
    the real one. *)
Lemma Q2R_tasa_efectiva_anual q :
  Q2R (tasa_efectiva_anual q) = tasa_ea (Q2R q).
Proof.
  unfold tasa_efectiva_anual, tasa_ea.
  rewrite Q2R_py_round. f_equal.
  rewrite Q2R_mult, Q2R_minus.
  change ((q / 100 + 1) ^ 12) with ((q / 100 + 1) ^ Z.of_nat 12).
  rewrite Q2R_pow, Q2R_plus, Q2R_div by (intros H; discriminate H).
  change 100 with (inject_Z 100). change 1 with (inject_Z 1).
  rewrite !Q2R_inject_Z. reflexivity.
Qed.

Lemma to_effective_annual_Q_eq x :
  py_round (((((x / 100) + 1) ^ 12) - 1) * 100) 2 = to_effective_annual_Q x.
Proof.
  unfold to_effective_annual_Q. apply py_round_comp.
  assert (E : x / 100 + 1 == 1 + x / 100) by ring.
  rewrite E. reflexivity.
Qed.

(** C5.  For a nominal rate above -100 the conversion to the effective
    annual rate is the formula of the contract rounded to two decimals, the
    conversion to the monthly-value rate returns the formula of the
    contract rounded to two decimals and raises nothing, and every
    derivation of the current rate in the pipeline is that same formula
    with that rounding. *)
Theorem conversiones_de_tasa (r : R) :
  (-100 < r)%R ->
  tasa_ea r = to_effective_annual r
  /\ tasa_original_mv r = Ok (to_monthly_value_rate r)
  /\ (forall col : list Q,
        interes_ea_columna col = map to_effective_annual_Q col
        /\ interes_ea_facial col = map to_effective_annual_Q col
        /\ map tasa_efectiva_anual col = map to_effective_annual_Q col)
  /\ (forall q : Q,
        Q2R (to_effective_annual_Q q) = to_effective_annual (Q2R q)).
Proof.
  intros Hr. split; [|split; [|split]].
  - unfold tasa_ea, to_effective_annual. do 4 f_equal. lra.
  - unfold tasa_original_mv, tasa_mv, py_pow, to_monthly_value_rate.
    destruct (Rlt_dec (1 + r / 100) 0) as [H|_]; [lra|].
    destruct (Req_dec_T (1 + r / 100) 0) as [H|_]; [lra|].
    reflexivity.
  - intros col.
    assert (E1 : interes_ea_columna col = map to_effective_annual_Q col).
    { unfold interes_ea_columna. apply map_ext. intros x.
      apply to_effective_annual_Q_eq. }
    split; [exact E1|]. split.
    + unfold interes_ea_facial. rewrite E1, map_map. apply map_ext.
      intros x. unfold to_effective_annual_Q. apply py_round_idem.
    + apply map_ext. intros x. unfold tasa_efectiva_anual.
      apply to_effective_annual_Q_eq.
  - intros q. rewrite <- to_effective_annual_Q_eq.
    change (py_round ((((q / 100 + 1) ^ 12) - 1) * 100) 2)
      with (tasa_efectiva_anual q).
    rewrite Q2R_tasa_efectiva_anual.
    unfold tasa_ea, to_effective_annual. do 4 f_equal. lra.
Qed.

Lemma conversiones_de_tasa_witness :
  tasa_ea 2 = to_effective_annual 2
  /\ tasa_original_mv 2 = Ok (to_monthly_value_rate 2)
  /\ (forall col : list Q,
        interes_ea_columna col = map to_effective_annual_Q col
        /\ interes_ea_facial col = map to_effective_annual_Q col
        /\ map tasa_efectiva_anual col = map to_effective_annual_Q col)
  /\ (forall q : Q,
        Q2R (to_effective_annual_Q q) = to_effective_annual (Q2R q)).
Proof. apply (conversiones_de_tasa 2). lra. Defined.

(** * Further properties *)

(** ** [utils.find_pattern] *)

Lemma prefix_append p : forall s,
  prefix p s = true <-> exists b, s = (p ++ b)%string.
Proof.
  induction p as [|a p IH]; intros s.
  - split; [intros _; exists s; reflexivity|].
    intros _. destruct s; reflexivity.
  - destruct s as [|c s]; cbn [prefix].
    + split; [discriminate|]. intros (b & H). discriminate H.
    + destruct (Ascii.ascii_dec a c) as [->|Hne].
      * rewrite IH. split; intros (b & H); exists b.
        -- cbn. rewrite H. reflexivity.
        -- cbn in H. injection H as H. exact H.
      * split; [discriminate|]. intros (b & H). cbn in H.
        injection H as H1 H2. congruence.
Qed.

(** [contiene] is the substring test. *)
Lemma contiene_spec p : forall s,
  contiene p s = true <-> exists a b, s = (a ++ p ++ b)%string.
Proof.
  induction s as [|c s IH].
  - cbn [contiene]. destruct (prefix p EmptyString) eqn:E.
    + split; [|reflexivity]. intros _.
      apply prefix_append in E. destruct E as (b & E).
      exists EmptyString, b. exact E.
    + split; [discriminate|]. intros (a & b & H).
      assert (Hp : prefix p EmptyString = true); [|congruence].
      apply prefix_append. destruct a; [|discriminate H].
      exists b. exact H.
  - cbn [contiene]. destruct (prefix p (String c s)) eqn:E.
    + split; [|reflexivity]. intros _.
      apply prefix_append in E. destruct E as (b & E).
      exists EmptyString, b. exact E.
    + rewrite IH. split.
      * intros (a & b & H). exists (String c a), b. cbn. rewrite H.
        reflexivity.
      * intros (a & b & H). destruct a as [|c' a].
        -- assert (Hp : prefix p (String c s) = true); [|congruence].
           apply prefix_append. exists b. exact H.
        -- cbn in H. injection H as _ H. exists a, b. exact H.
Qed.

(** X1.  [find_pattern] returns the first string of the list that holds the
    pattern as a substring, and [None] exactly when no string of the list
    holds it. *)
Theorem find_pattern_primero pattern input_list :
  match find_pattern pattern input_list with
  | Some s =>
      exists antes despues,
        input_list = antes ++ s :: despues
        /\ (exists a b, s = (a ++ pattern ++ b)%string)
        /\ forall t, In t antes ->
             ~ exists a b, t = (a ++ pattern ++ b)%string
  | None =>
      forall t, In t input_list ->
        ~ exists a b, t = (a ++ pattern ++ b)%string
  end.
Proof.
  unfold find_pattern.
  induction input_list as [|x l IH]; cbn [find].
  - intros t [].
  - destruct (contiene pattern x) eqn:E.
    + exists [], l. split; [reflexivity|]. split.
      * apply contiene_spec. exact E.
      * intros t [].
    + assert (Hx : ~ exists a b, x = (a ++ pattern ++ b)%string).
      { intros H. apply contiene_spec in H. congruence. }
      destruct (find (contiene pattern) l) as [s|].
      * destruct IH as (antes & despues & -> & Hs & Hantes).
        exists (x :: antes), despues. split; [reflexivity|].
        split; [exact Hs|]. intros t [<-|Ht]; auto.
      * intros t [<-|Ht]; auto.
Qed.

(** ** [utils.reduce_memory_usage] *)














(** ** [utils.ReferenceDate] *)

(** X3.  [get_format_date] raises [InvalidDate] exactly for the mode strings
    other than the four it knows, and returns a formatted date for each of
    the four. *)
Theorem get_format_date_modos strftime ref_date int_date format :
  (get_format_date strftime ref_date int_date format = Raise InvalidDate
   <-> ~ In int_date ["first_date"; "last_date"; "prev_first_date";
                      "prev_last_date"]%string)
  /\ (In int_date ["first_date"; "last_date"; "prev_first_date";
                   "prev_last_date"]%string
      <-> exists f, get_format_date strftime ref_date int_date format
                    = Ok (strftime f format)).
Proof.
  assert (D : {In int_date ["first_date"; "last_date"; "prev_first_date";
                            "prev_last_date"]%string}
              + {~ In int_date ["first_date"; "last_date"; "prev_first_date";
                                "prev_last_date"]%string})
    by (apply in_dec, string_dec).
  destruct D as [Hin|Hout].
  - assert (E : exists f, get_format_date strftime ref_date int_date format
                          = Ok (strftime f format)).
    { cbn [In] in Hin.
      destruct Hin as [<-|[<-|[<-|[<-|[]]]]]; eexists; reflexivity. }
    split; split; try (intros; assumption).
    + destruct E as (f & E). rewrite E. discriminate.
    + intros H. contradiction.
  - pose proof (get_format_date_InvalidDate strftime ref_date int_date
                  format Hout) as E.
    split; split; try (intros; assumption).
    + intros H. contradiction.
    + intros (f & H). rewrite E in H. discriminate.
Qed.

(** X4.  For every calendar date taken as reference, [first_date] is the
    first day of its month, [prev_first_date] the first day of the month
    before and [prev_last_date] the last day of the month before. *)
Theorem fechas_de_referencia f :
  fecha_valida f ->
  first_date f = primer_dia f
  /\ prev_first_date f = primer_dia (mes_anterior f)
  /\ prev_last_date f = ultimo_dia (mes_anterior f).
Proof.
  intros Hf. split; [|split].
  - apply first_date_primer_dia. assumption.
  - apply prev_first_date_primer_dia. assumption.
  - apply prev_last_date_ultimo_dia. assumption.
Qed.

Lemma fechas_de_referencia_witness :
  first_date (2024, 3, 31)%Z = primer_dia (2024, 3, 31)%Z
  /\ prev_first_date (2024, 3, 31)%Z
     = primer_dia (mes_anterior (2024, 3, 31)%Z)
  /\ prev_last_date (2024, 3, 31)%Z
     = ultimo_dia (mes_anterior (2024, 3, 31)%Z).
Proof.
  apply (fechas_de_referencia (2024, 3, 31)%Z).
  cbv. repeat split; discriminate.
Defined.

Lemma iter_suma {A : Type} (g : A -> A) (a b : nat) (x : A) :
  Nat.iter (a + b) g x = Nat.iter a g (Nat.iter b g x).
Proof.
  induction a as [|a IH]; [reflexivity|].
  cbn [Nat.add]. rewrite !Nat.iter_succ, IH. reflexivity.
Qed.

(** Taking away more days than the day of the month, within the month
    before. *)
Lemma restar_mas_que_el_dia y m d k :
  (1 <= d)%Z -> (1 < m)%Z -> (0 <= k < dias_del_mes y (m - 1))%Z ->
  sumar_dias (y, m, d) (- (d + k))
  = (y, (m - 1)%Z, (dias_del_mes y (m - 1) - k)%Z).
Proof.
  intros Hd Hm Hk. unfold sumar_dias.
  destruct (Z.leb_spec 0 (- (d + k))); [lia|].
  rewrite Z.opp_involutive.
  replace (Z.to_nat (d + k)) with (Z.to_nat k + S (Z.to_nat (d - 1)))%nat
    by lia.
  rewrite iter_suma, Nat.iter_succ, iter_dia_anterior by lia.
  replace (d - Z.of_nat (Z.to_nat (d - 1)))%Z with 1%Z by lia.
  unfold dia_anterior at 2.
  destruct (Z.ltb_spec 1 1); [lia|]. destruct (Z.ltb_spec 1 m); [|lia].
  rewrite iter_dia_anterior by lia. f_equal. lia.
Qed.

(** X5.  For every calendar date taken as reference, [last_date] is the last
    day of its month moved back by the number of days by which the day of
    the reference date exceeds the length of the next month: it is the last
    day of the month exactly when that day exists in the next month. *)
Theorem last_date_exacto f :
  fecha_valida f ->
  let exceso :=
    Z.max 0 (dia_de f - dia_de (ultimo_dia (mes_siguiente f))) in
  last_date f
  = (fst (ultimo_dia f), (dia_de (ultimo_dia f) - exceso)%Z)
  /\ (last_date f = ultimo_dia f
      <-> (dia_de f <= dia_de (ultimo_dia (mes_siguiente f)))%Z).
Proof.
  intros Hf exceso.
  assert (E : last_date f
              = (fst (ultimo_dia f), (dia_de (ultimo_dia f) - exceso)%Z)).
  { subst exceso.
    destruct (Z.le_gt_cases (dia_de f)
                (dia_de (ultimo_dia (mes_siguiente f)))) as [Hle|Hgt].
    - rewrite (last_date_ultimo_dia f Hf Hle), Z.max_l by lia.
      destruct f as [[y m] d]. unfold ultimo_dia, dia_de. cbn [fst snd].
      f_equal. lia.
    - rewrite Z.max_r by lia.
      destruct f as [[y m] d]. destruct Hf as [Hm Hd].
      unfold last_date, dia_de, ultimo_dia, mes_siguiente in *.
      cbn [fst snd] in *.
      rewrite sumar_relativedelta_mas_1 by assumption.
      destruct (Z.ltb_spec m 12); cbn [snd] in Hgt.
      + rewrite sumar_relativedelta_dias by lia.
        pose proof (dias_del_mes_pos y (m + 1)).
        pose proof (dias_del_mes_pos y m).
        rewrite !Z.min_l by lia. cbn [snd].
        replace (- d)%Z
          with (- (dias_del_mes y (m + 1) + (d - dias_del_mes y (m + 1))))%Z
          by lia.
        rewrite restar_mas_que_el_dia;
          replace (m + 1 - 1)%Z with m by lia; try lia.
        reflexivity.
      + assert (m = 12%Z) by lia. subst m.
        rewrite sumar_relativedelta_dias by lia.
        pose proof (dias_del_mes_pos (y + 1) 1).
        assert (dias_del_mes y 12 = 31%Z) by reflexivity.
        assert (dias_del_mes (y + 1) 1 = 31%Z) by reflexivity.
        lia. }
  split; [exact E|]. rewrite E. subst exceso.
  destruct f as [[y m] d]. unfold ultimo_dia, dia_de, mes_siguiente.
  cbn [fst snd].
  destruct (m <? 12)%Z; cbn [snd]; split; intros H;
    try (injection H as H); try (f_equal); lia.
Qed.

Lemma last_date_exacto_witness :
  last_date (2023, 1, 31)%Z
  = (fst (ultimo_dia (2023, 1, 31)%Z),
     (dia_de (ultimo_dia (2023, 1, 31)%Z)
      - Z.max 0 (dia_de (2023, 1, 31)%Z
                 - dia_de (ultimo_dia (mes_siguiente (2023, 1, 31)%Z))))%Z)
  /\ (last_date (2023, 1, 31)%Z = ultimo_dia (2023, 1, 31)%Z
      <-> (dia_de (2023, 1, 31)%Z
           <= dia_de (ultimo_dia (mes_siguiente (2023, 1, 31)%Z)))%Z).
Proof.
  apply (last_date_exacto (2023, 1, 31)%Z).
  cbv. repeat split; discriminate.
Defined.

(** ** The window of months scanned by [tasas_originales] *)

Lemma paso_mes_desplazar k st :
  paso_mes (desplazar k st) = desplazar k (paso_mes st).
Proof.
  destruct st as [m y]. unfold paso_mes, desplazar. cbn [fst snd].
  destruct (m - 1 =? 0)%Z; cbn [fst snd]; f_equal; lia.
Qed.

Lemma for_range_desplazar k n : forall st acc,
  for_range n (desplazar k st) (map (desplazar k) acc)
  = (desplazar k (fst (for_range n st acc)),
     map (desplazar k) (snd (for_range n st acc))).
Proof.
  induction n as [|n IH]; intros st acc; [reflexivity|].
  cbn [for_range]. rewrite paso_mes_desplazar.
  replace (map (desplazar k) acc ++ [desplazar k st])
    with (map (desplazar k) (acc ++ [st])) by (rewrite map_app; reflexivity).
  apply IH.
Qed.

Lemma while_meses_desplazar k num_mes anio_final : forall fuel st acc,
  while_meses fuel num_mes (anio_final + k) (desplazar k st)
              (map (desplazar k) acc)
  = option_map (map (desplazar k))
               (while_meses fuel num_mes anio_final st acc).
Proof.
  induction fuel as [|fuel IH]; intros st acc.
  - cbn [while_meses]. unfold desplazar at 1 2. cbn [fst snd].
    replace (anio_final + k <=? snd st + k)%Z with (anio_final <=? snd st)%Z
      by (destruct (Z.leb_spec anio_final (snd st));
          destruct (Z.leb_spec (anio_final + k) (snd st + k)); lia).
    destruct ((1 <=? fst st)%Z && (anio_final <=? snd st)%Z); reflexivity.
  - cbn [while_meses]. unfold desplazar at 1 2. cbn [fst snd].
    replace (anio_final + k <=? snd st + k)%Z with (anio_final <=? snd st)%Z
      by (destruct (Z.leb_spec anio_final (snd st));
          destruct (Z.leb_spec (anio_final + k) (snd st + k)); lia).
    destruct ((1 <=? fst st)%Z && (anio_final <=? snd st)%Z);
      [|reflexivity].
    rewrite for_range_desplazar.
    destruct (for_range (Z.to_nat num_mes) st acc) as [st' acc'].
    cbn [fst snd]. apply IH.
Qed.

(** The scan from a year is the scan from year 0 moved to that year. *)
Lemma meses_escaneados_desplazar num_mes num_anio :
  meses_escaneados num_mes num_anio
  = option_map (map (desplazar num_anio)) (meses_escaneados num_mes 0).
Proof.
  unfold meses_escaneados.
  rewrite <- while_meses_desplazar. cbn [map]. unfold desplazar.
  cbn [fst snd].
  replace (0 - 10 + num_anio)%Z with (num_anio - 10)%Z by lia.
  replace (0 + num_anio)%Z with num_anio by lia. reflexivity.
Qed.

Lemma mes_eqb_eq a b : mes_eqb a b = true <-> a = b.
Proof.
  destruct a, b. unfold mes_eqb. cbn [fst snd].
  rewrite andb_true_iff, !Z.eqb_eq. split; [intros [-> ->]|intros [= -> ->]];
    auto.
Qed.

Lemma existsb_mes_eqb a l : existsb (mes_eqb a) l = true <-> In a l.
Proof.
  rewrite existsb_exists. split.
  - intros (x & Hx & E). apply mes_eqb_eq in E. subst. assumption.
  - intros H. exists a. split; [assumption|]. apply mes_eqb_eq. reflexivity.
Qed.

Lemma sin_repetidos_NoDup l : sin_repetidos l = true -> NoDup l.
Proof.
  induction l as [|a l IH]; cbn [sin_repetidos]; [constructor|].
  rewrite andb_true_iff, negb_true_iff. intros [H1 H2].
  constructor; [|apply IH; assumption].
  intros Hin. apply existsb_mes_eqb in Hin. congruence.
Qed.

Lemma desplazar_inj k a b : desplazar k a = desplazar k b -> a = b.
Proof.
  destruct a, b. unfold desplazar. cbn [fst snd]. intros [= -> H].
  f_equal. lia.
Qed.

Lemma In_desplazar k m y l :
  In (m, y) (map (desplazar k) l) <-> In (m, (y - k)%Z) l.
Proof.
  rewrite in_map_iff. split.
  - intros ([m' y'] & E & Hin). unfold desplazar in E. cbn [fst snd] in E.
    injection E as -> <-. replace (y' + k - k)%Z with y' by lia. assumption.
  - intros Hin. exists (m, (y - k)%Z). split; [|assumption].
    unfold desplazar. cbn [fst snd]. f_equal. lia.
Qed.

Lemma In_meses_de_diez_anios m y :
  (1 <= m <= 12)%Z -> (-10 <= y <= 0)%Z -> In (m, y) meses_de_diez_anios.
Proof.
  intros Hm Hy. unfold meses_de_diez_anios. apply in_prod.
  - apply in_map_iff. exists (Z.to_nat m). split; [lia|].
    apply in_seq. lia.
  - apply in_map_iff. exists (Z.to_nat (y + 10)). split; [lia|].
    apply in_seq. lia.
Qed.

(** What [ventana_correcta] checks, read on the scan moved to a year. *)
Lemma ventana_correcta_spec n num_anio l :
  ventana_correcta n l = true ->
  NoDup (map (desplazar num_anio) l)
  /\ hd_error (map (desplazar num_anio) l) = Some (n, num_anio)
  /\ (forall m y, (1 <= m <= 12)%Z ->
        (num_anio - 10 <= y < num_anio)%Z \/ (y = num_anio /\ (m <= n)%Z) ->
        In (m, y) (map (desplazar num_anio) l))
  /\ (forall m y, In (m, y) (map (desplazar num_anio) l) ->
        (1 <= m <= 12)%Z /\ (num_anio - 11 <= y <= num_anio)%Z)
  /\ Z.of_nat (List.length (map (desplazar num_anio) l))
     = (n * (1 + (120 + n - 1) / n))%Z.
Proof.
  unfold ventana_correcta. rewrite !andb_true_iff.
  intros ((((Hnd & Hhd) & Hval) & Hcub) & Hlen).
  split; [|split; [|split; [|split]]].
  - apply sin_repetidos_NoDup in Hnd. clear -Hnd.
    induction Hnd as [|a l Hna Hnd IH]; cbn [map]; constructor;
      [|assumption].
    intros Hin. apply in_map_iff in Hin. destruct Hin as (b & E & Hb).
    apply desplazar_inj in E. subst b. contradiction.
  - destruct l as [|a l]; [discriminate|]. apply mes_eqb_eq in Hhd.
    subst a. cbn [map hd_error]. unfold desplazar. cbn [fst snd].
    reflexivity.
  - intros m y Hm Hy. apply In_desplazar.
    rewrite forallb_forall in Hcub.
    specialize (Hcub (m, (y - num_anio)%Z)
                  (In_meses_de_diez_anios m (y - num_anio) Hm
                     ltac:(lia))).
    cbn [fst snd] in Hcub.
    assert (E : ((y - num_anio <? 0) || (m <=? n))%Z = true).
    { apply orb_true_iff. destruct Hy as [Hy|[-> Hy]].
      - left. apply Z.ltb_lt. lia.
      - right. apply Z.leb_le. assumption. }
    rewrite E in Hcub. apply existsb_mes_eqb. assumption.
  - intros m y Hin. apply In_desplazar in Hin.
    rewrite forallb_forall in Hval. specialize (Hval _ Hin).
    cbn [fst snd] in Hval. rewrite !andb_true_iff, !Z.leb_le in Hval. lia.
  - rewrite length_map. apply Z.eqb_eq. assumption.
Qed.

(** X6.  For a month number [num_mes] from 1 to 12, the scan of
    [tasas_originales] starts at that month of [num_anio], queries no month
    twice, queries every month back to January of [num_anio - 10], and
    nothing before [num_anio - 11]; it runs in rounds of [num_mes] months,
    so it can pass January of [num_anio - 10] by up to [num_mes - 1]
    months. *)
Theorem meses_escaneados_ventana num_mes num_anio :
  (1 <= num_mes <= 12)%Z ->
  exists meses,
    meses_escaneados num_mes num_anio = Some meses
    /\ NoDup meses
    /\ hd_error meses = Some (num_mes, num_anio)
    /\ (forall m y, (1 <= m <= 12)%Z ->
          (num_anio - 10 <= y < num_anio)%Z
          \/ (y = num_anio /\ (m <= num_mes)%Z) ->
          In (m, y) meses)
    /\ (forall m y, In (m, y) meses ->
          (1 <= m <= 12)%Z /\ (num_anio - 11 <= y <= num_anio)%Z)
    /\ Z.of_nat (List.length meses)
       = (num_mes * (1 + (120 + num_mes - 1) / num_mes))%Z.
Proof.
  intros Hn. rewrite meses_escaneados_desplazar.
  assert (C : exists l, meses_escaneados num_mes 0 = Some l
                        /\ ventana_correcta num_mes l = true).
  { assert (E : (num_mes = 1 \/ num_mes = 2 \/ num_mes = 3 \/ num_mes = 4
                 \/ num_mes = 5 \/ num_mes = 6 \/ num_mes = 7
                 \/ num_mes = 8 \/ num_mes = 9 \/ num_mes = 10
                 \/ num_mes = 11 \/ num_mes = 12)%Z) by lia.
    clear Hn.
    repeat destruct E as [->|E]; try subst num_mes;
      (eexists; split; [vm_compute; reflexivity|vm_compute; reflexivity]). }
  destruct C as (l & El & Hl). rewrite El. cbn [option_map].
  eexists. split; [reflexivity|].
  apply ventana_correcta_spec. assumption.
Qed.

Lemma meses_escaneados_ventana_witness :
  exists meses,
    meses_escaneados 7 2023 = Some meses
    /\ NoDup meses
    /\ hd_error meses = Some (7%Z, 2023%Z)
    /\ (forall m y, (1 <= m <= 12)%Z ->
          (2023 - 10 <= y < 2023)%Z \/ (y = 2023%Z /\ (m <= 7)%Z) ->
          In (m, y) meses)
    /\ (forall m y, In (m, y) meses ->
          (1 <= m <= 12)%Z /\ (2023 - 11 <= y <= 2023)%Z)
    /\ Z.of_nat (List.length meses) = (7 * (1 + (120 + 7 - 1) / 7))%Z.
Proof. apply (meses_escaneados_ventana 7 2023). lia. Defined.

(** ** Outcome, rows and provenance of [tasas_originales] *)



Lemma complete_missing_suma (g : fact_txc -> Q) c :
  Qsum (map (fun f => g (tx f)) (map round_TASA_EA (complete c ++ missing c)))
  == Qsum (map (fun m => g (fst m)) c)
     + Qsum (map (fun m => g (fst m)) (filter sin_tasa c)).
Proof.
  rewrite map_map. cbn [round_TASA_EA tx]. rewrite map_app, Qsum_app.
  unfold complete, missing. rewrite !map_map. cbn [tx].
  induction c as [|m c IH]; [reflexivity|].
  assert (H : isna (merge_FECHA m) = true -> isna (merge_TASA_EA m) = true).
  { unfold merge_FECHA, merge_TASA_EA.
    destruct (snd m); [discriminate|reflexivity]. }
  cbn [filter map]. unfold sin_tasa at 1.
  destruct (isna (merge_FECHA m)), (isna (merge_TASA_EA m));
    cbn [negb andb map]; rewrite ?Qsum_cons;
    try (specialize (H eq_refl); discriminate); lra.
Qed.



(** X8.  When the rows of the month that join have numeric kinds, so that
    the cast of the kinds passes, the rows returned by [tasas_originales]
    are those of the month's table and no others; a row is returned twice exactly when it joins a
    reference row without rate, so that the number of rows and the total
    balance returned exceed those of the month's table by the number and
    the balance of these rows. *)
Theorem tasas_originales_filas siet maestro num_mes num_anio :
  (1 <= num_mes)%Z ->
  unique_keys (map llave siet) = true ->
  tipos_numericos siet maestro = true ->
  exists meses out,
    meses_escaneados num_mes num_anio = Some meses
    /\ tasas_originales siet maestro num_mes num_anio = Some (Ok out)
    /\ (forall a, In a siet <-> In a (map tx out))
    /\ List.length out
       = (List.length siet
          + List.length
              (filter sin_tasa
                 (cruce_mes_left siet (escaneo siet maestro meses))))%nat
    /\ Qsum (map (fun f => saldo_actual_trasaccion (tx f)) out)
       == Qsum (map saldo_actual_trasaccion siet)
          + Qsum (map (fun m => saldo_actual_trasaccion (fst m))
                    (filter sin_tasa
                       (cruce_mes_left siet (escaneo siet maestro meses)))).
Proof.
  intros Hn Hu Ht.
  destruct (tasas_originales_Ok siet maestro num_mes num_anio Hn Hu Ht)
    as (meses & Em & E).
  exists meses. eexists. split; [exact Em|]. split; [exact E|].
  split; [|split].
  - intros a. split.
    + intros Ha. apply complete_missing_all. rewrite cruce_mes_left_fst.
      assumption.
    + intros Ha. apply in_map_iff in Ha. destruct Ha as (f & <- & Hf).
      apply complete_missing_de in Hf. rewrite cruce_mes_left_fst in Hf.
      assumption.
  - rewrite length_map, complete_missing_length, cruce_mes_left_length.
    reflexivity.
  - rewrite (complete_missing_suma saldo_actual_trasaccion).
    rewrite <- (map_map fst saldo_actual_trasaccion), cruce_mes_left_fst.
    reflexivity.
Qed.

Lemma tasas_originales_filas_witness :
  exists meses out,
    meses_escaneados 5 2023 = Some meses
    /\ tasas_originales
         [tx_ejemplo "0" 2 3; tx_ejemplo "1" (3 # 2) 1]
         [maestro_ejemplo 3 None] 5 2023 = Some (Ok out)
    /\ (forall a, In a [tx_ejemplo "0" 2 3; tx_ejemplo "1" (3 # 2) 1]
                  <-> In a (map tx out))
    /\ List.length out
       = (List.length [tx_ejemplo "0" 2 3; tx_ejemplo "1" (3 # 2) 1]
          + List.length
              (filter sin_tasa
                 (cruce_mes_left
                    [tx_ejemplo "0" 2 3; tx_ejemplo "1" (3 # 2) 1]
                    (escaneo [tx_ejemplo "0" 2 3; tx_ejemplo "1" (3 # 2) 1]
                       [maestro_ejemplo 3 None] meses))))%nat
    /\ Qsum (map (fun f => saldo_actual_trasaccion (tx f)) out)
       == Qsum (map saldo_actual_trasaccion
                  [tx_ejemplo "0" 2 3; tx_ejemplo "1" (3 # 2) 1])
          + Qsum (map (fun m => saldo_actual_trasaccion (fst m))
                    (filter sin_tasa
                       (cruce_mes_left
                          [tx_ejemplo "0" 2 3; tx_ejemplo "1" (3 # 2) 1]
                          (escaneo
                             [tx_ejemplo "0" 2 3; tx_ejemplo "1" (3 # 2) 1]
                             [maestro_ejemplo 3 None] meses)))).
Proof.
  apply (tasas_originales_filas
           [tx_ejemplo "0" 2 3; tx_ejemplo "1" (3 # 2) 1]
           [maestro_ejemplo 3 None] 5 2023);
    [lia | reflexivity | reflexivity].
Defined.





(** ** Totals and order of the frame returned by [saldo_to_mes] *)

Lemma Qle_bool_false a b : Qle_bool a b = false -> b < a.
Proof.
  intros E. destruct (Qlt_le_dec b a) as [H|H]; [assumption|].
  apply Qle_bool_iff in H. congruence.
Qed.

Lemma insertar_desc_Forall (P : Q -> Prop) x l :
  P (snd x) -> Forall P (map snd l) -> Forall P (map snd (insertar_desc x l)).
Proof.
  intros Hx. induction l as [|y l IH]; cbn [insertar_desc map]; intros Hl.
  - constructor; [assumption|constructor].
  - inversion Hl as [|? ? Hy Hl']; subst.
    destruct (Qle_bool (snd y) (snd x)); cbn [map].
    + constructor; [assumption|]. constructor; assumption.
    + constructor; [assumption|]. apply IH. assumption.
Qed.

Lemma insertar_desc_descendente x l :
  descendente (map snd l) -> descendente (map snd (insertar_desc x l)).
Proof.
  induction l as [|y l IH]; cbn [insertar_desc map descendente].
  - intros _. split; [constructor|exact I].
  - intros [Hy Hl]. destruct (Qle_bool (snd y) (snd x)) eqn:E;
      cbn [map descendente].
    + apply Qle_bool_iff in E. split; [|split; assumption].
      constructor; [assumption|].
      eapply Forall_impl; [|exact Hy]. cbn beta. intros z Hz. lra.
    + apply Qle_bool_false in E. split; [|apply IH; assumption].
      apply insertar_desc_Forall; [lra|assumption].
Qed.

Lemma sort_desc_descendente l : descendente (map snd (sort_desc l)).
Proof.
  unfold sort_desc. induction l as [|x l IH]; cbn [fold_right].
  - exact I.
  - apply insertar_desc_descendente. assumption.
Qed.

Lemma map_sr_saldo_saldo_sr tipo per filas :
  map sr_saldo (saldo_sr tipo per filas)
  = map snd (sort_desc (groupby_sum filas)).
Proof. unfold saldo_sr. rewrite map_map. reflexivity. Qed.

Lemma Qsum_filas_to df :
  Qsum (map snd (filas_to df))
  == Qsum (map (fun r => saldo_actual_trasaccion (tx r))
               (filter (fun r => negb (isna (TASA_EA r))) df)).
Proof.
  unfold filas_to. induction df as [|r df IH]; [reflexivity|].
  cbn [flat_map filter]. destruct (TASA_EA r); cbn [isna negb app map snd].
  - rewrite !Qsum_cons, IH. reflexivity.
  - exact IH.
Qed.

(** X10.  The frame returned by [saldo_to_mes] keeps the balance of the
    month: its rows of type "Tasa actual" add up to the balance of all the
    rows received, its rows of type "Tasa original" to the balance of the
    rows that carry an original rate; the rows of each type come in
    decreasing order of balance, those of the current rate first. *)
Theorem saldo_to_mes_totales df :
  df <> [] ->
  exists saldo_sinRango saldo_cr_to saldo_conRango,
    saldo_to_mes df = Ok (saldo_sinRango, saldo_cr_to, saldo_conRango)
    /\ Qsum (map sr_saldo (de_tipo "Tasa actual" saldo_sinRango))
       == Qsum (map (fun r => saldo_actual_trasaccion (tx r)) df)
    /\ Qsum (map sr_saldo (de_tipo "Tasa original" saldo_sinRango))
       == Qsum (map (fun r => saldo_actual_trasaccion (tx r))
                    (filter (fun r => negb (isna (TASA_EA r))) df))
    /\ descendente (map sr_saldo (de_tipo "Tasa actual" saldo_sinRango))
    /\ descendente (map sr_saldo (de_tipo "Tasa original" saldo_sinRango))
    /\ saldo_sinRango
       = de_tipo "Tasa actual" saldo_sinRango
         ++ de_tipo "Tasa original" saldo_sinRango.
Proof.
  intros Hne. destruct (primer_periodo_Ok df Hne) as (per & Eper).
  unfold saldo_to_mes. rewrite Eper. cbn [bind].
  do 3 eexists. split; [reflexivity|].
  rewrite !de_tipo_app, !de_tipo_saldo_sr.
  cbn [String.eqb Ascii.eqb Bool.eqb app]. rewrite app_nil_r.
  split; [|split; [|split; [|split]]].
  - rewrite saldo_sr_total. unfold filas_ta. rewrite map_map. reflexivity.
  - rewrite saldo_sr_total. apply Qsum_filas_to.
  - rewrite map_sr_saldo_saldo_sr. apply sort_desc_descendente.
  - rewrite map_sr_saldo_saldo_sr. apply sort_desc_descendente.
  - reflexivity.
Qed.

Lemma saldo_to_mes_totales_witness :
  exists saldo_sinRango saldo_cr_to saldo_conRango,
    saldo_to_mes [cruce_ejemplo (10004 # 10) (Some 30) 2;
                  cruce_ejemplo 500 (Some 30) (3 # 2);
                  cruce_ejemplo 200 None 2;
                  cruce_ejemplo 700 (Some (268 # 10)) 2]
    = Ok (saldo_sinRango, saldo_cr_to, saldo_conRango)
    /\ Qsum (map sr_saldo (de_tipo "Tasa actual" saldo_sinRango))
       == Qsum (map (fun r => saldo_actual_trasaccion (tx r))
                    [cruce_ejemplo (10004 # 10) (Some 30) 2;
                     cruce_ejemplo 500 (Some 30) (3 # 2);
                     cruce_ejemplo 200 None 2;
                     cruce_ejemplo 700 (Some (268 # 10)) 2])
    /\ Qsum (map sr_saldo (de_tipo "Tasa original" saldo_sinRango))
       == Qsum (map (fun r => saldo_actual_trasaccion (tx r))
                    (filter (fun r => negb (isna (TASA_EA r)))
                       [cruce_ejemplo (10004 # 10) (Some 30) 2;
                        cruce_ejemplo 500 (Some 30) (3 # 2);
                        cruce_ejemplo 200 None 2;
                        cruce_ejemplo 700 (Some (268 # 10)) 2]))
    /\ descendente (map sr_saldo (de_tipo "Tasa actual" saldo_sinRango))
    /\ descendente (map sr_saldo (de_tipo "Tasa original" saldo_sinRango))
    /\ saldo_sinRango
       = de_tipo "Tasa actual" saldo_sinRango
         ++ de_tipo "Tasa original" saldo_sinRango.
Proof.
  apply (saldo_to_mes_totales
           [cruce_ejemplo (10004 # 10) (Some 30) 2;
            cruce_ejemplo 500 (Some 30) (3 # 2);
            cruce_ejemplo 200 None 2;
            cruce_ejemplo 700 (Some (268 # 10)) 2]).
  discriminate.
Defined.

(** ** The bands of [pd.cut] *)

Lemma cut_idx_spec x : forall bins i j,
  cut_idx bins x i = Some j ->
  (i <= j)%nat
  /\ borde_ltb (nth (j - i) bins INF) x = true
  /\ borde_geb (nth (S (j - i)) bins NINF) x = true.
Proof.
  induction bins as [|lo bins IH]; intros i j H; [discriminate|].
  destruct bins as [|hi rest]; [discriminate|].
  cbn [cut_idx] in H.
  destruct (borde_ltb lo x && borde_geb hi x) eqn:E.
  - injection H as <-. apply andb_true_iff in E.
    rewrite Nat.sub_diag. cbn [nth]. split; [lia|exact E].
  - apply IH in H. destruct H as (Hij & H1 & H2).
    split; [lia|].
    replace (j - i)%nat with (S (j - S i)) by lia.
    cbn [nth] in *. split; assumption.
Qed.

Lemma cut_idx_ranges x :
  exists i, cut_idx ranges x 0 = Some i
            /\ (i <= 12)%nat
            /\ borde_ltb (nth i ranges INF) x = true
            /\ borde_geb (nth (S i) ranges NINF) x = true.
Proof.
  destruct (cut_idx_total x (tl ranges) NINF 0%nat eq_refl eq_refl)
    as (j & Ej & Hj).
  change (NINF :: tl ranges) with ranges in Ej.
  cbn [tl ranges List.length] in Hj.
  exists j. split; [exact Ej|]. split; [lia|].
  apply cut_idx_spec in Ej. rewrite Nat.sub_0_r in Ej. tauto.
Qed.

Lemma banda_casos i : (i <= 12)%nat -> In i (seq 0 13).
Proof. intros H. apply in_seq. lia. Qed.

Ltac casos_de_banda Hi :=
  apply banda_casos in Hi; cbn [seq In] in Hi;
  repeat (destruct Hi as [Hi|Hi]; [subst|]); try contradiction.

Ltac leer_bordes :=
  repeat match goal with
         | H : borde_ltb _ _ = true |- _ =>
             cbn [nth ranges borde_ltb] in H;
             first [apply Qltb_true in H | clear H | discriminate H]
         | H : borde_geb _ _ = true |- _ =>
             cbn [nth ranges borde_geb] in H;
             first [apply Qle_bool_iff in H | clear H | discriminate H]
         end.

(** X11.  [pd.cut] with the bins of [saldo_to_mes] is monotone: a higher
    rate never falls in a lower band.  The first band, labelled "a. 0%",
    holds exactly the rates that are not positive, negative ones included,
    and the last band, labelled "m. >30%", exactly the rates above 30. *)
Theorem pd_cut_monotono x y :
  exists i j,
    cut_idx ranges x 0 = Some i
    /\ cut_idx ranges y 0 = Some j
    /\ pd_cut x = nth_error grupo_tasas i
    /\ pd_cut y = nth_error grupo_tasas j
    /\ (x <= y -> (i <= j)%nat)
    /\ (pd_cut x = Some "a. 0%"%string <-> x <= 0)
    /\ (pd_cut x = Some "m. >30%"%string <-> 30 < x).
Proof.
  destruct (cut_idx_ranges x) as (i & Ei & Hi & Li & Gi).
  destruct (cut_idx_ranges y) as (j & Ej & Hj & Lj & Gj).
  exists i, j. unfold pd_cut. rewrite Ei, Ej.
  split; [reflexivity|]. split; [reflexivity|].
  split; [reflexivity|]. split; [reflexivity|].
  split; [|split].
  - intros Hxy. clear Ei Ej Gi Lj.
    destruct (le_lt_dec i j) as [H|H]; [assumption|exfalso].
    casos_de_banda Hi; casos_de_banda Hj; try lia; clear H;
      leer_bordes; lra.
  - clear Ei Ej Lj Gj Hj. split.
    + intros E. casos_de_banda Hi; try discriminate E.
      leer_bordes. lra.
    + intros Hx. casos_de_banda Hi; try reflexivity; exfalso;
        leer_bordes; lra.
  - clear Ei Ej Lj Gj Hj. split.
    + intros E. casos_de_banda Hi; try discriminate E.
      leer_bordes. lra.
    + intros Hx. casos_de_banda Hi; try reflexivity; exfalso;
        leer_bordes; lra.
Qed.

(** ** Sign and monotonicity of the sensitivity *)

Lemma Qmult_le_compat_nonneg s a b : 0 <= s -> a <= b -> s * a <= s * b.
Proof.
  intros Hs Hab. rewrite !(Qmult_comm s).
  apply Qmult_le_compat_r; assumption.
Qed.

Lemma tasa_final_monotona u1 u2 orig :
  u1 <= u2 -> tasa_final u1 orig <= tasa_final u2 orig.
Proof.
  intros H. unfold tasa_final.
  destruct (Qle_bool orig u1) eqn:E1; destruct (Qle_bool orig u2) eqn:E2;
    try apply Qle_bool_iff in E1; try apply Qle_bool_iff in E2;
    try apply Qle_bool_false in E1; try apply Qle_bool_false in E2; lra.
Qed.

Lemma tasa_final_cota T u orig : T < orig -> T <= u -> T <= tasa_final u orig.
Proof.
  intros H1 H2. unfold tasa_final.
  destruct (Qle_bool orig u); lra.
Qed.

Lemma saldo_exp_bajada_cons m r df_mes :
  saldo_exp_bajada Qsum m (r :: df_mes)
  == (if Qgeb (interes_ea r) m then saldo r else 0)
     + saldo_exp_bajada Qsum m df_mes.
Proof.
  unfold saldo_exp_bajada. cbn [filter].
  destruct (Qgeb (interes_ea r) m); cbn [map]; rewrite ?Qsum_cons; ring.
Qed.

Lemma subida_usura_cons T u r df_mes :
  fst (subida_usura Qsum T u (r :: df_mes))
  == (if sobre_umbral T r then saldo r else 0)
     + fst (subida_usura Qsum T u df_mes)
  /\ snd (subida_usura Qsum T u (r :: df_mes))
     == (if sobre_umbral T r
         then fmul (saldo r)
                (fdiv (fsub (tasa_final u (tasa_original_de r))
                            (interes_ea r)) 100)
         else 0)
        + snd (subida_usura Qsum T u df_mes).
Proof.
  unfold subida_usura. cbn [fst snd]. rewrite df_exp_subida_cons.
  unfold sobre_umbral, tasa_original_de.
  destruct (tasa_ea_original r) as [v|]; [destruct (Qgtb v T)|];
    cbn [app map]; rewrite ?Qsum_cons; split; ring.
Qed.

(** The impact of one row on a rise does not shrink when the final rate
    grows. *)
Lemma impacto_fila_monotono s a b ea :
  0 <= s -> a <= b ->
  fmul s (fdiv (fsub a ea) 100) <= fmul s (fdiv (fsub b ea) 100).
Proof.
  intros Hs Hab. unfold fmul, fdiv, fsub.
  apply doble_monotona, Qmult_le_compat_nonneg; [assumption|].
  apply doble_monotona. unfold Qdiv.
  apply Qmult_le_compat_r; [|discriminate].
  apply doble_monotona. lra.
Qed.

Lemma impacto_fila_nonneg s a ea :
  0 <= s -> ea <= a -> 0 <= fmul s (fdiv (fsub a ea) 100).
Proof.
  intros Hs Ha. unfold fmul, fdiv, fsub.
  apply doble_nonneg, Qmult_le_0_compat; [assumption|].
  apply doble_nonneg. unfold Qdiv.
  apply Qmult_le_0_compat; [|discriminate].
  apply doble_nonneg. lra.
Qed.

(** X12.  With the columns summed exactly, on balances that are not
    negative: the balance exposed to a fall of the usury rate lies between
    0 and the balance of the month and does not shrink when the fall grows;
    the balance exposed to a rise depends on the usury rate of the month
    only, and the impact of the rise does not shrink when the rise grows;
    and when no current rate is above the usury rate the impact of a rise
    is not negative. *)
Theorem sensibilidad_monotona T df_mes :
  Forall (fun r => 0 <= saldo r) df_mes ->
  (forall m1 m2, m1 <= m2 ->
     saldo_exp_bajada Qsum m2 df_mes <= saldo_exp_bajada Qsum m1 df_mes)
  /\ (forall m, 0 <= saldo_exp_bajada Qsum m df_mes
                /\ saldo_exp_bajada Qsum m df_mes <= Qsum (map saldo df_mes))
  /\ (forall u1 u2, u1 <= u2 ->
        fst (subida_usura Qsum T u1 df_mes)
        == fst (subida_usura Qsum T u2 df_mes)
        /\ snd (subida_usura Qsum T u1 df_mes)
           <= snd (subida_usura Qsum T u2 df_mes))
  /\ (forall u, T <= u ->
        Forall (fun r => interes_ea r <= T) df_mes ->
        0 <= snd (subida_usura Qsum T u df_mes)).
Proof.
  intros Hs. split; [|split; [|split]].
  - intros m1 m2 Hm.
    induction Hs as [|r df_mes Hr _ IH]; [cbn; lra|].
    rewrite !saldo_exp_bajada_cons. unfold Qgeb.
    destruct (Qle_bool m2 (interes_ea r)) eqn:E2;
      destruct (Qle_bool m1 (interes_ea r)) eqn:E1;
      try apply Qle_bool_iff in E1; try apply Qle_bool_iff in E2;
      try apply Qle_bool_false in E1; try apply Qle_bool_false in E2; lra.
  - intros m.
    induction Hs as [|r df_mes Hr _ IH]; [cbn; lra|].
    rewrite saldo_exp_bajada_cons. cbn [map]. rewrite Qsum_cons.
    destruct (Qgeb (interes_ea r) m); lra.
  - intros u1 u2 Hu.
    induction Hs as [|r df_mes Hr _ [IH1 IH2]]; [cbn; split; lra|].
    destruct (subida_usura_cons T u1 r df_mes) as [A1 B1].
    destruct (subida_usura_cons T u2 r df_mes) as [A2 B2].
    rewrite A1, A2, B1, B2. split; [rewrite IH1; reflexivity|].
    destruct (sobre_umbral T r); [|lra].
    pose proof (tasa_final_monotona u1 u2 (tasa_original_de r) Hu) as Ht.
    apply Qplus_le_compat; [|assumption].
    apply impacto_fila_monotono; assumption.
  - intros u Hu Hea.
    induction Hs as [|r df_mes Hr _ IH]; [cbn; lra|].
    inversion Hea as [|? ? Her Hea']; subst.
    destruct (subida_usura_cons T u r df_mes) as [_ B]. rewrite B.
    specialize (IH Hea').
    destruct (sobre_umbral T r) eqn:Eu; [|lra].
    assert (Ho : T < tasa_original_de r).
    { unfold sobre_umbral, tasa_original_de in *.
      destruct (tasa_ea_original r); [|discriminate].
      apply Qgtb_true. assumption. }
    pose proof (tasa_final_cota T u (tasa_original_de r) Ho Hu) as Ht.
    assert (0 <= fmul (saldo r)
                   (fdiv (fsub (tasa_final u (tasa_original_de r))
                               (interes_ea r)) 100))
      by (apply impacto_fila_nonneg; [assumption|lra]).
    lra.
Qed.

Lemma sensibilidad_monotona_witness :
  (forall m1 m2, m1 <= m2 ->
     saldo_exp_bajada Qsum m2
       [mk_fila_mes 1000 (Some 30) 25; mk_fila_mes 500 None 27]
     <= saldo_exp_bajada Qsum m1
          [mk_fila_mes 1000 (Some 30) 25; mk_fila_mes 500 None 27])
  /\ (forall m,
        0 <= saldo_exp_bajada Qsum m
               [mk_fila_mes 1000 (Some 30) 25; mk_fila_mes 500 None 27]
        /\ saldo_exp_bajada Qsum m
             [mk_fila_mes 1000 (Some 30) 25; mk_fila_mes 500 None 27]
           <= Qsum (map saldo
                      [mk_fila_mes 1000 (Some 30) 25;
                       mk_fila_mes 500 None 27]))
  /\ (forall u1 u2, u1 <= u2 ->
        fst (subida_usura Qsum 28 u1
               [mk_fila_mes 1000 (Some 30) 25; mk_fila_mes 500 None 27])
        == fst (subida_usura Qsum 28 u2
                  [mk_fila_mes 1000 (Some 30) 25; mk_fila_mes 500 None 27])
        /\ snd (subida_usura Qsum 28 u1
                  [mk_fila_mes 1000 (Some 30) 25; mk_fila_mes 500 None 27])
           <= snd (subida_usura Qsum 28 u2
                     [mk_fila_mes 1000 (Some 30) 25;
                      mk_fila_mes 500 None 27]))
  /\ (forall u, 28 <= u ->
        Forall (fun r => interes_ea r <= 28)
               [mk_fila_mes 1000 (Some 30) 25; mk_fila_mes 500 None 27] ->
        0 <= snd (subida_usura Qsum 28 u
                    [mk_fila_mes 1000 (Some 30) 25;
                     mk_fila_mes 500 None 27])).
Proof.
  apply (sensibilidad_monotona 28
           [mk_fila_mes 1000 (Some 30) 25; mk_fila_mes 500 None 27]).
  repeat constructor; cbn [saldo]; lra.
Defined.

(** ** The check of the columns, for frames of any width *)

Lemma columnas_iguales_resultado a : forall b,
  columnas_iguales a b 0
  = if (List.length b <? List.length a)%nat then Raise IndexError
    else Ok (map (fun xy => String.eqb (fst xy) (snd xy)) (combine a b)).
Proof.
  induction a as [|x a IH]; intros b; [reflexivity|].
  destruct b as [|y b]; [reflexivity|].
  cbn [columnas_iguales nth_error].
  rewrite columnas_iguales_skipn. cbn [skipn]. rewrite IH.
  cbn [List.length]. change (S (List.length b) <? S (List.length a))%nat
    with (List.length b <? List.length a)%nat.
  destruct (List.length b <? List.length a)%nat; reflexivity.
Qed.

Lemma todas_iguales_prefijo a : forall b,
  (List.length a <= List.length b)%nat ->
  forallb (fun x => x)
          (map (fun xy => String.eqb (fst xy) (snd xy)) (combine a b)) = true
  <-> a = firstn (List.length a) b.
Proof.
  induction a as [|x a IH]; intros b Hlen.
  - split; reflexivity.
  - destruct b as [|y b]; [cbn in Hlen; lia|].
    cbn [combine map forallb fst snd List.length firstn].
    rewrite andb_true_iff, String.eqb_eq.
    rewrite IH by (cbn in Hlen; lia).
    split; [intros [-> <-]; reflexivity|intros [= -> E]; auto].
Qed.

(** X13.  The outcome of the check of the columns for frames of any width.
    It raises IndexError when the historical frame has fewer columns than
    the computed one; otherwise it raises AssertionError exactly when the
    computed columns are the first columns of the historical frame, in
    order, and passes when they are not.  Columns of the historical frame
    beyond the width of the computed one are never looked at. *)
Theorem validar_columnas_resultado a b :
  validar_columnas a b
  = if (List.length b <? List.length a)%nat then Raise IndexError
    else if list_eq_dec string_dec a (firstn (List.length a) b)
    then Raise AssertionError
    else Ok tt.
Proof.
  unfold validar_columnas. rewrite columnas_iguales_resultado.
  destruct (Nat.ltb_spec (List.length b) (List.length a)) as [H|H];
    [reflexivity|].
  cbn [bind]. pose proof (todas_iguales_prefijo a b H) as P.
  destruct (list_eq_dec string_dec a (firstn (List.length a) b)) as [E|E].
  - apply P in E. rewrite E. reflexivity.
  - destruct (forallb _ _); [|reflexivity].
    exfalso. apply E. apply P. reflexivity.
Qed.

(** ** The historical step on the frame of [saldo_to_mes] *)

Lemma agregar_no_vacio k v g : agregar k v g <> [].
Proof.
  destruct g as [|[k' v'] g]; cbn [agregar]; [discriminate|].
  destruct (Qcompare k k'); discriminate.
Qed.

Lemma groupby_sum_no_vacio filas : filas <> [] -> groupby_sum filas <> [].
Proof.
  unfold groupby_sum. destruct filas as [|kv filas]; [contradiction|].
  intros _. cbn [fold_left].
  assert (G : forall l g, g <> [] ->
                fold_left (fun g kv => agregar (fst kv) (snd kv) g) l g <> []).
  { induction l as [|x l IH]; intros g Hg; [exact Hg|].
    cbn [fold_left]. apply IH. apply agregar_no_vacio. }
  apply G. apply agregar_no_vacio.
Qed.

Lemma insertar_desc_no_vacio x l : insertar_desc x l <> [].
Proof.
  destruct l as [|y l]; cbn [insertar_desc]; [discriminate|].
  destruct (Qle_bool (snd y) (snd x)); discriminate.
Qed.

Lemma sort_desc_no_vacio l : l <> [] -> sort_desc l <> [].
Proof.
  destruct l as [|x l]; [contradiction|]. intros _.
  unfold sort_desc. cbn [fold_right]. apply insertar_desc_no_vacio.
Qed.

Lemma saldo_sr_mes tipo per filas :
  Forall (fun f => mes f = per) (saldo_sr tipo per filas).
Proof.
  unfold saldo_sr. apply Forall_map, Forall_forall. intros kv _. reflexivity.
Qed.

(** X14.  [afectacion_historica_estimada] on the frame returned by
    [saldo_to_mes] for the same month, the sequence of calls written in
    [ejecucion_procesamiento_tc].  For a month with at least one row both
    steps return; the historical step writes one row,
    whose period is the period of the first row of the month, whose capital
    balance, with the columns summed exactly, is the balance of all the
    rows of the month, and whose usury rate and variation are the rate
    received and the difference of the two rates, taken on doubles and
    rounded to two decimals. *)
Theorem historica_sobre_saldo_to_mes df usura usura_siguiente :
  df <> [] ->
  exists saldo_sinRango saldo_cr_to saldo_conRango per h,
    saldo_to_mes df = Ok (saldo_sinRango, saldo_cr_to, saldo_conRango)
    /\ primer_periodo df = Ok per
    /\ afectacion_historica_estimada Qsum df saldo_sinRango usura
         usura_siguiente
       = Ok [h]
    /\ h_periodo h = per
    /\ saldo_capital h
       == Qsum (map (fun r => saldo_actual_trasaccion (tx r)) df)
    /\ tasa_usura h = usura
    /\ variacion_usura h = np_round (fsub usura_siguiente usura) 2.
Proof.
  intros Hne. destruct (primer_periodo_Ok df Hne) as (per & Eper).
  remember (saldo_sr "Tasa actual" per (filas_ta df)) as ta eqn:Eta.
  remember (saldo_sr "Tasa original" per (filas_to df)) as to eqn:Eto.
  exists (ta ++ to), (saldo_cr (map con_rango to)),
    (map con_rango ta ++ map con_rango to), per.
  assert (Et : de_tipo "Tasa actual" (ta ++ to) = ta).
  { subst ta to. rewrite de_tipo_app, !de_tipo_saldo_sr.
    cbn [String.eqb Ascii.eqb Bool.eqb]. apply app_nil_r. }
  assert (Hta : ta <> []).
  { subst ta. unfold saldo_sr. intros E. apply map_eq_nil in E. revert E.
    apply sort_desc_no_vacio, groupby_sum_no_vacio.
    unfold filas_ta. destruct df; [contradiction|discriminate]. }
  assert (Hmes : Forall (fun f => mes f = per) ta)
    by (subst ta; apply saldo_sr_mes).
  assert (Hsum : Qsum (map sr_saldo ta)
                 == Qsum (map (fun r => saldo_actual_trasaccion (tx r)) df)).
  { subst ta. rewrite saldo_sr_total. unfold filas_ta. rewrite map_map.
    reflexivity. }
  assert (Es : saldo_to_mes df
               = Ok (ta ++ to, saldo_cr (map con_rango to),
                     map con_rango ta ++ map con_rango to)).
  { unfold saldo_to_mes. rewrite Eper. cbn [bind]. subst ta to.
    reflexivity. }
  unfold afectacion_historica_estimada. rewrite Et, Eper.
  clear Eta Eto Et.
  destruct ta as [|f0 resto]; [contradiction|].
  cbn [bind]. inversion Hmes as [|? ? Hf0 _]; subst.
  unfold exposicion_historica.
  set (s := fsub usura_siguiente usura).
  destruct (Q_dec s 0) as [[H|H]|H].
  - destruct (signo_neg s H) as (-> & -> & -> & _).
    cbn [app map]. eexists. split; [exact Es|]. split; [reflexivity|].
    split; [reflexivity|].
    cbn [h_periodo saldo_capital tasa_usura variacion_usura].
    repeat split; try reflexivity; assumption.
  - destruct (signo_pos s H) as (-> & -> & -> & _).
    destruct (subida_usura Qsum usura (fadd usura (Qabs s)) (df_mes_de df))
      as [e i].
    cbn [app map]. eexists. split; [exact Es|]. split; [reflexivity|].
    split; [reflexivity|].
    cbn [h_periodo saldo_capital tasa_usura variacion_usura].
    repeat split; try reflexivity; assumption.
  - destruct (signo_cero s H) as (-> & -> & -> & _).
    cbn [app map]. eexists. split; [exact Es|]. split; [reflexivity|].
    split; [reflexivity|].
    cbn [h_periodo saldo_capital tasa_usura variacion_usura].
    repeat split; try reflexivity; assumption.
Qed.

Lemma historica_sobre_saldo_to_mes_witness :
  exists saldo_sinRango saldo_cr_to saldo_conRango per h,
    saldo_to_mes [cruce_ejemplo (10004 # 10) (Some 30) 2;
                  cruce_ejemplo 500 None (3 # 2)]
    = Ok (saldo_sinRango, saldo_cr_to, saldo_conRango)
    /\ primer_periodo [cruce_ejemplo (10004 # 10) (Some 30) 2;
                       cruce_ejemplo 500 None (3 # 2)] = Ok per
    /\ afectacion_historica_estimada Qsum
         [cruce_ejemplo (10004 # 10) (Some 30) 2;
          cruce_ejemplo 500 None (3 # 2)]
         saldo_sinRango (275 # 10) (28 # 1)
       = Ok [h]
    /\ h_periodo h = per
    /\ saldo_capital h
       == Qsum (map (fun r => saldo_actual_trasaccion (tx r))
                    [cruce_ejemplo (10004 # 10) (Some 30) 2;
                     cruce_ejemplo 500 None (3 # 2)])
    /\ tasa_usura h = 275 # 10
    /\ variacion_usura h = np_round (fsub (28 # 1) (275 # 10)) 2.
Proof.
  apply (historica_sobre_saldo_to_mes
           [cruce_ejemplo (10004 # 10) (Some 30) 2;
            cruce_ejemplo 500 None (3 # 2)] (275 # 10) (28 # 1)).
  discriminate.
Defined.

(** ** The reference date built from a month *)

(** X15.  The pipeline builds its reference date from a string
    ['%Y-%m'], which gives the first day of that month.  From it the four
    modes of [get_format_date] format the first and the last day of the
    month and the first and the last day of the month before; the date
    handed to [query_date_control] is the last day of the month. *)
Theorem fechas_desde_cadena strftime y m today format :
  (1 <= m <= 12)%Z ->
  let ref_date := ReferenceDate (Some (y, m)) today in
  get_format_date strftime ref_date "first_date" format
  = Ok (strftime (y, m, 1%Z) format)
  /\ get_format_date strftime ref_date "last_date" format
     = Ok (strftime (y, m, dias_del_mes y m) format)
  /\ get_format_date strftime ref_date "prev_first_date" format
     = Ok (strftime (primer_dia (mes_anterior (y, m, 1%Z))) format)
  /\ get_format_date strftime ref_date "prev_last_date" format
     = Ok (strftime (ultimo_dia (mes_anterior (y, m, 1%Z))) format).
Proof.
  intros Hm ref_date.
  assert (Hv : fecha_valida (y, m, 1%Z)).
  { split; [assumption|]. pose proof (dias_del_mes_pos y m). lia. }
  unfold get_format_date. cbn [String.eqb Ascii.eqb Bool.eqb].
  subst ref_date. rewrite last_date_desde_cadena by assumption.
  cbn [ReferenceDate].
  rewrite first_date_primer_dia, prev_first_date_primer_dia,
    prev_last_date_ultimo_dia by assumption.
  repeat split; reflexivity.
Qed.

Lemma fechas_desde_cadena_witness :
  get_format_date (fun f _ => if (snd f =? 1)%Z then "1" else "n")%string
    (ReferenceDate (Some (2024, 3)%Z) (2020, 1, 15)%Z) "first_date" "%d"
  = Ok "1"%string
  /\ get_format_date (fun f _ => if (snd f =? 1)%Z then "1" else "n")%string
       (ReferenceDate (Some (2024, 3)%Z) (2020, 1, 15)%Z) "last_date" "%d"
     = Ok "n"%string
  /\ get_format_date (fun f _ => if (snd f =? 1)%Z then "1" else "n")%string
       (ReferenceDate (Some (2024, 3)%Z) (2020, 1, 15)%Z) "prev_first_date"
       "%d"
     = Ok "1"%string
  /\ get_format_date (fun f _ => if (snd f =? 1)%Z then "1" else "n")%string
       (ReferenceDate (Some (2024, 3)%Z) (2020, 1, 15)%Z) "prev_last_date"
       "%d"
     = Ok "n"%string.
Proof.
  apply (fechas_desde_cadena
           (fun f _ => if (snd f =? 1)%Z then "1" else "n")%string
           2024 3 (2020, 1, 15)%Z "%d").
  lia.
Defined.

(** ** The table written by [procesar] *)

Lemma str_int_inj i j : str_int i = str_int j -> i = j.
Proof.
  unfold str_int. intros E.
  assert (E' : Some (Nat.to_uint i) = Some (Nat.to_uint j))
    by (rewrite <- !NilEmpty.usu, E; reflexivity).
  injection E' as E'.
  rewrite <- (Unsigned.of_to i), <- (Unsigned.of_to j), E'. reflexivity.
Qed.

Lemma indices_NoDup {A : Type} (l : list A) : forall a,
  NoDup (map fst (combine (seq a (List.length l)) l))
  /\ forall i, In i (map fst (combine (seq a (List.length l)) l)) ->
               (a <= i)%nat.
Proof.
  induction l as [|x l IH]; intros a; cbn [List.length seq combine map fst].
  - split; [constructor|intros i []].
  - destruct (IH (S a)) as [Hnd Hge]. split.
    + constructor; [|assumption]. intros Hin. apply Hge in Hin. lia.
    + intros i [<-|Hin]; [lia|]. apply Hge in Hin. lia.
Qed.

Lemma NoDup_map_filter {A B : Type} (g : A -> B) (f : A -> bool) l :
  NoDup (map g l) -> NoDup (map g (filter f l)).
Proof.
  induction l as [|x l IH]; cbn [map filter]; [auto|].
  intros Hnd. inversion Hnd as [|? ? Hx Hl]; subst.
  destruct (f x); cbn [map]; [|auto].
  constructor; [|auto]. intros Hin. apply Hx.
  apply in_map_iff in Hin. destruct Hin as (y & E & Hy).
  apply filter_In in Hy. apply in_map_iff. exists y. tauto.
Qed.

Lemma NoDup_map_inj {A B : Type} (g : A -> B) l :
  (forall x y, g x = g y -> x = y) -> NoDup l -> NoDup (map g l).
Proof.
  intros Hg. induction 1 as [|x l Hx Hnd IH]; cbn [map]; constructor;
    [|assumption].
  intros Hin. apply in_map_iff in Hin. destruct Hin as (y & E & Hy).
  apply Hg in E. subst y. contradiction.
Qed.

Lemma to_datetime_columna_length to_datetime l fechas :
  to_datetime_columna to_datetime l = Ok fechas ->
  List.length fechas = List.length l.
Proof.
  revert fechas. induction l as [|c l IH]; intros fechas;
    cbn [to_datetime_columna].
  - intros [= <-]. reflexivity.
  - destruct (to_datetime c); [|discriminate].
    destruct (to_datetime_columna to_datetime l) as [fs|e]; [|discriminate].
    cbn [bind]. intros [= <-]. cbn [List.length]. f_equal. apply IH.
    reflexivity.
Qed.

Lemma to_datetime_columna_error to_datetime l e :
  to_datetime_columna to_datetime l = Raise e -> e = ValueError.
Proof.
  induction l as [|c l IH]; cbn [to_datetime_columna]; [discriminate|].
  destruct (to_datetime c); [|intros [= <-]; reflexivity].
  destruct (to_datetime_columna to_datetime l) as [fs|e']; cbn [bind];
    [discriminate|].
  intros [= <-]. apply IH. reflexivity.
Qed.

(** X16.  When [procesar] writes the month's table, no key is repeated in
    it; its rows are the rows of the file whose kind of transaction is 1,
    2, C or V, in the order of the file and with their columns unchanged,
    and all of them carry one period, that of the first row kept.  The step
    writes at least one row: it raises IndexError when no row of the file
    has one of the four kinds, and ValueError when a period kept is not a
    date, and raises nothing else. *)
Theorem procesar_tabla to_datetime strftime df :
  match procesar to_datetime strftime df with
  | Ok tabla =>
      unique_keys (map llave tabla) = true
      /\ tabla <> []
      /\ map (fun t => (nro_producto t, fecha_transaccion t,
                        tipo_transaccion t, cod_transaccion t,
                        tasa_interes t, valor_transaccion t,
                        nro_cargos_diferidos t, saldo_actual_trasaccion t,
                        tipo_producto t)) tabla
         = map (fun a => (a_nro_producto a, a_fecha_transaccion a,
                          a_tipo_transaccion a, a_cod_transaccion a,
                          a_tasa_interes_1 a, a_valor_transaccion a,
                          a_nro_cargos_diferidos a,
                          a_saldo_actual_trasaccion a, a_tipo_producto a))
               (filter (fun a => isin (a_tipo_transaccion a)
                                      ["1"; "2"; "C"; "V"]%string) df)
      /\ (exists a f,
            hd_error (filter (fun a => isin (a_tipo_transaccion a)
                                            ["1"; "2"; "C"; "V"]%string) df)
            = Some a
            /\ to_datetime (a_periodo a) = Some f
            /\ Forall (fun t => periodo t = strftime f "%Y-%m-%d"%string)
                      tabla)
  | Raise e =>
      (e = IndexError
       /\ Forall (fun a => isin (a_tipo_transaccion a) ["1"; "2"; "C"; "V"]%string
                           = false) df)
      \/ (e = ValueError
          /\ exists a, In a df
                       /\ isin (a_tipo_transaccion a) ["1"; "2"; "C"; "V"]%string
                          = true
                       /\ to_datetime (a_periodo a) = None)
  end.
Proof.
  unfold procesar.
  assert (Hsnd : map snd (df_3 df)
                 = filter (fun a => isin (a_tipo_transaccion a)
                                         ["1"; "2"; "C"; "V"]%string) df).
  { unfold df_3. generalize 0%nat.
    induction df as [|a df IH]; intros n; [reflexivity|].
    cbn [List.length seq combine filter snd].
    destruct (isin (a_tipo_transaccion a) ["1"; "2"; "C"; "V"]%string);
      cbn [map snd]; rewrite IH; reflexivity. }
  destruct (to_datetime_columna to_datetime
              (map (fun ir => a_periodo (snd ir)) (df_3 df)))
    as [fechas|e] eqn:Ef; cbn [bind].
  - pose proof (to_datetime_columna_length _ _ _ Ef) as Hlen.
    rewrite length_map in Hlen.
    destruct fechas as [|f fechas].
    + left. split; [reflexivity|].
      destruct (df_3 df); [|discriminate]. cbn [map] in Hsnd.
      apply Forall_forall. intros a Ha.
      destruct (isin (a_tipo_transaccion a) ["1"; "2"; "C"; "V"]%string) eqn:E;
        [|reflexivity].
      assert (Hin : In a (filter (fun a => isin (a_tipo_transaccion a)
                                               ["1"; "2"; "C"; "V"]%string) df))
        by (apply filter_In; tauto).
      rewrite <- Hsnd in Hin. contradiction.
    + split; [|split; [|split]].
      * rewrite map_map. cbn [llave]. apply unique_keys_NoDup.
        rewrite <- (map_map fst str_int).
        apply NoDup_map_inj; [apply str_int_inj|].
        unfold df_3. apply NoDup_map_filter. apply indices_NoDup.
      * destruct (df_3 df); [discriminate|discriminate].
      * rewrite map_map. cbn [nro_producto fecha_transaccion tipo_transaccion
          cod_transaccion tasa_interes valor_transaccion nro_cargos_diferidos
          saldo_actual_trasaccion tipo_producto].
        rewrite <- Hsnd, map_map. reflexivity.
      * destruct (df_3 df) as [|ir0 resto]; [discriminate|].
        cbn [map to_datetime_columna] in Ef, Hsnd.
        destruct (to_datetime (a_periodo (snd ir0))) as [f0|] eqn:E0;
          [|discriminate].
        destruct (to_datetime_columna to_datetime
                    (map (fun ir => a_periodo (snd ir)) resto));
          [|discriminate].
        cbn [bind] in Ef. injection Ef as -> _.
        exists (snd ir0), f. rewrite <- Hsnd. cbn [hd_error].
        split; [reflexivity|]. split; [assumption|].
        apply Forall_map, Forall_forall. intros ir _. reflexivity.
  - right. split; [eapply to_datetime_columna_error; exact Ef|].
    assert (G : forall l, to_datetime_columna to_datetime l = Raise e ->
                  exists c, In c l /\ to_datetime c = None).
    { induction l as [|c l IH]; cbn [to_datetime_columna]; [discriminate|].
      destruct (to_datetime c) eqn:Ec.
      - destruct (to_datetime_columna to_datetime l); [discriminate|].
        cbn [bind]. intros [= ->].
        destruct (IH eq_refl) as (c' & Hc' & E').
        exists c'. split; [right; assumption|assumption].
      - intros _. exists c. split; [left; reflexivity|assumption]. }
    destruct (G _ Ef) as (c & Hc & Ec).
    rewrite <- (map_map snd a_periodo), Hsnd in Hc.
    apply in_map_iff in Hc. destruct Hc as (a & <- & Ha).
    apply filter_In in Ha. exists a. tauto.
Qed.

(** ** The balance of the month by kind of transaction *)

Lemma saldo_de_cons r df :
  saldo_de (r :: df) = saldo_actual_trasaccion (tx r) + saldo_de df.
Proof. reflexivity. Qed.

Lemma compra_o_avance r :
  es_compra r = true -> es_avance r = false.
Proof.
  unfold es_compra, es_avance, isin. cbn [existsb].
  rewrite !orb_false_r, orb_true_iff, !String.eqb_eq.
  intros [->| ->]; reflexivity.
Qed.

Lemma segmentos_suman df :
  saldo_de (filter es_compra_cartera df)
  + saldo_de (filter es_totalero
                (filter (fun r => negb (es_compra_cartera r)) df))
  + saldo_de (filter es_compra
                (filter (fun r => negb (es_totalero r))
                   (filter (fun r => negb (es_compra_cartera r)) df)))
  + saldo_de (filter es_avance
                (filter (fun r => negb (es_totalero r))
                   (filter (fun r => negb (es_compra_cartera r)) df)))
  + saldo_de (filter sin_segmento df)
  == saldo_de df.
Proof.
  induction df as [|r df IH]; [reflexivity|].
  cbn [filter]. unfold sin_segmento at 1.
  destruct (es_compra_cartera r); cbn [negb andb filter].
  { rewrite !saldo_de_cons. lra. }
  destruct (es_totalero r); cbn [negb andb filter].
  { rewrite !saldo_de_cons. lra. }
  destruct (es_compra r) eqn:Ec; cbn [negb andb filter].
  { rewrite (compra_o_avance r Ec). rewrite !saldo_de_cons. lra. }
  destruct (es_avance r); cbn [negb andb filter]; rewrite !saldo_de_cons;
    lra.
Qed.

(** X17.  [segmentacion_saldo] counts no balance twice: the balances of
    portfolio purchases, one-payment transactions, purchases and advances,
    and the balance of the rows that fall in none of the four, add up to
    the balance of the month.  The four balances alone add up to the
    balance of the month when every row has kind 1, 2, C or V, as the rows
    written by [procesar] have. *)
Theorem segmentacion_saldo_conserva df :
  df <> [] ->
  exists s,
    segmentacion_saldo df = Ok s
    /\ primer_periodo df = Ok (seg_Periodo s)
    /\ Saldo_Compra_de_Cartera s + Saldo_Totaleros s + Saldo_Compras s
       + Saldo_Avances s + saldo_de (filter sin_segmento df)
       == saldo_de df
    /\ (Forall (fun r => isin (tipo_transaccion (tx r))
                              ["1"; "2"; "C"; "V"]%string = true) df ->
        Saldo_Compra_de_Cartera s + Saldo_Totaleros s + Saldo_Compras s
        + Saldo_Avances s
        == saldo_de df).
Proof.
  intros Hne. destruct (primer_periodo_Ok df Hne) as (per & Eper).
  unfold segmentacion_saldo. rewrite Eper. cbn [bind].
  eexists. split; [reflexivity|]. split; [reflexivity|].
  cbn [Saldo_Compra_de_Cartera Saldo_Totaleros Saldo_Compras Saldo_Avances].
  split; [apply segmentos_suman|].
  intros Htipo. pose proof (segmentos_suman df) as Hsum.
  assert (E : filter sin_segmento df = []).
  { clear -Htipo. induction Htipo as [|r df Hr _ IH]; [reflexivity|].
    cbn [filter]. rewrite IH.
    assert (Hs : sin_segmento r = false).
    { unfold sin_segmento, es_compra, es_avance, isin in *.
      cbn [existsb] in *.
      destruct (String.eqb (tipo_transaccion (tx r)) "1"%string);
        destruct (String.eqb (tipo_transaccion (tx r)) "2"%string);
        destruct (String.eqb (tipo_transaccion (tx r)) "C"%string);
        destruct (String.eqb (tipo_transaccion (tx r)) "V"%string);
        cbn [orb negb andb] in *; rewrite ?andb_false_r;
        try reflexivity; discriminate. }
    rewrite Hs. reflexivity. }
  rewrite E in Hsum. change (saldo_de []) with 0 in Hsum. lra.
Qed.

Lemma segmentacion_saldo_conserva_witness :
  exists s,
    segmentacion_saldo [cruce_ejemplo (10004 # 10) (Some 30) 2;
                        cruce_ejemplo 500 None (3 # 2)] = Ok s
    /\ primer_periodo [cruce_ejemplo (10004 # 10) (Some 30) 2;
                       cruce_ejemplo 500 None (3 # 2)] = Ok (seg_Periodo s)
    /\ Saldo_Compra_de_Cartera s + Saldo_Totaleros s + Saldo_Compras s
       + Saldo_Avances s
       + saldo_de (filter sin_segmento
                     [cruce_ejemplo (10004 # 10) (Some 30) 2;
                      cruce_ejemplo 500 None (3 # 2)])
       == saldo_de [cruce_ejemplo (10004 # 10) (Some 30) 2;
                    cruce_ejemplo 500 None (3 # 2)]
    /\ (Forall (fun r => isin (tipo_transaccion (tx r))
                              ["1"; "2"; "C"; "V"]%string = true)
               [cruce_ejemplo (10004 # 10) (Some 30) 2;
                cruce_ejemplo 500 None (3 # 2)] ->
        Saldo_Compra_de_Cartera s + Saldo_Totaleros s + Saldo_Compras s
        + Saldo_Avances s
        == saldo_de [cruce_ejemplo (10004 # 10) (Some 30) 2;
                     cruce_ejemplo 500 None (3 # 2)]).
Proof.
  apply (segmentacion_saldo_conserva
           [cruce_ejemplo (10004 # 10) (Some 30) 2;
            cruce_ejemplo 500 None (3 # 2)]).
  discriminate.
Defined.

(** ** From the file to the reconciled month *)







(** ** The face rate *)

Lemma py_round_monotona x y n : x <= y -> py_round x n <= py_round y n.
Proof.
  intros Hxy. rewrite !py_round_decimal.
  pose proof (pow10_pos n) as Hp.
  unfold Qdiv. apply Qmult_le_compat_r.
  - rewrite <- Zle_Qle. apply round_half_even_monotona.
    apply Qmult_le_compat_r; [assumption|lra].
  - apply Qlt_le_weak, Qinv_lt_0_compat. assumption.
Qed.

Lemma combine_map {A B C : Type} (f : A -> B) (g : A -> C) l :
  combine (map f l) (map g l) = map (fun a => (f a, g a)) l.
Proof.
  induction l as [|a l IH]; [reflexivity|]. cbn [map combine].
  rewrite IH. reflexivity.
Qed.

Lemma promedio_ponderado (s e : fila_cruce -> Q) lo hi df :
  Forall (fun r => 0 <= s r) df ->
  (forall r, In r df -> lo <= e r <= hi) ->
  lo * Qsum (map s df) <= Qsum (map (fun r => s r * e r) df)
  /\ Qsum (map (fun r => s r * e r) df) <= hi * Qsum (map s df).
Proof.
  intros Hs. induction Hs as [|r df Hr _ IH]; intros He.
  - cbn. lra.
  - cbn [map]. rewrite !Qsum_cons.
    destruct IH as [IH1 IH2]; [intros r' Hr'; apply He; right; assumption|].
    destruct (He r (or_introl eq_refl)) as [H1 H2].
    pose proof (Qmult_le_compat_nonneg (s r) lo (e r) Hr H1).
    pose proof (Qmult_le_compat_nonneg (s r) (e r) hi Hr H2).
    split; lra.
Qed.

Lemma Qsum_map_div (f : fila_cruce -> Q) (c : Q) df :
  ~ c == 0 ->
  Qsum (map (fun r => f r / c) df) == Qsum (map f df) / c.
Proof.
  intros Hc. induction df as [|r df IH]; cbn [map].
  - cbn. field. assumption.
  - rewrite !Qsum_cons, IH. field. assumption.
Qed.

Lemma tasa_facial_mes_suma df :
  ~ saldo_de df == 0 ->
  tasa_facial_mes df
  = Some (py_round
            (Qsum (map (fun r => saldo_actual_trasaccion (tx r)
                                 * tasa_efectiva_anual (tasa_interes (tx r)))
                       df)
             / saldo_de df) 2).
Proof.
  intros Ht. unfold tasa_facial_mes.
  destruct (Qeq_bool (saldo_de df) 0) eqn:E;
    [apply Qeq_bool_iff in E; contradiction|].
  f_equal. apply py_round_comp.
  unfold interes_ea_facial, interes_ea_columna. rewrite !map_map.
  rewrite combine_map, map_map. cbn [fst snd].
  rewrite <- (Qsum_map_div _ _ df Ht).
  apply Qsum_map_ext. intros r _.
  rewrite py_round_idem. unfold tasa_efectiva_anual. field. assumption.
Qed.

(** X19.  The face rate of the month is an average of the current annual
    rates of its rows weighted by balance: when no balance is negative and
    the total balance is positive, it lies between the lowest and the
    highest of these rates, rounded to two decimals.  With a total balance
    of 0 the step computes no number. *)
Theorem tasa_facial_entre_tasas df lo hi :
  Forall (fun r => 0 <= saldo_actual_trasaccion (tx r)) df ->
  0 < saldo_de df ->
  (forall r, In r df ->
     lo <= tasa_efectiva_anual (tasa_interes (tx r)) <= hi) ->
  (exists v, tasa_facial_mes df = Some v
             /\ py_round lo 2 <= v <= py_round hi 2)
  /\ forall df', saldo_de df' == 0 -> tasa_facial_mes df' = None.
Proof.
  intros Hs Ht He. split.
  - rewrite tasa_facial_mes_suma by lra.
    eexists. split; [reflexivity|].
    destruct (promedio_ponderado
                (fun r => saldo_actual_trasaccion (tx r))
                (fun r => tasa_efectiva_anual (tasa_interes (tx r)))
                lo hi df Hs He) as [H1 H2].
    fold (saldo_de df) in H1, H2.
    split; apply py_round_monotona.
    + apply Qle_shift_div_l; assumption.
    + apply Qle_shift_div_r; assumption.
  - intros df' E. unfold tasa_facial_mes.
    apply Qeq_bool_iff in E. rewrite E. reflexivity.
Qed.

Lemma tasa_facial_entre_tasas_witness :
  (exists v,
     tasa_facial_mes [cruce_ejemplo 1000 (Some 30) 2;
                      cruce_ejemplo 500 None (3 # 2)] = Some v
     /\ py_round 19 2 <= v <= py_round 27 2)
  /\ forall df', saldo_de df' == 0 -> tasa_facial_mes df' = None.
Proof.
  apply (tasa_facial_entre_tasas
           [cruce_ejemplo 1000 (Some 30) 2; cruce_ejemplo 500 None (3 # 2)]
           19 27).
  - repeat constructor; cbn; discriminate.
  - reflexivity.
  - intros r [<-|[<-|[]]]; split; vm_compute; discriminate.
Defined.

(** ** The variation of the rates *)

Lemma variacion_ZeroDivisionError anterior actual :
  variacion anterior actual = ZeroDivisionError <-> es_cero anterior = true.
Proof.
  unfold variacion, es_cero. destruct anterior as [a|].
  - destruct (Qeq_bool a 0); split; intros H; try discriminate; reflexivity.
  - split; discriminate.
Qed.

Lemma variacion_Devuelve anterior actual :
  es_cero anterior = false ->
  variacion anterior actual
  = Devuelve (match anterior, actual with
              | Some a, Some b => Some (py_round ((b - a) / a) 5)
              | _, _ => None
              end).
Proof.
  unfold variacion, es_cero. destruct anterior as [a|]; [|reflexivity].
  intros ->. destruct actual; reflexivity.
Qed.

(** X20.  The outcomes of [tasas_usura_implicita_facial].  It raises
    IndexError exactly when the month has no row.  Otherwise only the last
    row of the table of rates is used: with an empty table the variations
    and the previous values written are 0; with a last row, the step raises
    ZeroDivisionError exactly when that row holds a 0 as usury, implicit or
    face rate, and else writes that row's rates as previous values and, for
    the usury and implicit rates, the relative change from them rounded to
    five decimals. *)
Theorem tasas_usura_implicita_facial_resultado df usura implicita tabla :
  (tasas_usura_implicita_facial df usura implicita tabla = Lanza IndexError
   <-> df = [])
  /\ (df <> [] ->
      match ultima tabla with
      | None =>
          exists fila,
            tasas_usura_implicita_facial df usura implicita tabla
            = Devuelve (mk_fila_tasas_var fila (Some 0) (Some 0) (Some 0)
                          (Some 0) (Some 0) (Some 0))
            /\ primer_periodo df = Ok (t_periodo fila)
            /\ t_tasa_usura fila = usura
            /\ t_tasa_implicita fila = implicita
            /\ t_tasa_facial fila = tasa_facial_mes df
      | Some anterior =>
          (tasas_usura_implicita_facial df usura implicita tabla
           = ZeroDivisionError
           <-> Qeq_bool (t_tasa_usura anterior) 0
               || Qeq_bool (t_tasa_implicita anterior) 0
               || es_cero (t_tasa_facial anterior) = true)
          /\ (Qeq_bool (t_tasa_usura anterior) 0
              || Qeq_bool (t_tasa_implicita anterior) 0
              || es_cero (t_tasa_facial anterior) = false ->
              exists v,
                tasas_usura_implicita_facial df usura implicita tabla
                = Devuelve v
                /\ t_tasa_usura (v_tasas v) = usura
                /\ t_tasa_implicita (v_tasas v) = implicita
                /\ t_tasa_facial (v_tasas v) = tasa_facial_mes df
                /\ Objetivos_tasa_usura v = Some (t_tasa_usura anterior)
                /\ Objetivos_tasa_implicita v
                   = Some (t_tasa_implicita anterior)
                /\ Objetivos_tasa_facial v = t_tasa_facial anterior
                /\ Var_tasa_usura v
                   = Some (py_round ((usura - t_tasa_usura anterior)
                                     / t_tasa_usura anterior) 5)
                /\ Var_tasa_implicita v
                   = Some (py_round
                             ((implicita - t_tasa_implicita anterior)
                              / t_tasa_implicita anterior) 5))
      end).
Proof.
  unfold tasas_usura_implicita_facial. split.
  - destruct df as [|r df]; cbn [primer_periodo].
    + split; reflexivity.
    + split; [|discriminate].
      destruct (ultima tabla) as [ant|]; [|discriminate].
      unfold variacion. cbn [es_cero].
      destruct (Qeq_bool (t_tasa_usura ant) 0); cbn [salida_bind];
        [discriminate|].
      destruct (Qeq_bool (t_tasa_implicita ant) 0); cbn [salida_bind];
        [discriminate|].
      destruct (t_tasa_facial ant) as [a|]; cbn [salida_bind];
        [|discriminate].
      destruct (Qeq_bool a 0); discriminate.
  - intros Hne. destruct (primer_periodo_Ok df Hne) as (per & Eper).
    rewrite Eper. destruct (ultima tabla) as [ant|].
    + unfold variacion. cbn [es_cero t_tasa_facial option_map].
      destruct (Qeq_bool (t_tasa_usura ant) 0); cbn [salida_bind orb].
      { split; [split; reflexivity|discriminate]. }
      destruct (Qeq_bool (t_tasa_implicita ant) 0); cbn [salida_bind orb].
      { split; [split; reflexivity|discriminate]. }
      destruct (t_tasa_facial ant) as [a|] eqn:Ea; cbn [salida_bind es_cero].
      * destruct (Qeq_bool a 0); cbn [salida_bind].
        { split; [split; reflexivity|discriminate]. }
        split; [split; discriminate|].
        intros _. eexists. split; [reflexivity|].
        cbn. repeat split; reflexivity.
      * split; [split; discriminate|].
        intros _. eexists. split; [reflexivity|].
        cbn. repeat split; reflexivity.
    + eexists. split; [reflexivity|]. cbn [t_periodo t_tasa_usura
        t_tasa_implicita t_tasa_facial]. repeat split; reflexivity.
Qed.

(** ** Income at the monthly rate *)

Section IngresosProps.

Local Open Scope R_scope.

Lemma tasa_propia_mv r :
  0 <= r ->
  exists m, tasa_original_mv (Rpy_round (tasa_ea r) 1) = Ok m
            /\ Rabs (m - r) <= 1 / 100.
Proof.
  intros Hr.
  set (a := r / 100 + 1).
  assert (Ha : 1 <= a) by (unfold a; lra).
  pose proof (pow_ge_1 a 12 Ha) as Ha12.
  pose proof (Rpy_round_near ((a ^ 12 - 1) * 100)) as Hnear.
  pose proof (Rpy_round_nonneg ((a ^ 12 - 1) * 100) ltac:(lra)) as Hpos.
  unfold tasa_ea. fold a.
  set (e := Rpy_round ((a ^ 12 - 1) * 100) 2) in *.
  assert (Er : r = (a - 1) * 100) by (unfold a; lra).
  pose proof (Rpy_round_near_1 e) as Hnear1.
  pose proof (Rpy_round_nonneg_1 e Hpos) as Hpos1.
  apply Rabs_le_inv in Hnear, Hnear1.
  destruct (tasa_original_mv_cerca a (Rpy_round e 1) (11 / 200) Ha Hpos1)
    as (m & Em & Hm).
  { apply Rabs_le. lra. }
  exists m. split; [exact Em|].
  apply Rabs_le_inv in Hm. apply Rabs_le. lra.
Qed.

Lemma impacto_de_fila m r s :
  Rabs (m - r) <= 1 / 100 ->
  Rabs (m / 100 * s - r / 100 * s) <= Rabs s / 10000.
Proof.
  intros H. apply Rabs_le_inv in H. apply Rabs_le.
  unfold Rabs. destruct (Rcase_abs s); nra.
Qed.

Lemma tasa_mv_Ok u : -100 <= u -> exists m, tasa_mv (u / 100) = Ok m.
Proof.
  intros Hu. unfold tasa_mv, py_pow.
  destruct (Rlt_dec (1 + u / 100) 0) as [H|_]; [lra|].
  destruct (Req_dec_T (1 + u / 100) 0); eexists; reflexivity.
Qed.

Lemma impacto_tasas_propias df :
  Forall tasa_propia df ->
  exists mv,
    tasa_original_mv_columna df = Ok mv
    /\ Rabs (impacto_cnst df mv - impacto_var df)
       <= Rsum (map (fun r => Rabs (i_saldo_actual_trasaccion r)) df)
          / 10000.
Proof.
  induction 1 as [|r df [Hr Ho] _ (mv & Emv & IH)].
  - exists []. split; [reflexivity|].
    unfold impacto_cnst, impacto_var. cbn.
    rewrite Rminus_diag, Rabs_R0. lra.
  - destruct (tasa_propia_mv _ Hr) as (m & Em & Hm).
    exists (Some m :: mv). split.
    + cbn [tasa_original_mv_columna]. rewrite Ho, Em. cbn [bind].
      rewrite Emv. reflexivity.
    + change (impacto_cnst (r :: df) (Some m :: mv))
        with (m / 100 * i_saldo_actual_trasaccion r + impacto_cnst df mv).
      change (impacto_var (r :: df))
        with (i_tasa_interes r / 100 * i_saldo_actual_trasaccion r
              + impacto_var df).
      change (Rsum (map (fun r => Rabs (i_saldo_actual_trasaccion r))
                        (r :: df)))
        with (Rabs (i_saldo_actual_trasaccion r)
              + Rsum (map (fun r => Rabs (i_saldo_actual_trasaccion r)) df)).
      pose proof (impacto_de_fila m (i_tasa_interes r)
                    (i_saldo_actual_trasaccion r) Hm) as Hf.
      apply Rabs_le_inv in Hf. apply Rabs_le_inv in IH.
      set (c := impacto_cnst df mv) in *. set (v := impacto_var df) in *.
      set (t := Rsum (map (fun r => Rabs (i_saldo_actual_trasaccion r)) df))
        in *.
      apply Rabs_le. lra.
Qed.

(** X21.  On a month whose rows all carry as original rate the rate
    computed from their own nominal monthly rate, none of them negative,
    and for usury rates of at least -100, [afectacion_ingresos_conTasaMv]
    returns, and the difference of income it writes is at most one
    ten-thousandth of the balance of the month in absolute value: the
    monthly rate recovered from the original rate is within one hundredth
    of a point of the nominal one. *)
Theorem ingresos_con_tasas_propias df usura_corte usura_nuevo :
  df <> [] ->
  -100 <= usura_corte ->
  -100 <= usura_nuevo ->
  Forall tasa_propia df ->
  exists per var cnst mv,
    afectacion_ingresos_conTasaMv df usura_corte usura_nuevo
    = Ok ([(per, var, "Ingresos Tasa actual"%string);
           (per, cnst, "Ingresos Tasa original"%string)],
          (cnst - var, per, mv))
    /\ tasa_mv (usura_corte / 100) = Ok mv
    /\ var = impacto_var df
    /\ Rabs (cnst - var)
       <= Rsum (map (fun r => Rabs (i_saldo_actual_trasaccion r)) df)
          / 10000.
Proof.
  intros Hne H1 H2 Hp.
  destruct (tasa_mv_Ok _ H1) as (m1 & E1).
  destruct (tasa_mv_Ok _ H2) as (m2 & E2).
  destruct (impacto_tasas_propias df Hp) as (mv & Emv & Hb).
  unfold afectacion_ingresos_conTasaMv. rewrite E1, E2. cbn [bind].
  destruct df as [|r df]; [contradiction|]. cbn [bind].
  rewrite Emv. cbn [bind].
  do 4 eexists. split; [reflexivity|]. split; [reflexivity|].
  split; [reflexivity|]. exact Hb.
Qed.

Lemma ingresos_con_tasas_propias_witness :
  exists per var cnst mv,
    afectacion_ingresos_conTasaMv
      [mk_fila_ingresos 1000 2 (Some (Rpy_round (tasa_ea 2) 1))
                        "2023-05-31"]
      (55 / 2) 28
    = Ok ([(per, var, "Ingresos Tasa actual"%string);
           (per, cnst, "Ingresos Tasa original"%string)],
          (cnst - var, per, mv))
    /\ tasa_mv ((55 / 2) / 100) = Ok mv
    /\ var = impacto_var
               [mk_fila_ingresos 1000 2 (Some (Rpy_round (tasa_ea 2) 1))
                                 "2023-05-31"]
    /\ Rabs (cnst - var)
       <= Rsum (map (fun r => Rabs (i_saldo_actual_trasaccion r))
                    [mk_fila_ingresos 1000 2
                       (Some (Rpy_round (tasa_ea 2) 1)) "2023-05-31"])
          / 10000.
Proof.
  apply (ingresos_con_tasas_propias
           [mk_fila_ingresos 1000 2 (Some (Rpy_round (tasa_ea 2) 1))
                             "2023-05-31"]
           (55 / 2) 28).
  - discriminate.
  - lra.
  - lra.
  - constructor; [|constructor].
    split; cbn [i_tasa_interes i_TASA_EA]; [lra|reflexivity].
Defined.

End IngresosProps.
